(** * Seed-URL generator for Oracle Javadoc sites

    A shallow embedding of [scripts/oracle_javadoc_seed.py] and the
    properties of its specification.

    Python strings are sequences of Unicode code points, so a string is a
    [list N]; dictionaries are [gmap]s and sets are [gset]s.  A call that
    may raise returns a [result].  The three network fetches of
    [generate_seed_urls] are inputs of the model: the texts they
    returned.

    The library functions the script calls ([re], [json],
    [urllib.parse]) are modelled after CPython 3.11.  Left out of the
    model: the value of a JSON number (its literal is kept), the
    interpreter's limits on recursion depth and on the digits of an
    integer, and two checks of [urlsplit] on unusual network locations
    (an IP literal in brackets, characters outside ASCII), where the
    model answers [NotModelled].

    Of [scripts/recover_cache.py] the embedding has the scan for object
    boundaries and the choice of the truncation point of
    [analyze_java_serialized_data], on the bytes of the raw file; the
    reading and writing of files and the compression are left out. *)

From Stdlib Require Import NArith List Ascii String Lia.
From stdpp Require Import base option list gmap sorting.

Local Open Scope N_scope.

(** ** Strings *)

Module Str.

(** A string literal of the source, as code points. *)
Definition u (s : string) : list N :=
  List.map N_of_ascii (list_ascii_of_string s).
Arguments u _%_string.

Definition DQ : N := 34.          (* the double quote *)
Definition BACKSLASH : N := 92.
Definition NL : N := 10.

(** [q s] is [s] between double quotes. *)
Definition q (s : list N) : list N := DQ :: s ++ [DQ].

(** [str.isspace] for one code point; [\s] of a [str] pattern is the
    same test. *)
Definition isspace (c : N) : bool :=
  ((9 <=? c) && (c <=? 13)) || ((28 <=? c) && (c <=? 32))
  || (c =? 133) || (c =? 160) || (c =? 5760)
  || ((8192 <=? c) && (c <=? 8202))
  || (c =? 8232) || (c =? 8233) || (c =? 8239) || (c =? 8287)
  || (c =? 12288).

Definition isdigit (c : N) : bool := (48 <=? c) && (c <=? 57).
Definition islower (c : N) : bool := (97 <=? c) && (c <=? 122).
Definition isupper (c : N) : bool := (65 <=? c) && (c <=? 90).
Definition isalpha (c : N) : bool := islower c || isupper c.
Definition isalnum (c : N) : bool := isalpha c || isdigit c.

Definition mem (c : N) (s : list N) : bool := existsb (N.eqb c) s.

Fixpoint eqb (a b : list N) : bool :=
  match a, b with
  | [], [] => true
  | x :: a', y :: b' => (x =? y) && eqb a' b'
  | _, _ => false
  end.

Fixpoint startswith (s p : list N) : bool :=
  match p, s with
  | [], _ => true
  | y :: p', x :: s' => (x =? y) && startswith s' p'
  | _ :: _, [] => false
  end.

Definition endswith (s p : list N) : bool :=
  startswith (rev s) (rev p).

Fixpoint lstrip (f : N → bool) (s : list N) : list N :=
  match s with
  | x :: s' => if f x then lstrip f s' else s
  | [] => []
  end.

Definition rstrip (f : N → bool) (s : list N) : list N :=
  rev (lstrip f (rev s)).

(** [s.strip()] *)
Definition strip (s : list N) : list N := rstrip isspace (lstrip isspace s).

(** [s.replace(c, r)] for a one-character [c]. *)
Definition replace1 (c : N) (r : list N) (s : list N) : list N :=
  List.flat_map (fun x => if x =? c then r else [x]) s.

(** [s.split(c)] for a one-character separator: never empty. *)
Fixpoint split (c : N) (s : list N) : list (list N) :=
  match s with
  | [] => [[]]
  | x :: s' =>
      if x =? c then [] :: split c s'
      else match split c s' with
           | w :: ws => (x :: w) :: ws
           | [] => [[x]]
           end
  end.

(** [c.join(parts)] *)
Fixpoint join (c : N) (parts : list (list N)) : list N :=
  match parts with
  | [] => []
  | [w] => w
  | w :: ws => w ++ c :: join c ws
  end.

(** [s.find(c)]: [None] is Python's [-1]. *)
Fixpoint find (c : N) (s : list N) : option nat :=
  match s with
  | [] => None
  | x :: s' => if x =? c then Some O else S <$> find c s'
  end.

(** Comparison of strings: code point by code point, a proper prefix
    first. *)
Fixpoint cmp (a b : list N) : comparison :=
  match a, b with
  | [], [] => Eq
  | [], _ :: _ => Lt
  | _ :: _, [] => Gt
  | x :: a', y :: b' =>
      match x ?= y with
      | Eq => cmp a' b'
      | o => o
      end
  end.

Definition le (a b : list N) : Prop := cmp a b ≠ Gt.
Definition lt (a b : list N) : Prop := cmp a b = Lt.

End Str.

Import Str.

(** ** Regular expressions ([re])

    The two patterns of the script are concatenations of literals,
    character classes, greedy repetitions of a class, one capturing group
    and [$].  [run] is the backtracking matcher: a greedy repetition takes
    as many characters as it can and gives them back one at a time. *)

Module Re.

Inductive item :=
| Lit (c : N)
| Cls (f : N → bool)
| Star (f : N → bool)
| GOpen
| GClose
| Eos.

(** What is left of the subject where the group opened and closed. *)
Record caps := Caps { g_open : list N; g_close : list N }.

Definition no_caps : caps := Caps [] [].

Fixpoint star {R} (f : N → bool) (k : list N → option R) (s : list N)
  : option R :=
  match s with
  | x :: s' =>
      if f x then
        match star f k s' with
        | Some r => Some r
        | None => k s
        end
      else k s
  | [] => k []
  end.

Fixpoint run (p : list item) (s : list N) (c : caps) {struct p}
  : option (caps * list N) :=
  match p with
  | [] => Some (c, s)
  | Lit a :: p' =>
      match s with
      | x :: s' => if x =? a then run p' s' c else None
      | [] => None
      end
  | Cls f :: p' =>
      match s with
      | x :: s' => if f x then run p' s' c else None
      | [] => None
      end
  | Star f :: p' => star f (fun s' => run p' s' c) s
  | GOpen :: p' => run p' s (Caps s (g_close c))
  | GClose :: p' => run p' s (Caps (g_open c) s)
  | Eos :: p' =>
      match s with
      | [] => run p' s c
      | [x] => if x =? NL then run p' s c else None
      | _ => None
      end
  end.

(** [m.group(1)] *)
Definition group1 (c : caps) : list N :=
  take (length (g_open c) - length (g_close c))%nat (g_open c).

(** [pattern.match(s)]: the group and the rest of the subject. *)
Definition rmatch (p : list item) (s : list N) : option (list N * list N) :=
  match run p s no_caps with
  | Some (c, rest) => Some (group1 c, rest)
  | None => None
  end.

(** [re.findall(p, s)] for a pattern with one group that never matches
    the empty string: scan left to right, and after a match go on where
    it ended.  [skip] counts the characters of the last match still to be
    passed. *)
Fixpoint findall_from (p : list item) (s : list N) (skip : nat)
  : list (list N) :=
  match s with
  | [] => []
  | _ :: s' =>
      match skip with
      | S k => findall_from p s' k
      | O =>
          match rmatch p s with
          | Some (g, rest) =>
              g :: findall_from p s' (length s - length rest - 1)%nat
          | None => findall_from p s' O
          end
      end
  end.

Definition findall (p : list item) (s : list N) : list (list N) :=
  findall_from p s O.

Definition lit (s : list N) : list item := List.map Lit s.

Definition any (_ : N) : bool := true.              (* [.] with DOTALL *)
Definition not_newline (c : N) : bool := negb (c =? NL).   (* [.] *)

End Re.

Import Re.

(** ** [parse_index_files] *)

(** [r'href="(index-[0-9]+\\.html)"']: in the raw string the two
    backslashes are a pattern for one literal backslash, and the dot after
    them is the wildcard. *)
Definition index_href_pattern : list item :=
  lit (u "href=") ++ [Lit DQ; GOpen] ++ lit (u "index-")
    ++ [Cls isdigit; Star isdigit; Lit BACKSLASH; Cls not_newline]
    ++ lit (u "html") ++ [GClose; Lit DQ].

Definition parse_index_files (index_1_html : list N) : gset (list N) :=
  let matches : gset (list N) :=
    list_to_set (findall index_href_pattern index_1_html) in
  filter (fun m => startswith m (u "index-") && endswith m (u ".html") = true)
         matches.

(** ** Exceptions

    A run of the script either returns or raises; every exception aborts
    the run. *)

Inductive exn :=
| ValueError (msg : list N)     (* raised by [parse_assigned_json_array] *)
| JSONDecodeError               (* raised by [json.loads] *)
| AttributeError                (* [.get] on a value that is no dict *)
| InvalidURL                    (* the [ValueError] of [urllib.parse] *)
| UnicodeEncodeError            (* a lone surrogate met by [quote] *)
| NotModelled.                  (* library behaviour left out, see [check_netloc] *)

Inductive result (A : Type) :=
| Ok (a : A)
| Raise (e : exn).
Arguments Ok {A} a.
Arguments Raise {A} e.

#[global] Instance result_ret : MRet result := fun _ a => Ok a.
#[global] Instance result_bind : MBind result := fun _ _ f m =>
  match m with
  | Ok a => f a
  | Raise e => Raise e
  end.

(** ** JSON ([json.loads])

    Values as Python has them after decoding.  A number keeps the text of
    its literal: the script never looks at a number. *)

Module Json.

#[warnings="-register-all"] Inductive value :=
| PNone
| PBool (b : bool)
| PInt (literal : list N)
| PFloat (literal : list N)
| PStr (s : list N)
| PList (xs : list value)
| PDict (d : gmap (list N) value).

Definition is_ws (c : N) : bool := mem c (u " ") || (c =? 9) || (c =? 10) || (c =? 13).
Definition skip_ws (s : list N) : list N := lstrip is_ws s.

Definition hexval (c : N) : option N :=
  if isdigit c then Some (c - 48)
  else if (97 <=? c) && (c <=? 102) then Some (c - 87)
  else if (65 <=? c) && (c <=? 70) then Some (c - 55)
  else None.

Definition hex4 (a b c d : N) : option N :=
  x1 ← hexval a; x2 ← hexval b; x3 ← hexval c; x4 ← hexval d;
  Some (((x1 * 16 + x2) * 16 + x3) * 16 + x4).

Definition is_high_surrogate (c : N) : bool := (55296 <=? c) && (c <=? 56319).
Definition is_low_surrogate (c : N) : bool := (56320 <=? c) && (c <=? 57343).

(** The character an escape letter stands for. *)
Definition unescape (c : N) : option N :=
  if c =? DQ then Some DQ
  else if c =? BACKSLASH then Some BACKSLASH
  else if c =? 47 then Some 47          (* / *)
  else if c =? 98 then Some 8           (* b *)
  else if c =? 102 then Some 12         (* f *)
  else if c =? 110 then Some 10         (* n *)
  else if c =? 114 then Some 13         (* r *)
  else if c =? 116 then Some 9          (* t *)
  else None.

(** [scanstring], strict: the text after the opening quote; returns the
    decoded string and what follows the closing quote.  After a [\u]
    escape for a high surrogate, a second [\u] escape is read at once and
    the two are joined when it is a low surrogate. *)
Fixpoint scanstring (s : list N) : result (list N * list N) :=
  match s with
  | [] => Raise JSONDecodeError                      (* unterminated *)
  | c :: rest =>
      if c =? DQ then Ok ([], rest)
      else if c =? BACKSLASH then
        match rest with
        | [] => Raise JSONDecodeError
        | e :: rest1 =>
            if e =? 117 then
              match rest1 with
              | h1 :: h2 :: h3 :: h4 :: rest2 =>
                  match hex4 h1 h2 h3 h4 with
                  | None => Raise JSONDecodeError
                  | Some uni =>
                      if is_high_surrogate uni && startswith rest2 [BACKSLASH; 117]
                      then
                        match rest2 with
                        | _ :: _ :: l1 :: l2 :: l3 :: l4 :: rest3 =>
                            match hex4 l1 l2 l3 l4 with
                            | None => Raise JSONDecodeError
                            | Some uni2 =>
                                if is_low_surrogate uni2 then
                                  '(t, r) ← scanstring rest3;
                                  Ok ((65536 + (uni - 55296) * 1024
                                       + (uni2 - 56320)) :: t, r)
                                else
                                  '(t, r) ← scanstring rest2;
                                  Ok (uni :: t, r)
                            end
                        | _ => Raise JSONDecodeError
                        end
                      else '(t, r) ← scanstring rest2; Ok (uni :: t, r)
                  end
              | _ => Raise JSONDecodeError           (* short escape *)
              end
            else
              match unescape e with
              | Some x => '(t, r) ← scanstring rest1; Ok (x :: t, r)
              | None => Raise JSONDecodeError
              end
        end
      else if c <? 32 then Raise JSONDecodeError     (* control character *)
      else '(t, r) ← scanstring rest; Ok (c :: t, r)
  end.

(** A run of digits and what follows it. *)
Fixpoint span_digits (s : list N) : list N * list N :=
  match s with
  | c :: s' =>
      if isdigit c then let '(ds, r) := span_digits s' in (c :: ds, r)
      else ([], s)
  | [] => ([], [])
  end.

(** The integer part of [NUMBER_RE]: an optional minus, then a single
    zero or a digit from 1 to 9 followed by digits. *)
Definition match_digits (sign s : list N) : option (list N * list N) :=
  match s with
  | c :: r =>
      if c =? 48 then Some (sign ++ [48], r)
      else if isdigit c then
        let '(ds, r') := span_digits r in Some (sign ++ c :: ds, r')
      else None
  | [] => None
  end.

Definition match_integer (s : list N) : option (list N * list N) :=
  match s with
  | c :: s' => if c =? 45 then match_digits [45] s' else match_digits [] s
  | [] => None
  end.

(** The optional fraction: a dot and at least one digit. *)
Definition match_frac (s : list N) : list N * list N :=
  match s with
  | c :: s' =>
      if c =? 46 then
        match span_digits s' with
        | ([], _) => ([], s)
        | (ds, r) => (46 :: ds, r)
        end
      else ([], s)
  | [] => ([], s)
  end.

(** The optional exponent: e or E, an optional sign, at least one
    digit. *)
Definition match_exp (s : list N) : list N * list N :=
  match s with
  | e :: s' =>
      if (e =? 101) || (e =? 69) then
        let '(sign, s2) :=
          match s' with
          | c :: s'' => if (c =? 45) || (c =? 43) then ([c], s'') else ([], s')
          | [] => ([], s')
          end in
        match span_digits s2 with
        | ([], _) => ([], s)
        | (ds, r) => (e :: sign ++ ds, r)
        end
      else ([], s)
  | [] => ([], s)
  end.

Definition match_number (s : list N) : option (value * list N) :=
  match match_integer s with
  | None => None
  | Some (int, r1) =>
      let '(frac, r2) := match_frac r1 in
      let '(ex, r3) := match_exp r2 in
      match frac, ex with
      | [], [] => Some (PInt int, r3)
      | _, _ => Some (PFloat (int ++ frac ++ ex), r3)
      end
  end.

(** A keyword at the head of the text. *)
Definition keyword (w : list N) (v : value) (s : list N)
  : option (value * list N) :=
  if startswith s w then Some (v, drop (length w) s) else None.

Definition scan_atom (s : list N) : result (value * list N) :=
  match keyword (u "null") PNone s with Some r => Ok r | None =>
  match keyword (u "true") (PBool true) s with Some r => Ok r | None =>
  match keyword (u "false") (PBool false) s with Some r => Ok r | None =>
  match match_number s with Some r => Ok r | None =>
  match keyword (u "NaN") (PFloat (u "NaN")) s with Some r => Ok r | None =>
  match keyword (u "Infinity") (PFloat (u "Infinity")) s with Some r => Ok r | None =>
  match keyword (u "-Infinity") (PFloat (u "-Infinity")) s with Some r => Ok r | None =>
  Raise JSONDecodeError
  end end end end end end end.

(** [scan_once], [JSONArray] and [JSONObject].  The recursion of the
    decoder is on the text; [fuel] bounds its depth here, and twice the
    length of the text and one more is always enough (see
    [loads_raises]). *)
Fixpoint scan_once (fuel : nat) (s : list N) : result (value * list N) :=
  match fuel with
  | O => Raise NotModelled                  (* never, see [loads_raises] *)
  | S fuel' =>
      match s with
      | [] => scan_atom s
      | c :: s' =>
          if c =? DQ then '(t, r) ← scanstring s'; Ok (PStr t, r)
          else if c =? 123 then
            match skip_ws s' with
            | [] => Raise JSONDecodeError
            | c1 :: s2 =>
                if c1 =? 125 then Ok (PDict ∅, s2)
                else if c1 =? DQ then
                  '(d, r) ← object_items fuel' s2 ∅; Ok (PDict d, r)
                else Raise JSONDecodeError
            end
          else if c =? 91 then
            match skip_ws s' with
            | [] => Raise JSONDecodeError
            | c1 :: s2 =>
                if c1 =? 93 then Ok (PList [], s2)
                else '(xs, r) ← array_items fuel' (c1 :: s2); Ok (PList xs, r)
            end
          else scan_atom s
      end
  end
with array_items (fuel : nat) (s : list N) : result (list value * list N) :=
  match fuel with
  | O => Raise NotModelled
  | S fuel' =>
      '(v, r) ← scan_once fuel' s;
      match skip_ws r with
      | [] => Raise JSONDecodeError
      | c :: r' =>
          if c =? 93 then Ok ([v], r')
          else if c =? 44 then
            '(vs, r'') ← array_items fuel' (skip_ws r'); Ok (v :: vs, r'')
          else Raise JSONDecodeError
      end
  end
with object_items (fuel : nat) (s : list N) (acc : gmap (list N) value)
  : result (gmap (list N) value * list N) :=
  match fuel with
  | O => Raise NotModelled
  | S fuel' =>
      '(key, r) ← scanstring s;
      match skip_ws r with
      | [] => Raise JSONDecodeError
      | c :: r1 =>
          if c =? 58 then
            '(v, r2) ← scan_once fuel' (skip_ws r1);
            let acc' := <[key := v]> acc in
            match skip_ws r2 with
            | [] => Raise JSONDecodeError
            | c2 :: r3 =>
                if c2 =? 125 then Ok (acc', r3)
                else if c2 =? 44 then
                  match skip_ws r3 with
                  | [] => Raise JSONDecodeError
                  | c3 :: r4 =>
                      if c3 =? DQ then object_items fuel' r4 acc'
                      else Raise JSONDecodeError
                  end
                else Raise JSONDecodeError
            end
          else Raise JSONDecodeError
      end
  end.

(** [json.loads(s)] for a [str]. *)
Definition loads (s : list N) : result value :=
  if startswith s [65279] then Raise JSONDecodeError  (* byte order mark *)
  else
    '(v, r) ← scan_once (2 * length s + 1) (skip_ws s);
    match skip_ws r with
    | [] => Ok v
    | _ => Raise JSONDecodeError                      (* extra data *)
    end.

End Json.

Import Json.

(** ** [parse_assigned_json_array] *)

(** The pattern [^\s*NAME\s*=\s*(\[\s*.*\s*\])\s*;.*$] compiled with
    [re.DOTALL], where NAME is [re.escape(var_name)], which matches
    [var_name] itself. *)
Definition assigned_array_pattern (var_name : list N) : list item :=
  [Star isspace] ++ lit var_name
    ++ [Star isspace; Lit 61; Star isspace;
        GOpen; Lit 91; Star isspace; Star any; Star isspace; Lit 93; GClose;
        Star isspace; Lit 59; Star any; Eos].

(** [js_text.strip()[:200].replace("\n", "\\n")] *)
Definition snippet (js_text : list N) : list N :=
  replace1 NL [BACKSLASH; 110] (take 200 (strip js_text)).

Definition unexpected_format (var_name js_text : list N) : list N :=
  u "Unexpected " ++ var_name ++ u " format. Head: " ++ snippet js_text.

Definition parse_assigned_json_array (js_text var_name : list N)
  : result value :=
  match rmatch (assigned_array_pattern var_name) (strip js_text) with
  | None => Raise (ValueError (unexpected_format var_name js_text))
  | Some (g, _) => loads g
  end.

(** ** [build_package_to_module] *)

(** [entry.get(key)] *)
Definition get (entry : gmap (list N) value) (key : list N) : option value :=
  entry !! key.

(** The test of the loop body: both fields are non-empty strings. *)
Definition package_entry (entry : gmap (list N) value)
  : option (list N * list N) :=
  match get entry (u "m"), get entry (u "l") with
  | Some (PStr (c :: module)), Some (PStr (d :: package)) =>
      Some (d :: package, c :: module)
  | _, _ => None
  end.

Definition build_package_to_module (package_index : list (gmap (list N) value))
  : gmap (list N) (list N) :=
  foldl (fun mapping entry =>
           match package_entry entry with
           | Some (package, module) => <[package := module]> mapping
           | None => mapping
           end) ∅ package_index.

(** The elements of a decoded array as dictionaries; the script calls
    [.get] on each of them. *)
Fixpoint records (xs : list value) : result (list (gmap (list N) value)) :=
  match xs with
  | [] => Ok []
  | PDict d :: xs' => ds ← records xs'; Ok (d :: ds)
  | _ :: _ => Raise AttributeError
  end.

(** ** URLs ([urllib.parse]) *)

Module Url.

Definition uses_relative : list (list N) :=
  List.map u [""; "ftp"; "http"; "gopher"; "nntp"; "imap"; "wais"; "file";
              "https"; "shttp"; "mms"; "prospero"; "rtsp"; "rtspu"; "sftp";
              "svn"; "svn+ssh"; "ws"; "wss"]%string.

Definition uses_netloc : list (list N) :=
  List.map u [""; "ftp"; "http"; "gopher"; "nntp"; "telnet"; "imap"; "wais";
              "file"; "mms"; "https"; "shttp"; "snews"; "prospero"; "rtsp";
              "rtspu"; "rsync"; "svn"; "svn+ssh"; "sftp"; "nfs"; "git";
              "git+ssh"; "ws"; "wss"]%string.

Definition uses_params : list (list N) :=
  List.map u [""; "ftp"; "hdl"; "prospero"; "http"; "imap"; "https"; "shttp";
              "rtsp"; "rtspu"; "sip"; "sips"; "mms"; "sftp"; "tel"]%string.

Definition member (s : list N) (l : list (list N)) : bool :=
  existsb (Str.eqb s) l.

Definition scheme_char (c : N) : bool := isalnum c || mem c (u "+-.").

Definition c0_control_or_space (c : N) : bool := c <=? 32.

(** Tab, carriage return and line feed are taken out of a URL. *)
Definition remove_unsafe (s : list N) : list N :=
  List.filter (fun c => negb ((c =? 9) || (c =? 13) || (c =? 10))) s.

Definition lower (s : list N) : list N :=
  List.map (fun c => if isupper c then c + 32 else c) s.

(** [s.split(c, 1)] when [c] is in [s]. *)
Fixpoint partition (c : N) (s : list N) : option (list N * list N) :=
  match s with
  | [] => None
  | x :: s' =>
      if x =? c then Some ([], s')
      else '(a, b) ← partition c s'; Some (x :: a, b)
  end.

(** The longest prefix whose characters satisfy [f], and the rest. *)
Fixpoint span (f : N → bool) (s : list N) : list N * list N :=
  match s with
  | x :: s' =>
      if f x then let '(a, b) := span f s' in (x :: a, b) else ([], s)
  | [] => ([], [])
  end.

Record split_result := SplitResult {
  scheme : list N;
  netloc : list N;
  path : list N;
  query : list N;
  fragment : list N
}.

(** The scheme of [url], lower-cased, and what follows its colon. *)
Definition split_scheme (url : list N) : option (list N * list N) :=
  match url, partition 58 url with
  | c :: _, Some (c0 :: pre, rest) =>
      if (c <? 128) && isalpha c && forallb scheme_char (c0 :: pre)
      then Some (lower (c0 :: pre), rest)
      else None
  | _, _ => None
  end.

(** The checks of [urlsplit] on the network location.  Brackets that do
    not pair raise.  For a location with both brackets the library parses
    an IP literal, and for one that is not ASCII it compares the NFKC
    normal form: these two are left out of the model. *)
Definition check_netloc (n : list N) : result unit :=
  match mem 91 n, mem 93 n with
  | true, false | false, true => Raise InvalidURL
  | true, true => Raise NotModelled
  | false, false => if forallb (fun c => c <? 128) n then Ok () else Raise NotModelled
  end.

(** [urlsplit(url, scheme)] *)
Definition urlsplit (url default_scheme : list N) : result split_result :=
  let url := remove_unsafe (lstrip c0_control_or_space url) in
  let default_scheme :=
    remove_unsafe
      (rstrip c0_control_or_space (lstrip c0_control_or_space default_scheme)) in
  let '(sch, url) :=
    match split_scheme url with
    | Some (sc, rest) => (sc, rest)
    | None => (default_scheme, url)
    end in
  let '(net, url) :=
    match url with
    | 47 :: 47 :: rest => span (fun c => negb (mem c (u "/?#"))) rest
    | _ => ([], url)
    end in
  let '(url, frag) :=
    match partition 35 url with
    | Some (a, b) => (a, b)
    | None => (url, [])
    end in
  let '(url, qry) :=
    match partition 63 url with
    | Some (a, b) => (a, b)
    | None => (url, [])
    end in
  _ ← check_netloc net;
  Ok (SplitResult sch net url qry frag).

(** [urlunsplit] *)
Definition urlunsplit (r : split_result) : list N :=
  let url := path r in
  let url :=
    match netloc r with
    | _ :: _ =>
        u "//" ++ netloc r
          ++ (match url with [] => [] | 47 :: _ => url | _ => 47 :: url end)
    | [] =>
        if negb (Str.eqb (scheme r) []) && member (scheme r) uses_netloc
           && negb (startswith url (u "//"))
        then u "//"
          ++ (match url with [] => [] | 47 :: _ => url | _ => 47 :: url end)
        else url
    end in
  let url := match scheme r with [] => url | sc => sc ++ 58 :: url end in
  let url := match query r with [] => url | qr => url ++ 63 :: qr end in
  match fragment r with [] => url | fr => url ++ 35 :: fr end.

(** [_splitparams]: the parameters follow the first semicolon of the
    last path segment. *)
Definition splitparams (url : list N) : list N * list N :=
  let segs := split 47 url in
  match partition 59 (List.last segs []) with
  | Some (a, b) => (join 47 (removelast segs ++ [a]), b)
  | None => (url, [])
  end.

(** [urlparse]: the split result and the parameters. *)
Definition urlparse (url default_scheme : list N)
  : result (split_result * list N) :=
  r ← urlsplit url default_scheme;
  if member (scheme r) uses_params && mem 59 (path r) then
    let '(p, params) := splitparams (path r) in
    Ok (SplitResult (scheme r) (netloc r) p (query r) (fragment r), params)
  else Ok (r, []).

(** [urlunparse] *)
Definition urlunparse (r : split_result) (params : list N) : list N :=
  match params with
  | [] => urlunsplit r
  | _ =>
      urlunsplit (SplitResult (scheme r) (netloc r) (path r ++ 59 :: params)
                              (query r) (fragment r))
  end.

(** The loop of [urljoin] over the segments: dot segments are resolved
    on a stack. *)
Definition resolve (segments : list (list N)) : list (list N) :=
  foldl (fun resolved seg =>
           if Str.eqb seg (u "..") then removelast resolved
           else if Str.eqb seg (u ".") then resolved
           else resolved ++ [seg]) [] segments.

(** [segments[1:-1] = filter(None, segments[1:-1])] *)
Definition drop_empty_inner (segments : list (list N)) : list (list N) :=
  match segments with
  | first :: (_ :: _) as rest =>
      first :: List.filter (fun w => negb (Str.eqb w [])) (removelast rest)
        ++ [List.last rest []]
  | _ => segments
  end.

(** [urljoin(base, url)] *)
Definition urljoin (base url : list N) : result (list N) :=
  match base, url with
  | [], _ => Ok url
  | _, [] => Ok base
  | _, _ =>
      '(b, bparams) ← urlparse base [];
      '(r, params) ← urlparse url (scheme b);
      if negb (Str.eqb (scheme r) (scheme b))
         || negb (member (scheme r) uses_relative)
      then Ok url
      else if member (scheme r) uses_netloc
                && negb (Str.eqb (netloc r) [])
      then Ok (urlunparse r params)
      else
        let net := if member (scheme r) uses_netloc then netloc b else netloc r in
        match path r, params with
        | [], [] =>
            let qry := match query r with [] => query b | qr => qr end in
            Ok (urlunparse (SplitResult (scheme r) net (path b) qry (fragment r))
                           bparams)
        | _, _ =>
            let base_parts := split 47 (path b) in
            let base_parts :=
              match List.last base_parts [] with
              | [] => base_parts
              | _ => removelast base_parts
              end in
            let segments :=
              match path r with
              | 47 :: _ => split 47 (path r)
              | _ => drop_empty_inner (base_parts ++ split 47 (path r))
              end in
            let resolved := resolve segments in
            let resolved :=
              if Str.eqb (List.last segments []) (u ".")
                 || Str.eqb (List.last segments []) (u "..")
              then resolved ++ [[]] else resolved in
            let joined := match join 47 resolved with [] => [47] | j => j end in
            Ok (urlunparse (SplitResult (scheme r) net joined (query r)
                                        (fragment r)) params)
        end
  end.

(** UTF-8, strict: a surrogate cannot be encoded.  A [str] has no code
    point above 0x10FFFF. *)
Definition utf8 (c : N) : result (list N) :=
  if c <? 128 then Ok [c]
  else if c <? 2048 then Ok [192 + c / 64; 128 + c mod 64]
  else if c <? 65536 then
    if (55296 <=? c) && (c <=? 57343) then Raise UnicodeEncodeError
    else Ok [224 + c / 4096; 128 + (c / 64) mod 64; 128 + c mod 64]
  else Ok [240 + c / 262144; 128 + (c / 4096) mod 64;
           128 + (c / 64) mod 64; 128 + c mod 64].

Fixpoint encode_utf8 (s : list N) : result (list N) :=
  match s with
  | [] => Ok []
  | c :: s' => bs ← utf8 c; rest ← encode_utf8 s'; Ok (bs ++ rest)
  end.

Definition always_safe (b : N) : bool := isalnum b || mem b (u "_.-~").

Definition hexdigit (d : N) : N := if d <? 10 then 48 + d else 55 + d.

(** One byte of [quote_from_bytes]. *)
Definition quote_byte (safe : list N) (b : N) : list N :=
  if always_safe b || ((b <? 128) && mem b safe) then [b]
  else [37; hexdigit (b / 16); hexdigit (b mod 16)].

(** [quote(string, safe)] *)
Definition quote (s safe : list N) : result (list N) :=
  bs ← encode_utf8 s;
  Ok (List.flat_map (quote_byte safe) bs).

(** [quote_plus(string, safe)] *)
Definition quote_plus (s safe : list N) : result (list N) :=
  if mem 32 s then
    r ← quote s (safe ++ [32]); Ok (replace1 32 [43] r)
  else quote s safe.

End Url.

Import Url.

(** ** [package_path], [encode_url] *)

Definition package_path (package_name : list N) : list N :=
  replace1 46 [47] package_name.

Definition encode_url (url : list N) : result (list N) :=
  parsed ← urlsplit url [];
  encoded_path ← quote (path parsed) (u "/-._~");
  encoded_query ← quote_plus (query parsed) (u "=&");
  Ok (urlunsplit (SplitResult (scheme parsed) (netloc parsed) encoded_path
                              encoded_query (fragment parsed))).

(** ** [generate_seed_urls] *)

#[global] Instance str_le_dec : RelDecision Str.le.
Proof. intros a b. unfold Str.le. destruct (cmp a b); [left | left | right]; congruence. Defined.

(** [sorted(s)] for a set of strings. *)
Definition sorted (s : gset (list N)) : list (list N) :=
  merge_sort Str.le (elements s).

Definition root_pages : list (list N) :=
  List.map u ["index.html"; "overview-tree.html"; "preview-list.html";
              "new-list.html"; "deprecated-list.html"; "search.html";
              "help-doc.html"; "allpackages-index.html";
              "allclasses-index.html"; "allclasses.html";
              "constant-values.html"; "serialized-form.html";
              "external-specs.html"; "restricted-list.html";
              "search-tags.html"; "system-properties.html"]%string.

(** [urls.add(urllib.parse.urljoin(normalized_base, rel))] *)
Definition add_joined (base rel : list N) (urls : gset (list N))
  : result (gset (list N)) :=
  url ← urljoin base rel; Ok ({[url]} ∪ urls).

(** A [for] loop whose body may raise. *)
Fixpoint for_each {A S} (body : A → S → result S) (xs : list A) (st : S)
  : result S :=
  match xs with
  | [] => Ok st
  | x :: xs' => st' ← body x st; for_each body xs' st'
  end.

Definition package_step (base : list N) (item : list N * list N)
  (urls : gset (list N)) : result (gset (list N)) :=
  let '(package, module) := item in
  let package_dir := module ++ u "/" ++ package_path package in
  urls ← add_joined base (package_dir ++ u "/package-summary.html") urls;
  urls ← add_joined base (package_dir ++ u "/package-tree.html") urls;
  add_joined base (package_dir ++ u "/package-use.html") urls.

(** What the body of the loop over the type index does with one entry. *)
Inductive type_entry_kind :=
| Skipped                                     (* [continue], not counted *)
| MissingModule                               (* counted *)
| Typed (module package type_name : list N).

Definition classify (package_to_module : gmap (list N) (list N))
  (entry : gmap (list N) value) : type_entry_kind :=
  match get entry (u "p"), get entry (u "l") with
  | Some (PStr (c :: package)), Some (PStr (d :: type_name)) =>
      match package_to_module !! (c :: package) with
      | Some (m :: module) => Typed (m :: module) (c :: package) (d :: type_name)
      | _ => MissingModule
      end
  | _, _ => Skipped
  end.

(** The state of the loop over the type index: the URL set and
    [missing_modules]. *)
Definition type_step (base : list N)
  (package_to_module : gmap (list N) (list N)) (entry : value)
  (st : gset (list N) * nat) : result (gset (list N) * nat) :=
  let '(urls, missing_modules) := st in
  match entry with
  | PDict d =>
      match classify package_to_module d with
      | Skipped => Ok (urls, missing_modules)
      | MissingModule => Ok (urls, S missing_modules)
      | Typed module package type_name =>
          let type_file := type_name ++ u ".html" in
          let type_dir := module ++ u "/" ++ package_path package in
          urls ← add_joined base (type_dir ++ u "/" ++ type_file) urls;
          urls ← add_joined base (type_dir ++ u "/class-use/" ++ type_file) urls;
          Ok (urls, missing_modules)
      end
  | _ => Raise AttributeError
  end.

Definition normalize_base (base_url : list N) : list N :=
  if endswith base_url (u "/") then base_url else base_url ++ u "/".

(** The five loops of [generate_seed_urls] that fill the URL set. *)

Definition root_urls (base : list N) (urls : gset (list N))
  : result (gset (list N)) :=
  for_each (add_joined base) root_pages urls.

Definition index_urls (base index_1_html : list N) (urls : gset (list N))
  : result (gset (list N)) :=
  let index_files := {[ u "index-1.html" ]} ∪ parse_index_files index_1_html in
  for_each (fun idx => add_joined base (u "index-files/" ++ idx))
           (sorted index_files) urls.

Definition module_urls (base : list N)
  (package_to_module : gmap (list N) (list N)) (urls : gset (list N))
  : result (gset (list N)) :=
  let modules := sorted (list_to_set (snd <$> map_to_list package_to_module)) in
  for_each (fun module => add_joined base (module ++ u "/module-summary.html"))
           modules urls.

Definition package_urls (base : list N)
  (package_to_module : gmap (list N) (list N)) (urls : gset (list N))
  : result (gset (list N)) :=
  for_each (package_step base) (map_to_list package_to_module) urls.

Definition type_urls (base : list N)
  (package_to_module : gmap (list N) (list N)) (type_index : list value)
  (urls : gset (list N)) : result (gset (list N) * nat) :=
  for_each (type_step base package_to_module) type_index (urls, O).

(** The URL set of [generate_seed_urls] before it is sorted, and the
    counter, from the decoded indexes and the letter-index page. *)
Definition seed_url_set (normalized_base : list N)
  (package_to_module : gmap (list N) (list N)) (type_index : list value)
  (index_1_html : list N) : result (gset (list N) * nat) :=
  urls ← root_urls normalized_base ∅;
  urls ← index_urls normalized_base index_1_html urls;
  urls ← module_urls normalized_base package_to_module urls;
  urls ← package_urls normalized_base package_to_module urls;
  type_urls normalized_base package_to_module type_index urls.

(** [[encode_url(u) for u in sorted(urls)]] *)
Fixpoint encode_all (urls : list (list N)) : result (list (list N)) :=
  match urls with
  | [] => Ok []
  | x :: xs => e ← encode_url x; es ← encode_all xs; Ok (e :: es)
  end.

(** A decoded index as the list the loops run over. *)
Definition as_list (v : value) : result (list value) :=
  match v with
  | PList xs => Ok xs
  | _ => Raise NotModelled      (* not reached: the text decoded begins with a bracket *)
  end.

(** The second half of [generate_seed_urls]: what it does with the two
    decoded indexes and the letter-index page.  Returns the encoded URLs
    and [missing_modules], the number in the warning. *)
Definition derive_seed_urls (normalized_base : list N)
  (package_index type_index : list value) (index_1_html : list N)
  : result (list (list N) * nat) :=
  package_entries ← records package_index;
  let package_to_module := build_package_to_module package_entries in
  '(urls, missing_modules) ←
    seed_url_set normalized_base package_to_module type_index index_1_html;
  encoded ← encode_all (sorted urls);
  Ok (encoded, missing_modules).

(** [generate_seed_urls], from the three texts fetched. *)
Definition generate_seed_urls (base_url package_js type_js index_1_html : list N)
  : result (list (list N) * nat) :=
  let normalized_base := normalize_base base_url in
  package_index ←
    (parse_assigned_json_array package_js (u "packageSearchIndex") ≫= as_list);
  type_index ←
    (parse_assigned_json_array type_js (u "typeSearchIndex") ≫= as_list);
  derive_seed_urls normalized_base package_index type_index index_1_html.

(** The text [main] writes: every URL followed by a line feed. *)
Definition output_text (urls : list (list N)) : list N :=
  List.flat_map (fun url => url ++ [NL]) urls.

(** ** [JavadocIndexUrls] *)

Module JavadocIndexUrls.

Record t := Build { base_url : list N }.

Definition package_index (self : t) : result (list N) :=
  urljoin (base_url self) (u "package-search-index.js").

Definition type_index (self : t) : result (list N) :=
  urljoin (base_url self) (u "type-search-index.js").

Definition index_file_1 (self : t) : result (list N) :=
  urljoin (base_url self) (u "index-files/index-1.html").

End JavadocIndexUrls.

(** ** [url_join] *)

(** [s.strip(chars)] *)
Definition strip_chars (chars s : list N) : list N :=
  rstrip (fun c => mem c chars) (lstrip (fun c => mem c chars) s).

(** The parts are the positional arguments; [None] stands for itself. *)
Definition url_join (base_url : list N) (parts : list (option (list N)))
  : result (list N) :=
  let path := join 47 (List.map (strip_chars (u "/")) (omap id parts)) in
  urljoin base_url (path ++ (if endswith path (u ".html") then [] else [])).

(** ** [recover_cache.py] *)

Module RecoverCache.

(** [b'\xac\xed\x00\x05'], the header of a Java serialization stream. *)
Definition magic : list N := [172; 237; 0; 5].

(** [data.find(sub, start)] on the bytes from [start] on, which begin at
    index [i]; [None] is [-1]. *)
Fixpoint find_in (sub s : list N) (i : nat) : option nat :=
  if startswith s sub then Some i
  else match s with
       | [] => None
       | _ :: s' => find_in sub s' (S i)
       end.

Definition find (data sub : list N) (start : nat) : option nat :=
  if (start <=? length data)%nat then find_in sub (drop start data) start
  else None.

(** The [while] loop that collects the object boundaries; every round
    moves [pos] forward, so [length data] rounds are enough. *)
Fixpoint find_objects (fuel : nat) (data : list N) (pos : nat)
  (objects : list nat) : list nat :=
  match fuel with
  | O => objects
  | S fuel' =>
      if (pos <? length data)%nat then
        match find data magic pos with
        | None => objects
        | Some idx => find_objects fuel' data (idx + 1) (objects ++ [idx])
        end
      else objects
  end.

(** The [for] loop over [range(len(objects) - 1, -1, -1)], with [k] the
    number of indexes still to visit: the data the function writes to
    the truncated file, or [None] when it writes nothing.  The writes
    are taken to succeed, so that nothing in the [try] block raises. *)
Fixpoint last_complete (data : list N) (objects : list nat) (k : nat)
  : option (list N) :=
  match k with
  | O => None
  | S i =>
      let obj_start := nth i objects O in
      if (obj_start + 100 <? length data)%nat then
        if (i <? length objects - 1)%nat
        then Some (take (nth (i + 1) objects O) data)
        else None
      else last_complete data objects i
  end.

(** [analyze_java_serialized_data] on the bytes of the raw file: the
    bytes of the truncated file, which the function then compresses, or
    [None] where the function returns [None]. *)
Definition analyze_java_serialized_data (data : list N) : option (list N) :=
  let objects := find_objects (length data) data 0 [] in
  match objects with
  | [] => None
  | _ => last_complete data objects (length objects)
  end.

End RecoverCache.

(** * Vocabulary of the properties *)

(** ** Patterns *)

(** What a pattern matches, without the order in which the matcher tries
    the alternatives. *)
Inductive Matches : list item → list N → caps → caps → list N → Prop :=
| M_nil s c : Matches [] s c c s
| M_lit a p s c c' r :
    Matches p s c c' r → Matches (Lit a :: p) (a :: s) c c' r
| M_cls f x p s c c' r :
    f x = true → Matches p s c c' r → Matches (Cls f :: p) (x :: s) c c' r
| M_star f w p s c c' r :
    forallb f w = true → Matches p s c c' r →
    Matches (Star f :: p) (w ++ s) c c' r
| M_open p s c c' r :
    Matches p s (Caps s (g_close c)) c' r → Matches (GOpen :: p) s c c' r
| M_close p s c c' r :
    Matches p s (Caps (g_open c) s) c' r → Matches (GClose :: p) s c c' r
| M_eos p s c c' r :
    s = [] ∨ s = [NL] → Matches p s c c' r → Matches (Eos :: p) s c c' r.

Definition all_space (w : list N) : Prop := forallb isspace w = true.

(** The text is [NAME = [ body ] ; rest], white space allowed at the
    four places where the pattern has [\s*]. *)
Definition assigned_as (var_name t body rest : list N) : Prop :=
  ∃ w1 w2 w3 w4,
    t = w1 ++ var_name ++ w2 ++ 61 :: w3 ++ 91 :: body ++ 93 :: w4 ++ 59 :: rest
    ∧ all_space w1 ∧ all_space w2 ∧ all_space w3 ∧ all_space w4.

Definition assigned_shape (var_name t : list N) : Prop :=
  ∃ body rest, assigned_as var_name t body rest.

(** No closing bracket followed by white space and a semicolon. *)
Definition no_later_close (rest : list N) : Prop :=
  ∀ x w y, all_space w → rest ≠ x ++ 93 :: w ++ 59 :: y.

(** ** Decoding *)

(** A decoding step either fails with a decode error or leaves a
    shorter text. *)
Definition progress {A} (s : list N) (x : result (A * list N)) : Prop :=
  match x with
  | Ok (_, r) => (length r < length s)%nat
  | Raise e => e = JSONDecodeError
  end.

(** ** Records of the two indexes *)

(** The field [key] of a record when it is a string and not empty. *)
Definition str_field (entry : gmap (list N) value) (key : list N)
  : option (list N) :=
  match entry !! key with
  | Some (PStr (c :: s)) => Some (c :: s)
  | _ => None
  end.

(** The field is absent, is no string, or is the empty string. *)
Definition invalid_field (entry : gmap (list N) value) (key : list N) : Prop :=
  match entry !! key with
  | Some (PStr (_ :: _)) => False
  | _ => True
  end.

(** The specification's reading of the mapping: the module of the last
    record of the index that names [package], among the records with
    both fields. *)
Definition last_module (package_index : list (gmap (list N) value))
  (package : list N) : option (list N) :=
  last (omap (fun entry =>
                match str_field entry (u "m"), str_field entry (u "l") with
                | Some m, Some p => if decide (p = package) then Some m else None
                | _, _ => None
                end) package_index).

(** The body of the loop of [build_package_to_module]. *)
Definition build_step (mapping : gmap (list N) (list N))
  (entry : gmap (list N) value) : gmap (list N) (list N) :=
  match package_entry entry with
  | Some (package, module) => <[package := module]> mapping
  | None => mapping
  end.

Definition no_empty_module (mapping : gmap (list N) (list N)) : Prop :=
  ∀ p, mapping !! p ≠ Some [].

(** A type-index record whose package is a non-empty string that the
    mapping does not have. *)
Definition package_absent (mapping : gmap (list N) (list N)) (entry : value)
  : bool :=
  match entry with
  | PDict d =>
      match str_field d (u "p") with
      | Some p => bool_decide (mapping !! p = None)
      | None => false
      end
  | _ => false
  end.

(** Such a record that also has a type name: a non-empty string. *)
Definition absent_with_type_name (mapping : gmap (list N) (list N))
  (entry : value) : bool :=
  match entry with
  | PDict d =>
      match str_field d (u "l") with
      | Some _ => package_absent mapping entry
      | None => false
      end
  | _ => false
  end.

(** ** Absolute URLs *)

(** The unreserved characters of RFC 3986. *)
Definition unreserved (c : N) : bool := isalnum c || mem c (u "-._~").

(** A character of a path that needs no encoding. *)
Definition path_char (c : N) : bool := unreserved c || (c =? 47).

(** A character of a scheme written in lower case. *)
Definition scheme_low (x : N) : bool :=
  islower x || isdigit x || mem x (u "+-.").

(** A scheme in lower case: a letter, then letters, digits, plus, minus
    and dot. *)
Definition lower_scheme (s : list N) : bool :=
  match s with
  | c :: _ => islower c && forallb scheme_low s
  | [] => false
  end.

(** A character [urlsplit] does not take out of a URL. *)
Definition kept (c : N) : bool := negb ((c =? 9) || (c =? 13) || (c =? 10)).

(** A character of a plain network location: ASCII, none of the
    delimiters of the path, query and fragment, no bracket and none of
    the characters [urlsplit] removes. *)
Definition netloc_char (c : N) : bool :=
  (c <? 128) && negb (mem c (u "/?#[]")) && kept c.

(** ** Examples *)

(** The value of a run that returned. *)
Definition ok_or {A} (default : A) (r : result A) : A :=
  match r with
  | Ok a => a
  | Raise _ => default
  end.

Definition base_example : list N := u "https://example.com/docs/api/".

(** The embedded text of the specification. *)
Definition package_js_example : list N :=
  u "packageSearchIndex = [{" ++ q (u "m") ++ u ":" ++ q (u "java.base")
    ++ u "," ++ q (u "l") ++ u ":" ++ q (u "java.lang")
    ++ u "}];updateSearchResults();".

(** What it decodes to. *)
Definition package_index_example : list value :=
  [PDict (<[u "l" := PStr (u "java.lang")]>
            (<[u "m" := PStr (u "java.base")]> ∅))].

Definition entries_example : list (gmap (list N) value) :=
  ok_or [] (records package_index_example).

(** Two classes of [java.lang], the second with a name that is not
    ASCII, and one class of a package the package index does not list. *)
Definition type_js_example : list N :=
  u "typeSearchIndex = [{" ++ q (u "p") ++ u ":" ++ q (u "java.lang")
    ++ u "," ++ q (u "l") ++ u ":" ++ q (u "Zoo") ++ u "},{"
    ++ q (u "p") ++ u ":" ++ q (u "java.lang")
    ++ u "," ++ q (u "l") ++ u ":" ++ q ([201] ++ u "t" ++ [233]) ++ u "},{"
    ++ q (u "p") ++ u ":" ++ q (u "java.util")
    ++ u "," ++ q (u "l") ++ u ":" ++ q (u "List")
    ++ u "}];updateSearchResults();".

(** A whole run on these texts and a page without links. *)
Definition example_run : result (list (list N) * nat) :=
  Eval vm_compute in
    generate_seed_urls (u "https://example.com/docs/api") package_js_example
                       type_js_example (u "<html></html>").

Definition example_out : list (list N) := fst (ok_or ([], O) example_run).
Definition example_missing : nat := snd (ok_or ([], O) example_run).

(** The derivation from the decoded package index and a type index. *)
Definition derive_example (type_index : list value)
  : result (list (list N) * nat) :=
  derive_seed_urls base_example package_index_example type_index (u "").

Definition derive_out (type_index : list value) : list (list N) :=
  fst (ok_or ([], O) (derive_example type_index)).

(** Two records of a package the mapping does not have, one with a type
    name and one whose type name is empty. *)
Definition no_such_typed : value :=
  PDict (<[u "l" := PStr (u "Widget")]> (<[u "p" := PStr (u "no.such")]> ∅)).

Definition no_such_untyped : value :=
  PDict (<[u "l" := PStr []]> (<[u "p" := PStr (u "no.such")]> ∅)).

(** ** Plain URLs *)

(** A path segment of unreserved characters that is no dot segment. *)
Definition plain_segment (w : list N) : bool :=
  negb (Str.eqb w []) && forallb unreserved w
  && negb (Str.eqb w (u ".")) && negb (Str.eqb w (u "..")).

(** The path of a directory: a slash, then every name followed by a
    slash. *)
Definition dir_path (dirs : list (list N)) : list N :=
  47 :: List.concat (List.map (fun d => d ++ [47]) dirs).

(** A base URL of a directory. *)
Definition dir_url (sch net : list N) (dirs : list (list N)) : list N :=
  sch ++ u "://" ++ net ++ dir_path dirs.

(** ** The relative paths of a run *)

(** The three pages of a package. *)
Definition package_rels (item : list N * list N) : list (list N) :=
  let '(package, module) := item in
  let package_dir := module ++ u "/" ++ package_path package in
  [package_dir ++ u "/package-summary.html";
   package_dir ++ u "/package-tree.html";
   package_dir ++ u "/package-use.html"].

(** The two pages of a type whose package the mapping has; nothing for
    any other record. *)
Definition type_rels (mapping : gmap (list N) (list N)) (entry : value)
  : list (list N) :=
  match entry with
  | PDict d =>
      match str_field d (u "p"), str_field d (u "l") with
      | Some package, Some type_name =>
          match mapping !! package with
          | Some module =>
              let type_dir := module ++ u "/" ++ package_path package in
              [type_dir ++ u "/" ++ type_name ++ u ".html";
               type_dir ++ u "/class-use/" ++ type_name ++ u ".html"]
          | None => []
          end
      | _, _ => []
      end
  | _ => []
  end.

(** Every relative path a run joins to the base. *)
Definition seed_rels (mapping : gmap (list N) (list N))
  (type_index : list value) (index_1_html : list N) : list (list N) :=
  root_pages
  ++ List.map (fun idx => u "index-files/" ++ idx)
       (sorted ({[ u "index-1.html" ]} ∪ parse_index_files index_1_html))
  ++ List.map (fun module => module ++ u "/module-summary.html")
       (sorted (list_to_set (snd <$> map_to_list mapping)))
  ++ List.flat_map package_rels (map_to_list mapping)
  ++ List.flat_map (type_rels mapping) type_index.

(** [isinstance(entry, dict)]: the values on which [.get] does not
    raise. *)
Definition is_dict (entry : value) : bool :=
  match entry with
  | PDict _ => true
  | _ => false
  end.

(** What one record of the type index adds, whatever the state. *)
Definition type_effect (base : list N) (mapping : gmap (list N) (list N))
  (entry : value) : result (gset (list N) * nat) :=
  type_step base mapping entry (∅, O).

(** A name of dot-separated identifiers, as a package has it. *)
Definition plain_ident (w : list N) : bool :=
  plain_segment w && forallb (fun x => negb (x =? 46)) w.

(** A record of the class [String] of [java.lang]. *)
Definition string_fields : gmap (list N) value :=
  <[u "l" := PStr (u "String")]> (<[u "p" := PStr (u "java.lang")]> ∅).

(** A relative path whose segments are all plain. *)
Definition plain_rel (rel : list N) : bool :=
  forallb plain_segment (split 47 rel).

(** ** Percent-encoding of an ASCII path *)

(** An ASCII character that [urlsplit] leaves in the path: no tab,
    carriage return or line feed, no question mark and no hash. *)
Definition ascii_path_char (c : N) : bool :=
  (c <? 128) && kept c && negb (c =? 35) && negb (c =? 63).

(** A character of a path as [encode_url] writes it: itself when it is
    unreserved or a slash, otherwise a percent sign and two hexadecimal
    digits. *)
Definition percent_encoded (c : N) : list N :=
  if path_char c then [c] else [37; hexdigit (c / 16); hexdigit (c mod 16)].

(** An ASCII character that [urlsplit] leaves in the query: no tab,
    carriage return or line feed and no hash. *)
Definition ascii_query_char (c : N) : bool :=
  (c <? 128) && kept c && negb (c =? 35).

(** A character of a query as [encode_url] writes it: a plus sign for a
    space, itself when it is unreserved, an equals sign or an ampersand,
    otherwise a percent sign and two hexadecimal digits. *)
Definition query_encoded (c : N) : list N :=
  if c =? 32 then [43]
  else if unreserved c || mem c (u "=&") then [c]
  else [37; hexdigit (c / 16); hexdigit (c mod 16)].

(** ** Separators and line breaks *)

(** The character [c] does not occur in [w]. *)
Definition free_of (c : N) (w : list N) : bool :=
  forallb (fun x => negb (x =? c)) w.

(** No tab, carriage return or line feed in [s]. *)
Definition all_kept (s : list N) : Prop := forallb kept s = true.

(** ** Object boundaries *)

(** An object boundary: the header stands at index [i]. *)
Definition header_at (data : list N) (i : nat) : Prop :=
  startswith (drop i data) RecoverCache.magic = true.

(** A stream of two objects, the second cut short after its header. *)
Definition cut_stream : list N :=
  RecoverCache.magic ++ repeat 0 100 ++ RecoverCache.magic ++ [115; 114].

(** * Properties *)

#[local] Set Warnings "-clear-no-such-hyp".

(** ** The error monad *)

Lemma bind_Ok {A B} (x : result A) (f : A → result B) b :
  x ≫= f = Ok b → ∃ a, x = Ok a ∧ f a = Ok b.
Proof. destruct x as [a|e]; simpl; [eauto | done]. Qed.

(** ** The matcher

    [run] finds a match exactly when [Matches] has one, and a greedy
    repetition stops at the longest run that lets the rest match. *)

Lemma star_sound {R} f (k : list N → option R) s r :
  star f k s = Some r →
  ∃ w s', s = w ++ s' ∧ forallb f w = true ∧ k s' = Some r.
Proof.
  induction s as [|x s IH]; simpl; intros H.
  - exists [], []. auto.
  - destruct (f x) eqn:Hf.
    + destruct (star f k s) as [r'|] eqn:Hs.
      * inversion H; subst. destruct (IH eq_refl) as (w & s' & -> & Hw & Hk).
        exists (x :: w), s'. simpl. rewrite Hf, Hw. auto.
      * exists [], (x :: s). auto.
    + exists [], (x :: s). auto.
Qed.

Lemma star_complete {R} f (k : list N → option R) w s :
  forallb f w = true → is_Some (k s) → is_Some (star f k (w ++ s)).
Proof.
  induction w as [|x w IH]; simpl; intros Hw Hk.
  - destruct s as [|y s]; simpl; [done|].
    destruct (f y); [|done]. destruct (star f k s); [eauto | done].
  - apply andb_prop in Hw as [Hx Hw]. rewrite Hx.
    destruct (IH Hw Hk) as [r Hr]. rewrite Hr. eauto.
Qed.

(** A greedy repetition settles on the longest run after which the rest
    of the pattern matches. *)
Lemma star_longest {R} f (k : list N → option R) s r :
  star f k s = Some r →
  ∃ w s', s = w ++ s' ∧ forallb f w = true ∧ k s' = Some r
    ∧ ∀ w2 s2, s = w2 ++ s2 → forallb f w2 = true →
        (length w < length w2)%nat → k s2 = None.
Proof.
  induction s as [|x s IH]; simpl; intros H.
  - exists [], []. repeat split; auto.
    intros w2 s2 E _ Hl. destruct w2; simpl in *; [lia | discriminate].
  - destruct (f x) eqn:Hf.
    + destruct (star f k s) as [r'|] eqn:Hs.
      * inversion H; subst.
        destruct (IH eq_refl) as (w & s' & -> & Hw & Hk & Hmax).
        exists (x :: w), s'. simpl. rewrite Hf, Hw. repeat split; auto.
        intros w2 s2 E Hw2 Hl. destruct w2 as [|y w2]; simpl in *; [lia|].
        inversion E; subst. apply andb_prop in Hw2 as [_ Hw2].
        apply (Hmax w2 s2); auto. lia.
      * exists [], (x :: s). repeat split; auto.
        intros w2 s2 E Hw2 Hl. destruct w2 as [|y w2]; simpl in *; [lia|].
        inversion E; subst. apply andb_prop in Hw2 as [_ Hw2].
        destruct (k s2) eqn:Hk; [|done].
        assert (is_Some (star f k (w2 ++ s2))) as [? Hc]
          by (apply star_complete; eauto).
        congruence.
    + exists [], (x :: s). repeat split; auto.
      intros w2 s2 E Hw2 Hl. destruct w2 as [|y w2]; simpl in *; [lia|].
      inversion E; subst. apply andb_prop in Hw2 as [Hy _]. congruence.
Qed.

Lemma run_sound p : ∀ s c c' r,
  run p s c = Some (c', r) → Matches p s c c' r.
Proof.
  induction p as [|i p IH]; intros s c c' r H; simpl in H.
  - inversion H; subst. constructor.
  - destruct i.
    + destruct s as [|x s]; [done|]. destruct (x =? c0) eqn:E; [|done].
      apply N.eqb_eq in E as ->. constructor. auto.
    + destruct s as [|x s]; [done|]. destruct (f x) eqn:E; [|done].
      constructor; auto.
    + apply star_sound in H as (w & s' & -> & Hw & Hk).
      constructor; auto.
    + constructor. auto.
    + constructor. auto.
    + destruct s as [|x [|y s]]; [ | |done].
      * constructor; auto.
      * destruct (x =? NL) eqn:E; [|done]. apply N.eqb_eq in E as ->.
        constructor; auto.
Qed.

Lemma run_complete p s c c' r :
  Matches p s c c' r → is_Some (run p s c).
Proof.
  induction 1; simpl; eauto.
  - rewrite N.eqb_refl. done.
  - rewrite H. done.
  - apply star_complete; auto.
  - destruct H as [-> | ->]; simpl; auto.
Qed.

Lemma run_lit_inv a p s c x :
  run (Lit a :: p) s c = Some x → ∃ s', s = a :: s' ∧ run p s' c = Some x.
Proof.
  simpl. destruct s as [|y s]; [done|]. destruct (y =? a) eqn:E; [|done].
  apply N.eqb_eq in E as ->. eauto.
Qed.

Lemma run_lits_inv v : ∀ p s c x,
  run (lit v ++ p) s c = Some x → ∃ s', s = v ++ s' ∧ run p s' c = Some x.
Proof.
  induction v as [|a v IH]; intros p s c x H.
  - exists s. auto.
  - change (lit (a :: v) ++ p) with (Lit a :: (lit v ++ p)) in H.
    apply run_lit_inv in H as (s' & -> & H).
    apply IH in H as (s'' & -> & H). eauto.
Qed.

Lemma run_star_inv f p s c x :
  run (Star f :: p) s c = Some x →
  ∃ w s', s = w ++ s' ∧ forallb f w = true ∧ run p s' c = Some x
    ∧ ∀ w2 s2, s = w2 ++ s2 → forallb f w2 = true →
        (length w < length w2)%nat → run p s2 c = None.
Proof. simpl. apply star_longest. Qed.

Lemma run_open p s c : run (GOpen :: p) s c = run p s (Caps s (g_close c)).
Proof. reflexivity. Qed.

Lemma run_close p s c : run (GClose :: p) s c = run p s (Caps (g_open c) s).
Proof. reflexivity. Qed.

Lemma Matches_lit v : ∀ p s c c' r,
  Matches (lit v ++ p) s c c' r ↔ ∃ s', s = v ++ s' ∧ Matches p s' c c' r.
Proof.
  induction v as [|a v IH]; intros; simpl.
  - split; [eauto | intros (s' & -> & H); done].
  - split.
    + inversion 1; subst. apply IH in H6 as (s' & -> & H'). eauto.
    + intros (s' & -> & H). constructor. apply IH. eauto.
Qed.

Lemma Matches_lit_inv a p s c c' r :
  Matches (Lit a :: p) s c c' r → ∃ s', s = a :: s' ∧ Matches p s' c c' r.
Proof. inversion 1; subst; eauto. Qed.

Lemma Matches_cls_inv f p s c c' r :
  Matches (Cls f :: p) s c c' r →
  ∃ x s', s = x :: s' ∧ f x = true ∧ Matches p s' c c' r.
Proof. inversion 1; subst; eauto. Qed.

Lemma Matches_star_inv f p s c c' r :
  Matches (Star f :: p) s c c' r →
  ∃ w s', s = w ++ s' ∧ forallb f w = true ∧ Matches p s' c c' r.
Proof. inversion 1; subst; eauto. Qed.

Lemma Matches_open_inv p s c c' r :
  Matches (GOpen :: p) s c c' r → Matches p s (Caps s (g_close c)) c' r.
Proof. inversion 1; subst; eauto. Qed.

Lemma Matches_close_inv p s c c' r :
  Matches (GClose :: p) s c c' r → Matches p s (Caps (g_open c) s) c' r.
Proof. inversion 1; subst; eauto. Qed.

Lemma Matches_caps p s c c' r :
  Matches p s c c' r → ¬ In GOpen p → ¬ In GClose p → c' = c.
Proof.
  induction 1; simpl; intros Ho Hc; auto; try (apply IHMatches; tauto); tauto.
Qed.

Lemma forallb_any w : forallb any w = true.
Proof. induction w; simpl; auto. Qed.

Lemma Matches_to_end rest c : Matches [Star any; Eos] rest c c [].
Proof.
  pose proof (M_star any rest [Eos] [] c c [] (forallb_any rest)) as H.
  rewrite app_nil_r in H. apply H. apply M_eos; [auto|]. apply M_nil.
Qed.

(** ** [parse_index_files] *)

Lemma findall_from_sound p s : ∀ skip g,
  g ∈ findall_from p s skip →
  ∃ s' c r, run p s' no_caps = Some (c, r) ∧ g = group1 c.
Proof.
  induction s as [|x s IH]; intros skip g H; simpl in H.
  - by apply elem_of_nil in H.
  - destruct skip as [|k]; [|eauto].
    destruct (rmatch p (x :: s)) as [[g' r]|] eqn:E; [|eauto].
    apply elem_of_cons in H as [-> | H]; [|eauto].
    unfold rmatch in E.
    destruct (run p (x :: s) no_caps) as [[c r']|] eqn:Er; [|done].
    inversion E; subst. eauto.
Qed.

Lemma Matches_index_href t c c' r :
  Matches index_href_pattern t c c' r →
  ∃ ds x, ds ≠ [] ∧ forallb isdigit ds = true
    ∧ group1 c' = u "index-" ++ ds ++ BACKSLASH :: x :: u "html".
Proof.
  unfold index_href_pattern. intros H.
  apply Matches_lit in H as (s1 & -> & H).
  change ([Lit DQ; GOpen] ++ lit (u "index-") ++ ?p)
    with (Lit DQ :: GOpen :: (lit (u "index-") ++ p)) in H.
  apply Matches_lit_inv in H as (s2 & -> & H).
  apply Matches_open_inv in H.
  apply Matches_lit in H as (s3 & -> & H).
  cbn [app] in H.
  apply Matches_cls_inv in H as (d & s4 & -> & Hd & H).
  apply Matches_star_inv in H as (ds & s5 & -> & Hds & H).
  apply Matches_lit_inv in H as (s6 & -> & H).
  apply Matches_cls_inv in H as (x & s7 & -> & Hx & H).
  apply Matches_lit in H as (s8 & -> & H).
  apply Matches_close_inv in H.
  apply Matches_caps in H; [| simpl; intuition discriminate ..].
  subst c'. exists (d :: ds), x. split; [done|].
  split; [simpl; by rewrite Hd, Hds|].
  unfold group1. cbn [g_open g_close].
  set (g := u "index-" ++ (d :: ds) ++ BACKSLASH :: x :: u "html").
  replace (u "index-" ++ d :: ds ++ BACKSLASH :: x :: u "html" ++ s8)
    with (g ++ s8).
  - rewrite length_app, Nat.add_sub. apply take_app_length.
  - unfold g. rewrite <- !app_assoc. cbn [app]. reflexivity.
Qed.

Lemma endswith_app_dot ds x :
  endswith (u "index-" ++ ds ++ BACKSLASH :: x :: u "html") (u ".html") = true →
  x = 46.
Proof.
  unfold endswith.
  replace (u "index-" ++ ds ++ BACKSLASH :: x :: u "html")
    with ((u "index-" ++ ds ++ [BACKSLASH]) ++ x :: u "html")
    by (rewrite <- !app_assoc; reflexivity).
  rewrite rev_app_distr. change (rev (x :: u "html")) with (rev (u "html") ++ [x]).
  change (rev (u ".html")) with (rev (u "html") ++ [46]).
  change (rev (u "html")) with [108; 109; 116; 104].
  cbn [app startswith]. change (108 =? 108) with true.
  change (109 =? 109) with true. change (116 =? 116) with true.
  change (104 =? 104) with true. cbn [andb].
  intros H. apply andb_prop in H as [H _]. by apply N.eqb_eq in H.
Qed.

(** Every name [parse_index_files] returns has a backslash before the
    dot. *)
Lemma parse_index_files_backslash index_1_html m :
  m ∈ parse_index_files index_1_html →
  ∃ ds, ds ≠ [] ∧ forallb isdigit ds = true
    ∧ m = u "index-" ++ ds ++ BACKSLASH :: u ".html".
Proof.
  unfold parse_index_files. intros H.
  apply elem_of_filter in H as [Hf H].
  apply elem_of_list_to_set in H.
  apply findall_from_sound in H as (s' & c & r & Hrun & ->).
  apply run_sound, Matches_index_href in Hrun as (ds & x & Hne & Hds & Hg).
  rewrite Hg in *. apply andb_prop in Hf as [_ He].
  apply endswith_app_dot in He as ->. eauto.
Qed.

(** C1, the code at the failing input: a page with the link
    [href="index-2.html"] gives the empty set, a link is found only when
    a backslash stands before the dot, and no page at all gives the name
    [index-2.html]. *)
Theorem parse_index_files_misses_plain_link :
  parse_index_files (u "<a href=" ++ q (u "index-2.html") ++ u ">B</a>") = ∅
  ∧ parse_index_files (u "<a href=" ++ q (u "index-2\.html") ++ u ">B</a>")
    = {[ u "index-2\.html" ]}
  ∧ ∀ index_1_html, u "index-2.html" ∉ parse_index_files index_1_html.
Proof.
  split; [vm_compute; reflexivity|]. split; [vm_compute; reflexivity|].
  intros html H. apply parse_index_files_backslash in H as (ds & _ & _ & E).
  assert (In BACKSLASH (u "index-2.html")) as Hin.
  { rewrite E. apply in_or_app. right. apply in_or_app. right. left. done. }
  vm_compute in Hin. intuition discriminate.
Qed.

(** ** The JSON decoder

    The decoder always comes to an end within its fuel: it returns a
    value or raises its decode error. *)

Lemma progress_bind {A B} s s' (x : result (A * list N))
    (f : A * list N → result (B * list N)) :
  progress s' x → (length s' ≤ length s)%nat →
  (∀ a r, (length r < length s')%nat → progress s (f (a, r))) →
  progress s (x ≫= f).
Proof.
  destruct x as [[a r]|e]; simpl; intros H Hl Hf; [apply Hf; lia | done].
Qed.

Lemma lstrip_length f s : (length (lstrip f s) ≤ length s)%nat.
Proof. induction s as [|x s IH]; simpl; [lia|]. destruct (f x); simpl; lia. Qed.

Lemma skip_ws_length s : (length (skip_ws s) ≤ length s)%nat.
Proof. apply lstrip_length. Qed.

Lemma scanstring_progress s : progress s (scanstring s).
Proof.
  induction s as [s IH] using (induction_ltof1 _ (@length N)).
  unfold ltof in IH.
  assert (Hrec : ∀ (x : N) s', (length s' < length s)%nat →
            progress s ('(t, r) ← scanstring s'; Ok (x :: t, r))).
  { intros x s' Hl. eapply progress_bind; [apply IH; lia | lia |].
    intros a r Hr. simpl. lia. }
  destruct s as [|c rest]; [reflexivity|]. simpl scanstring.
  destruct (c =? DQ); [simpl; lia|].
  destruct (c =? BACKSLASH).
  - destruct rest as [|e rest1]; [reflexivity|].
    destruct (e =? 117).
    + destruct rest1 as [|h1 [|h2 [|h3 [|h4 rest2]]]]; try reflexivity.
      destruct (hex4 h1 h2 h3 h4) as [uni|]; [|reflexivity].
      destruct (is_high_surrogate uni && startswith rest2 [BACKSLASH; 117]).
      * destruct rest2 as [|b1 [|b2 [|l1 [|l2 [|l3 [|l4 rest3]]]]]];
          try reflexivity.
        destruct (hex4 l1 l2 l3 l4) as [uni2|]; [|reflexivity].
        destruct (is_low_surrogate uni2); apply Hrec; simpl; lia.
      * apply Hrec; simpl; lia.
    + destruct (unescape e); [|reflexivity]. apply Hrec; simpl; lia.
  - destruct (c <? 32); [reflexivity|]. apply Hrec; simpl; lia.
Qed.

Lemma span_digits_length s :
  (length (snd (span_digits s)) ≤ length s)%nat.
Proof.
  induction s as [|c s IH]; simpl; [lia|].
  destruct (isdigit c); simpl; [|lia].
  destruct (span_digits s); simpl in *. lia.
Qed.

Lemma match_digits_length sign s x r :
  match_digits sign s = Some (x, r) → (length r < length s)%nat.
Proof.
  destruct s as [|c s]; simpl; [done|].
  destruct (c =? 48); [intros [= <- <-]; lia|].
  destruct (isdigit c); [|done].
  pose proof (span_digits_length s). destruct (span_digits s); simpl in *.
  intros [= <- <-]. lia.
Qed.

Lemma match_integer_length s x r :
  match_integer s = Some (x, r) → (length r < length s)%nat.
Proof.
  unfold match_integer. destruct s as [|c s]; [done|].
  destruct (c =? 45); intros H; apply match_digits_length in H; simpl in *; lia.
Qed.

Lemma match_frac_length s : (length (snd (match_frac s)) ≤ length s)%nat.
Proof.
  destruct s as [|c s]; simpl; [lia|]. destruct (c =? 46); simpl; [|lia].
  pose proof (span_digits_length s). destruct (span_digits s) as [[|d ds] r];
    simpl in *; lia.
Qed.

Lemma match_exp_length s : (length (snd (match_exp s)) ≤ length s)%nat.
Proof.
  destruct s as [|e s]; simpl; [lia|].
  destruct ((e =? 101) || (e =? 69)); simpl; [|lia].
  destruct s as [|c s']; simpl; [lia|].
  destruct ((c =? 45) || (c =? 43)).
  - pose proof (span_digits_length s'). destruct (span_digits s') as [[|d ds] r];
      simpl in *; lia.
  - pose proof (span_digits_length (c :: s')).
    destruct (span_digits (c :: s')) as [[|d ds] r]; simpl in *; lia.
Qed.

Lemma match_number_length s v r :
  match_number s = Some (v, r) → (length r < length s)%nat.
Proof.
  unfold match_number.
  destruct (match_integer s) as [[int r1]|] eqn:E; [|done].
  apply match_integer_length in E.
  pose proof (match_frac_length r1). destruct (match_frac r1) as [frac r2].
  pose proof (match_exp_length r2). destruct (match_exp r2) as [ex r3].
  simpl in *. destruct frac, ex; intros [= <- <-]; lia.
Qed.

Lemma keyword_length w v s x r :
  w ≠ [] → startswith s w = true → keyword w v s = Some (x, r) →
  (length r < length s)%nat.
Proof.
  unfold keyword. intros Hw Hs. rewrite Hs. intros [= <- <-].
  destruct w as [|a w]; [done|]. destruct s as [|b s]; [done|].
  simpl. rewrite length_drop. lia.
Qed.

Lemma scan_atom_progress s : progress s (scan_atom s).
Proof.
  unfold scan_atom.
  repeat match goal with
  | |- context [keyword ?w ?v s] =>
      let E := fresh "E" in
      destruct (keyword w v s) as [[x r]|] eqn:E;
      [ simpl; unfold keyword in E;
        destruct (startswith s w) eqn:Hs; [|done];
        eapply (keyword_length w v s x r); [done | exact Hs |];
        unfold keyword; rewrite Hs; exact E | ]
  | |- context [match_number s] =>
      let E := fresh "E" in
      destruct (match_number s) as [[x r]|] eqn:E;
      [ simpl; eapply match_number_length; exact E | ]
  end.
  reflexivity.
Qed.

Lemma decoder_progress fuel :
  (∀ s, (2 * length s + 1 ≤ fuel)%nat → progress s (scan_once fuel s))
  ∧ (∀ s, (2 * length s + 2 ≤ fuel)%nat → progress s (array_items fuel s))
  ∧ (∀ s acc, (2 * length s + 1 ≤ fuel)%nat →
       progress s (object_items fuel s acc)).
Proof.
  induction fuel as [|fuel (IHs & IHa & IHo)].
  { repeat split; intros; simpl in *; lia. }
  split; [|split].
  - intros s Hf. simpl scan_once.
    destruct s as [|c s']; [apply scan_atom_progress|].
    destruct (c =? DQ).
    { eapply progress_bind; [apply scanstring_progress | simpl; lia |].
      intros a r Hr. simpl. lia. }
    destruct (c =? 123).
    { pose proof (skip_ws_length s'). destruct (skip_ws s') as [|c1 s2];
        [reflexivity|]. simpl in *.
      destruct (c1 =? 125); [simpl; lia|].
      destruct (c1 =? DQ); [|reflexivity].
      eapply progress_bind; [apply IHo; lia | simpl; lia |].
      intros a r Hr. simpl. lia. }
    destruct (c =? 91); [|apply scan_atom_progress].
    pose proof (skip_ws_length s'). destruct (skip_ws s') as [|c1 s2];
      [reflexivity|]. simpl in *.
    destruct (c1 =? 93); [simpl; lia|].
    eapply progress_bind; [apply IHa; simpl; lia | simpl; lia |].
    intros a r Hr. simpl in *. lia.
  - intros s Hf. simpl array_items.
    eapply progress_bind; [apply IHs; lia | lia |].
    intros v r Hr.
    pose proof (skip_ws_length r). destruct (skip_ws r) as [|c r'];
      [reflexivity|]. simpl in *.
    destruct (c =? 93); [simpl; lia|].
    destruct (c =? 44); [|reflexivity].
    pose proof (skip_ws_length r').
    destruct (length (skip_ws r')) as [|n] eqn:El.
    + destruct (skip_ws r'); [|discriminate].
      destruct fuel as [|fuel']; [lia|]. simpl.
      destruct fuel' as [|fuel'']; [lia|]. reflexivity.
    + eapply progress_bind; [apply IHa; lia | lia |].
      intros a r2 Hr2. simpl. lia.
  - intros s acc Hf. simpl object_items.
    eapply progress_bind; [apply scanstring_progress | lia |].
    intros key r Hr.
    pose proof (skip_ws_length r). destruct (skip_ws r) as [|c r1];
      [reflexivity|]. simpl in *.
    destruct (c =? 58); [|reflexivity].
    pose proof (skip_ws_length r1).
    eapply progress_bind; [apply IHs; lia | lia |].
    intros v r2 Hr2.
    pose proof (skip_ws_length r2). destruct (skip_ws r2) as [|c2 r3];
      [reflexivity|]. simpl in *.
    destruct (c2 =? 125); [simpl; lia|].
    destruct (c2 =? 44); [|reflexivity].
    pose proof (skip_ws_length r3). destruct (skip_ws r3) as [|c3 r4];
      [reflexivity|]. simpl in *.
    destruct (c3 =? DQ); [|reflexivity].
    pose proof (IHo r4 (<[key:=v]> acc)) as Ho.
    destruct (object_items fuel r4 (<[key:=v]> acc)) as [[d r5]|e];
      simpl in *; [|apply Ho; lia].
    assert ((length r5 < length r4)%nat) by (apply Ho; lia). lia.
Qed.

(** [json.loads] is total in the model: it returns a value or raises the
    decode error, the fuel never runs out. *)
Lemma loads_raises s e : loads s = Raise e → e = JSONDecodeError.
Proof.
  unfold loads. destruct (startswith s [65279]); [congruence|].
  pose proof (skip_ws_length s).
  destruct (decoder_progress (2 * length s + 1)) as (Hs & _ & _).
  specialize (Hs (skip_ws s) ltac:(lia)).
  destruct (scan_once _ (skip_ws s)) as [[v r]|e']; simpl in *.
  - destruct (skip_ws r); congruence.
  - congruence.
Qed.

(** A text that begins with a bracket decodes to a list. *)
Lemma loads_bracket s v : loads (91 :: s) = Ok v → ∃ xs, v = PList xs.
Proof.
  unfold loads. simpl startswith. cbn [skip_ws lstrip is_ws].
  change (lstrip is_ws (91 :: s)) with (91 :: s).
  remember (2 * length (91%N :: s) + 1)%nat as fuel eqn:Ef.
  destruct fuel as [|fuel]; [simpl in Ef; lia|].
  simpl scan_once. change (91 =? DQ) with false. change (91 =? 123) with false.
  change (91 =? 91) with true. cbv iota.
  destruct (skip_ws s) as [|c1 s2]; [done|].
  destruct (c1 =? 93).
  - simpl. destruct (skip_ws s2); [|done]. intros [= <-]. eauto.
  - destruct (array_items fuel (c1 :: s2)) as [[xs r]|e]; simpl; [|done].
    destruct (skip_ws r); [|done]. intros [= <-]. eauto.
Qed.

(** ** [parse_assigned_json_array] *)

Lemma group1_span body tail :
  group1 (Caps (91 :: body ++ 93 :: tail) tail) = 91 :: body ++ [93].
Proof.
  unfold group1. simpl g_open. simpl g_close.
  replace (91 :: body ++ 93 :: tail) with ((91 :: body ++ [93]) ++ tail)
    by (simpl; rewrite <- app_assoc; reflexivity).
  set (g := 91 :: body ++ [93]).
  rewrite length_app, Nat.add_sub.
  apply take_app_length.
Qed.

Lemma Matches_assigned var t c c' r :
  Matches (assigned_array_pattern var) t c c' r →
  ∃ body rest, assigned_as var t body rest
    ∧ group1 c' = 91 :: body ++ [93].
Proof.
  unfold assigned_array_pattern. intros H.
  apply Matches_star_inv in H as (w1 & s1 & -> & Hw1 & H).
  apply Matches_lit in H as (s2 & -> & H).
  apply Matches_star_inv in H as (w2 & s3 & -> & Hw2 & H).
  apply Matches_lit_inv in H as (s4 & -> & H).
  apply Matches_star_inv in H as (w3 & s5 & -> & Hw3 & H).
  apply Matches_open_inv in H.
  apply Matches_lit_inv in H as (s6 & -> & H).
  apply Matches_star_inv in H as (a & s7 & -> & Ha & H).
  apply Matches_star_inv in H as (b & s8 & -> & Hb & H).
  apply Matches_star_inv in H as (c1 & s9 & -> & Hc & H).
  apply Matches_lit_inv in H as (s10 & -> & H).
  apply Matches_close_inv in H.
  apply Matches_star_inv in H as (w4 & s11 & -> & Hw4 & H).
  apply Matches_lit_inv in H as (rest & -> & H).
  apply Matches_caps in H; [| simpl; intuition discriminate ..].
  subst c'. exists (a ++ b ++ c1), rest. split.
  - exists w1, w2, w3, w4. repeat split; auto.
    repeat (rewrite <- ?app_assoc; simpl). reflexivity.
  - simpl g_open.
    replace (91 :: a ++ b ++ c1 ++ 93 :: w4 ++ 59 :: rest)
      with (91 :: (a ++ b ++ c1) ++ 93 :: w4 ++ 59 :: rest)
      by (repeat (rewrite <- ?app_assoc; simpl); reflexivity).
    apply group1_span.
Qed.

Lemma assigned_Matches var t body rest c :
  assigned_as var t body rest →
  ∃ c', Matches (assigned_array_pattern var) t c c' [].
Proof.
  intros (w1 & w2 & w3 & w4 & -> & H1 & H2 & H3 & H4).
  eexists. unfold assigned_array_pattern.
  apply M_star; [exact H1|]. apply Matches_lit. eexists; split; [reflexivity|].
  apply M_star; [exact H2|]. apply M_lit.
  apply M_star; [exact H3|]. apply M_open. apply M_lit.
  apply (M_star isspace []); [reflexivity|]. simpl.
  apply (M_star any body); [apply forallb_any|].
  apply (M_star isspace []); [reflexivity|]. simpl.
  apply M_lit. apply M_close.
  apply M_star; [exact H4|]. apply M_lit.
  apply Matches_to_end.
Qed.

(** The pattern matches exactly the texts of the shape, and the group is
    a bracketed span of such a reading. *)
Lemma rmatch_assigned_shape var t :
  is_Some (rmatch (assigned_array_pattern var) t) ↔ assigned_shape var t.
Proof.
  unfold rmatch. split.
  - intros [[g r] H].
    destruct (run _ t no_caps) as [[c' r']|] eqn:E; [|done].
    apply run_sound, Matches_assigned in E as (body & rest & Hs & _).
    exists body, rest. exact Hs.
  - intros (body & rest & Hs).
    destruct (assigned_Matches var t body rest no_caps Hs) as (c' & HM).
    apply run_complete in HM as [[c'' r''] ->]. eauto.
Qed.

Lemma rmatch_assigned_group var t g r :
  rmatch (assigned_array_pattern var) t = Some (g, r) →
  ∃ body rest, assigned_as var t body rest ∧ g = 91 :: body ++ [93]
    ∧ no_later_close rest.
Proof.
  unfold rmatch. intros H.
  destruct (run _ t no_caps) as [[c' r']|] eqn:E; [|done].
  inversion H; subst. clear H. unfold assigned_array_pattern in E.
  apply run_star_inv in E as (w1 & s1 & -> & Hw1 & E & _).
  apply run_lits_inv in E as (s2 & -> & E).
  apply run_star_inv in E as (w2 & s3 & -> & Hw2 & E & _).
  apply run_lit_inv in E as (s4 & -> & E).
  apply run_star_inv in E as (w3 & s5 & -> & Hw3 & E & _).
  rewrite run_open in E.
  apply run_lit_inv in E as (s6 & -> & E).
  apply run_star_inv in E as (a & s7 & -> & Ha & E & _).
  apply run_star_inv in E as (b & s8 & -> & Hb & E & Hmax).
  pose proof E as E0.
  apply run_star_inv in E as (c1 & s9 & -> & Hc & E & _).
  apply run_lit_inv in E as (s10 & -> & E).
  rewrite run_close in E.
  apply run_star_inv in E as (w4 & s11 & -> & Hw4 & E & _).
  apply run_lit_inv in E as (rest & -> & E).
  apply run_sound, Matches_caps in E; [| simpl; intuition discriminate ..].
  subst c'. exists (a ++ b ++ c1), rest. split; [|split].
  - exists w1, w2, w3, w4. repeat split; auto.
    repeat (rewrite <- ?app_assoc; simpl). reflexivity.
  - simpl g_open. simpl g_close.
    replace (91 :: a ++ b ++ c1 ++ 93 :: w4 ++ 59 :: rest)
      with (91 :: (a ++ b ++ c1) ++ 93 :: w4 ++ 59 :: rest)
      by (repeat (rewrite <- ?app_assoc; simpl); reflexivity).
    apply group1_span.
  - intros x w y Hw ->.
    match type of E0 with run ?p _ ?c = _ =>
      assert (is_Some (run p (93 :: w ++ 59 :: y) c)) as [z Hz] end.
    { eapply run_complete.
      apply (M_star isspace []); [reflexivity|]. simpl.
      apply M_lit. apply M_close. apply M_star; [exact Hw|].
      apply M_lit. apply Matches_to_end. }
    rewrite (Hmax (b ++ c1 ++ 93 :: w4 ++ 59 :: x) (93 :: w ++ 59 :: y)) in Hz.
    + discriminate.
    + repeat (rewrite <- ?app_assoc; simpl). reflexivity.
    + apply forallb_any.
    + rewrite !length_app. simpl. lia.
Qed.




(** C4: the embedded text of the specification parses, under the name
    [packageSearchIndex], to one record, and the mapping built from it
    is exactly [java.lang] to [java.base]. *)
Theorem package_index_example_mapping :
  parse_assigned_json_array package_js_example (u "packageSearchIndex")
  = Ok (PList package_index_example)
  ∧ records package_index_example = Ok entries_example
  ∧ build_package_to_module entries_example
    = {[ u "java.lang" := u "java.base" ]}.
Proof. vm_compute. repeat split; reflexivity. Qed.

(** ** [build_package_to_module] *)

Lemma package_entry_fields entry :
  package_entry entry =
    match str_field entry (u "m"), str_field entry (u "l") with
    | Some m, Some p => Some (p, m)
    | _, _ => None
    end.
Proof.
  unfold package_entry, str_field, get.
  destruct (entry !! u "m") as [[| | | |[|? ?]| |]|];
    destruct (entry !! u "l") as [[| | | |[|? ?]| |]|]; reflexivity.
Qed.

Lemma str_field_Some entry key s :
  str_field entry key = Some s → s ≠ [] ∧ entry !! key = Some (PStr s).
Proof.
  unfold str_field.
  destruct (entry !! key) as [[| | | |[|? ?]| |]|]; try discriminate.
  intros [= <-]. split; [done | reflexivity].
Qed.

Lemma invalid_field_str_field entry key :
  invalid_field entry key → str_field entry key = None.
Proof.
  unfold invalid_field, str_field.
  destruct (entry !! key) as [[| | | |[|? ?]| |]|]; done.
Qed.

Lemma build_snoc idx entry :
  build_package_to_module (idx ++ [entry])
  = build_step (build_package_to_module idx) entry.
Proof. unfold build_package_to_module. rewrite foldl_app. reflexivity. Qed.

Lemma build_lookup idx package :
  build_package_to_module idx !! package = last_module idx package.
Proof.
  induction idx as [|entry idx IH] using rev_ind; [reflexivity|].
  rewrite build_snoc. unfold build_step, last_module.
  rewrite omap_app. simpl. rewrite package_entry_fields.
  fold (last_module idx package).
  destruct (str_field entry (u "m")) as [m|];
    [destruct (str_field entry (u "l")) as [p|] |];
    simpl; rewrite ?app_nil_r; try exact IH.
  destruct (decide (p = package)) as [->|Hne]; simpl.
  - rewrite lookup_insert_eq, last_snoc. reflexivity.
  - rewrite lookup_insert_ne by done. rewrite app_nil_r. exact IH.
Qed.

Lemma build_entry idx package module :
  build_package_to_module idx !! package = Some module →
  ∃ entry, entry ∈ idx ∧ str_field entry (u "m") = Some module
    ∧ str_field entry (u "l") = Some package.
Proof.
  induction idx as [|entry idx IH] using rev_ind; [done|].
  rewrite build_snoc. unfold build_step. rewrite package_entry_fields.
  destruct (str_field entry (u "m")) as [m|] eqn:Em;
    [destruct (str_field entry (u "l")) as [p|] eqn:El |].
  - destruct (decide (p = package)) as [->|Hne].
    + rewrite lookup_insert_eq. intros [= ->].
      exists entry. split; [rewrite elem_of_app, list_elem_of_singleton; auto | done].
    + rewrite lookup_insert_ne by done. intros H.
      destruct (IH H) as (e & He & ?). exists e. split; [rewrite elem_of_app, list_elem_of_singleton; auto | done].
  - intros H. destruct (IH H) as (e & He & ?). exists e. split; [rewrite elem_of_app, list_elem_of_singleton; auto | done].
  - intros H. destruct (IH H) as (e & He & ?). exists e. split; [rewrite elem_of_app, list_elem_of_singleton; auto | done].
Qed.

Lemma build_skip before entry after :
  str_field entry (u "m") = None ∨ str_field entry (u "l") = None →
  build_package_to_module (before ++ entry :: after)
  = build_package_to_module (before ++ after).
Proof.
  intros H. unfold build_package_to_module. rewrite !foldl_app. simpl.
  rewrite package_entry_fields.
  destruct H as [-> | ->]; [reflexivity|].
  destruct (str_field entry (u "m")); reflexivity.
Qed.

Lemma build_no_empty_module idx : no_empty_module (build_package_to_module idx).
Proof.
  intros p H. apply build_entry in H as (entry & _ & Hm & _).
  apply str_field_Some in Hm as [Hm _]. done.
Qed.

(** C7: every entry of the mapping has a non-empty package and a
    non-empty module, both strings taken from one record of the index;
    the module of a package is the one of the last record that names it;
    a record in which one of the two fields is absent, empty or no
    string changes nothing. *)
Theorem build_package_to_module_spec
    (package_index : list (gmap (list N) value)) :
  (∀ package module,
      build_package_to_module package_index !! package = Some module →
      package ≠ [] ∧ module ≠ []
      ∧ ∃ entry, entry ∈ package_index
          ∧ entry !! u "m" = Some (PStr module)
          ∧ entry !! u "l" = Some (PStr package))
  ∧ (∀ package,
      build_package_to_module package_index !! package
      = last_module package_index package)
  ∧ (∀ before entry after,
      package_index = before ++ entry :: after →
      invalid_field entry (u "m") ∨ invalid_field entry (u "l") →
      build_package_to_module package_index
      = build_package_to_module (before ++ after)).
Proof.
  split; [|split].
  - intros package module H.
    apply build_entry in H as (entry & Hin & Hm & Hl).
    apply str_field_Some in Hm as [? ?]. apply str_field_Some in Hl as [? ?].
    eauto 10.
  - apply build_lookup.
  - intros before entry after -> H. apply build_skip.
    destruct H as [H|H]; apply invalid_field_str_field in H; auto.
Qed.

(** C7 on the record of the example. *)
Lemma build_package_to_module_spec_witness :
  u "java.lang" ≠ [] ∧ u "java.base" ≠ []
  ∧ ∃ entry, entry ∈ entries_example
      ∧ entry !! u "m" = Some (PStr (u "java.base"))
      ∧ entry !! u "l" = Some (PStr (u "java.lang")).
Proof.
  apply (proj1 (build_package_to_module_spec entries_example)
           (u "java.lang") (u "java.base")).
  vm_compute. reflexivity.
Defined.

(** ** [encode_url] on absolute URLs *)

Lemma forallb_impl (f g : N → bool) s :
  (∀ c, f c = true → g c = true) → forallb f s = true → forallb g s = true.
Proof.
  intros Hfg. induction s as [|c s IH]; simpl; [done|].
  intros H. apply andb_prop in H as [Hc Hs]. rewrite (Hfg c Hc). auto.
Qed.

Ltac bools :=
  repeat match goal with
  | H : _ && _ = true |- _ => apply andb_prop in H as [? ?]
  | H : _ || _ = true |- _ => apply orb_prop in H as [?|?]
  | H : negb _ = true |- _ => apply negb_true_iff in H
  | H : _ || _ = false |- _ => apply orb_false_elim in H as [? ?]
  | H : (_ <=? _) = true |- _ => apply N.leb_le in H
  | H : (_ <? _) = true |- _ => apply N.ltb_lt in H
  | H : (_ =? _) = true |- _ => apply N.eqb_eq in H
  | H : (_ =? _) = false |- _ => apply N.eqb_neq in H
  end.

Ltac char_test :=
  unfold unreserved, netloc_char, kept, scheme_char, always_safe, isalnum,
    isalpha, islower, isupper, isdigit, c0_control_or_space, mem, u in *;
  simpl in *; bools;
  repeat match goal with
  | |- _ && _ = true => apply andb_true_intro; split
  | |- negb _ = true => apply negb_true_iff
  | |- _ || _ = false => apply orb_false_intro
  | |- (_ =? _) = false => apply N.eqb_neq; lia
  | |- (_ <? _) = true => apply N.ltb_lt; lia
  | |- (_ <? _) = false => apply N.ltb_ge; lia
  | |- (_ <=? _) = false => apply N.leb_gt; lia
  | |- (_ <=? _) = true => apply N.leb_le; lia
  end.

Lemma remove_unsafe_app a b :
  remove_unsafe (a ++ b) = remove_unsafe a ++ remove_unsafe b.
Proof. unfold remove_unsafe. apply List.filter_app. Qed.

Lemma remove_unsafe_id s : forallb kept s = true → remove_unsafe s = s.
Proof.
  unfold remove_unsafe, kept. induction s as [|c s IH]; simpl; [done|].
  intros H. apply andb_prop in H as [Hc Hs]. rewrite Hc. f_equal. auto.
Qed.

Lemma scheme_low_kept c : scheme_low c = true → kept c = true.
Proof. unfold scheme_low. intros H. char_test; subst; try lia; done. Qed.

Lemma scheme_low_not_colon c : scheme_low c = true → (c =? 58) = false.
Proof. unfold scheme_low. intros H. char_test; subst; try lia; done. Qed.

Lemma scheme_low_scheme_char c : scheme_low c = true → scheme_char c = true.
Proof.
  unfold scheme_low, scheme_char, isalnum, isalpha. intros H.
  apply orb_prop in H as [H|H]; [apply orb_prop in H as [H|H]|].
  - by rewrite H.
  - rewrite H. by rewrite orb_true_r.
  - rewrite H. by rewrite orb_true_r.
Qed.

Lemma scheme_low_lower c :
  scheme_low c = true → (if isupper c then c + 32 else c) = c.
Proof.
  unfold scheme_low. intros H.
  assert (isupper c = false) as ->; [|done].
  char_test; subst; try lia; try done;
    apply andb_false_iff; first [left; apply N.leb_gt; lia
                               | right; apply N.leb_gt; lia].
Qed.

Lemma lower_id s : forallb scheme_low s = true → lower s = s.
Proof.
  unfold lower. induction s as [|c s IH]; simpl; [done|].
  intros H. apply andb_prop in H as [Hc Hs].
  rewrite (scheme_low_lower c Hc). f_equal. auto.
Qed.

Lemma partition_app x a b :
  forallb (fun c => negb (c =? x)) a = true →
  partition x (a ++ x :: b) = Some (a, b).
Proof.
  induction a as [|c a IH]; simpl; intros H.
  - by rewrite N.eqb_refl.
  - apply andb_prop in H as [Hc Ha]. apply negb_true_iff in Hc. rewrite Hc.
    rewrite (IH Ha). reflexivity.
Qed.

Lemma partition_None x s :
  forallb (fun c => negb (c =? x)) s = true → partition x s = None.
Proof.
  induction s as [|c s IH]; simpl; [done|]. intros H.
  apply andb_prop in H as [Hc Hs]. apply negb_true_iff in Hc. rewrite Hc.
  rewrite (IH Hs). reflexivity.
Qed.

Lemma span_app (f : N → bool) a b :
  forallb f a = true →
  match b with [] => True | c :: _ => f c = false end →
  span f (a ++ b) = (a, b).
Proof.
  induction a as [|c a IH]; simpl; intros Ha Hb.
  - destruct b as [|c b]; simpl; [done|]. by rewrite Hb.
  - apply andb_prop in Ha as [Hc Ha]. rewrite Hc, (IH Ha Hb). reflexivity.
Qed.

Lemma mem_false_forallb x s :
  forallb (fun c => negb (c =? x)) s = true → mem x s = false.
Proof.
  unfold mem. induction s as [|c s IH]; simpl; [done|]. intros H.
  apply andb_prop in H as [Hc Hs]. apply negb_true_iff in Hc.
  rewrite N.eqb_sym, Hc. simpl. auto.
Qed.

Lemma check_netloc_plain net :
  forallb netloc_char net = true → check_netloc net = Ok ().
Proof.
  intros H. unfold check_netloc.
  rewrite (mem_false_forallb 91), (mem_false_forallb 93).
  - assert (forallb (fun c => c <? 128) net = true) as ->; [|done].
    revert H. apply forallb_impl. intros c Hc. by char_test.
  - revert H. apply forallb_impl. intros c Hc. char_test; try lia.
  - revert H. apply forallb_impl. intros c Hc. char_test; try lia.
Qed.

(** [urlsplit] on a URL written as scheme, [://], network location and
    the rest. *)
Lemma split_scheme_lower sch rest :
  lower_scheme sch = true →
  split_scheme (sch ++ 58 :: rest) = Some (sch, rest).
Proof.
  unfold lower_scheme. destruct sch as [|c s]; [done|]. intros H.
  apply andb_prop in H as [Hc Hs]. fold scheme_low in Hs.
  unfold split_scheme. cbn [app].
  assert (partition 58 (c :: s ++ 58 :: rest) = Some (c :: s, rest)) as ->.
  { apply (partition_app 58 (c :: s) rest). revert Hs. apply forallb_impl.
    intros x Hx. by rewrite (scheme_low_not_colon x Hx). }
  assert ((c <? 128) && isalpha c = true) as ->.
  { unfold isalpha. rewrite Hc. rewrite andb_true_r. char_test. }
  rewrite (forallb_impl scheme_low scheme_char _ scheme_low_scheme_char Hs).
  cbn [andb]. rewrite (lower_id _ Hs). reflexivity.
Qed.

Lemma lstrip_scheme sch rest :
  lower_scheme sch = true →
  lstrip c0_control_or_space (sch ++ rest) = sch ++ rest.
Proof.
  unfold lower_scheme. destruct sch as [|c s]; [done|]. intros H.
  apply andb_prop in H as [Hc _]. simpl.
  assert (c0_control_or_space c = false) as ->; [|done]. char_test.
Qed.

Lemma lower_scheme_kept sch :
  lower_scheme sch = true → forallb kept sch = true.
Proof.
  unfold lower_scheme. destruct sch as [|c s]; [done|]. intros H.
  apply andb_prop in H as [_ Hs]. revert Hs. apply forallb_impl.
  apply scheme_low_kept.
Qed.

Lemma netloc_kept net :
  forallb netloc_char net = true → forallb kept net = true.
Proof.
  apply forallb_impl. intros c H. unfold netloc_char in H.
  apply andb_prop in H as [_ H]. exact H.
Qed.

Lemma urlsplit_absolute sch net tail :
  lower_scheme sch = true → forallb netloc_char net = true →
  match tail with [] => True | c :: _ => mem c (u "/?#") = true end →
  urlsplit (sch ++ u "://" ++ net ++ tail) [] =
    let t := remove_unsafe tail in
    let '(t1, frag) :=
      match partition 35 t with Some (a, b) => (a, b) | None => (t, []) end in
    let '(t2, qry) :=
      match partition 63 t1 with Some (a, b) => (a, b) | None => (t1, []) end in
    Ok (SplitResult sch net t2 qry frag).
Proof.
  intros Hs Hn Ht. unfold urlsplit.
  rewrite (lstrip_scheme sch _ Hs).
  rewrite !remove_unsafe_app, (remove_unsafe_id sch (lower_scheme_kept _ Hs)),
    (remove_unsafe_id net (netloc_kept _ Hn)).
  change (remove_unsafe (u "://")) with [58; 47; 47].
  cbn [app]. rewrite (split_scheme_lower sch _ Hs).
  rewrite (span_app _ net (remove_unsafe tail)).
  - cbv zeta. destruct (partition 35 (remove_unsafe tail)) as [[a b]|];
      [destruct (partition 63 a) as [[a' b']|]
      | destruct (partition 63 (remove_unsafe tail)) as [[a' b']|]];
      rewrite (check_netloc_plain net Hn); reflexivity.
  - revert Hn. apply forallb_impl. intros c H. unfold netloc_char in H.
    apply andb_prop in H as [H _]. apply andb_prop in H as [_ H].
    apply negb_true_iff in H. apply negb_true_iff.
    unfold mem, u in *. simpl in *.
    apply orb_false_elim in H as [H1 H]. apply orb_false_elim in H as [H2 H].
    apply orb_false_elim in H as [H3 _]. by rewrite H1, H2, H3.
  - destruct tail as [|c t]; [done|]. unfold remove_unsafe. cbn [List.filter].
    assert (kept c = true) as Hk.
    { unfold kept. char_test; subst; done. }
    unfold kept in Hk. rewrite Hk. rewrite Ht. reflexivity.
Qed.

Lemma encode_utf8_ascii s :
  forallb (fun c => c <? 128) s = true → encode_utf8 s = Ok s.
Proof.
  induction s as [|c s IH]; simpl; [done|]. intros H.
  apply andb_prop in H as [Hc Hs]. unfold utf8. rewrite Hc, (IH Hs).
  reflexivity.
Qed.

Lemma path_char_ascii c : path_char c = true → (c <? 128) = true.
Proof. unfold path_char. intros H. char_test; subst; try lia; done. Qed.

Lemma path_char_kept c : path_char c = true → kept c = true.
Proof. unfold path_char. intros H. char_test; subst; try lia; done. Qed.

Lemma path_char_quoted c :
  path_char c = true → quote_byte (u "/-._~") c = [c].
Proof.
  unfold path_char, unreserved, quote_byte, always_safe. intros H.
  apply orb_prop in H as [H|H]; [apply orb_prop in H as [H|H]|].
  - by rewrite H.
  - assert (mem c (u "_.-~") = true) as ->.
    { unfold mem, u in *. simpl in *.
      repeat (apply orb_prop in H as [H|H]); rewrite ?H, ?orb_true_r;
        try done. }
    by rewrite orb_true_r.
  - apply N.eqb_eq in H as ->. reflexivity.
Qed.

Lemma quote_path s :
  forallb path_char s = true → quote s (u "/-._~") = Ok s.
Proof.
  intros H. unfold quote.
  rewrite encode_utf8_ascii by (revert H; apply forallb_impl, path_char_ascii).
  cbn [mbind result_bind]. f_equal.
  induction s as [|c s IH]; [done|]. cbn [List.flat_map].
  simpl in H. apply andb_prop in H as [Hc Hs].
  rewrite (path_char_quoted c Hc), (IH Hs). reflexivity.
Qed.

Lemma path_char_not c x :
  path_char c = true → x = 35 ∨ x = 63 → negb (c =? x) = true.
Proof.
  unfold path_char. intros H Hx. apply negb_true_iff, N.eqb_neq.
  char_test; subst; destruct Hx; subst; try lia; done.
Qed.

Lemma urlunsplit_prefix sch net p qr fr :
  sch ≠ [] → net ≠ [] →
  ∃ rest,
    urlunsplit (SplitResult sch net p qr fr) = sch ++ u "://" ++ net ++ rest
    ∧ match rest with [] => True | c :: _ => mem c (u "/?#") = true end.
Proof.
  intros Hs Hn. unfold urlunsplit. cbn [scheme netloc path query fragment].
  destruct net as [|n0 net]; [done|]. destruct sch as [|s0 sch]; [done|].
  change (u "//") with [47; 47]. change (u "://") with [58; 47; 47].
  exists ((match p with [] => [] | 47 :: _ => p | _ => 47 :: p end)
          ++ (match qr with [] => [] | _ => 63 :: qr end)
          ++ (match fr with [] => [] | _ => 35 :: fr end)).
  split.
  - destruct qr, fr; rewrite <- ?app_assoc; cbn [app];
      rewrite <- ?app_assoc, ?app_nil_r; cbn [app]; reflexivity.
  - destruct p as [|c p]; [destruct qr, fr; done|].
    destruct (decide (c = 47)) as [->|Hc]; [done|].
    assert ((match c :: p with [] => [] | 47 :: _ => c :: p | _ => 47 :: c :: p end)
            = 47 :: c :: p) as ->; [|done].
    destruct c as [|c]; [done|].
    repeat (destruct c as [c|c|]; try done).
Qed.




(** ** The order of strings and [sorted] *)

Lemma cmp_eq a : ∀ b, cmp a b = Eq → a = b.
Proof.
  induction a as [|x a IH]; intros [|y b]; simpl; try done.
  destruct (x ?= y) eqn:E; try done.
  apply N.compare_eq in E as ->. intros H. f_equal. auto.
Qed.

Lemma cmp_refl a : cmp a a = Eq.
Proof. induction a as [|x a IH]; simpl; [done|]. by rewrite N.compare_refl. Qed.

Lemma cmp_opp a : ∀ b, cmp b a = CompOpp (cmp a b).
Proof.
  induction a as [|x a IH]; intros [|y b]; simpl; try done.
  rewrite (N.compare_antisym x y). destruct (x ?= y); simpl; auto.
Qed.

Lemma cmp_lt_trans a : ∀ b c, cmp a b = Lt → cmp b c = Lt → cmp a c = Lt.
Proof.
  induction a as [|x a IH]; intros [|y b] [|z c]; simpl; try done.
  destruct (x ?= y) eqn:Exy; try done.
  - apply N.compare_eq in Exy as ->.
    destruct (y ?= z); try done. apply IH.
  - destruct (y ?= z) eqn:Eyz; try done.
    + apply N.compare_eq in Eyz as <-. by rewrite Exy.
    + intros _ _. rewrite N.compare_lt_iff in Exy, Eyz.
      assert ((x ?= z) = Lt) as -> by (apply N.compare_lt_iff; lia). done.
Qed.

#[global] Instance str_le_total : Total Str.le.
Proof.
  intros a b. unfold Str.le. rewrite (cmp_opp a b).
  destruct (cmp a b); simpl; [left | left | right]; done.
Qed.

#[global] Instance str_le_trans : Transitive Str.le.
Proof.
  intros a b c. unfold Str.le. intros Hab Hbc.
  destruct (cmp a b) eqn:Eab; [| |done].
  - by apply cmp_eq in Eab as ->.
  - destruct (cmp b c) eqn:Ebc; [| |done].
    + apply cmp_eq in Ebc as <-. by rewrite Eab.
    + by rewrite (cmp_lt_trans a b c).
Qed.

Lemma le_neq_lt a b : Str.le a b → a ≠ b → Str.lt a b.
Proof.
  unfold Str.le, Str.lt. destruct (cmp a b) eqn:E; try done.
  apply cmp_eq in E. done.
Qed.

Lemma elem_of_sorted s x : x ∈ sorted s ↔ x ∈ s.
Proof. unfold sorted. rewrite merge_sort_Permutation. apply elem_of_elements. Qed.

Lemma NoDup_sorted s : NoDup (sorted s).
Proof. unfold sorted. rewrite merge_sort_Permutation. apply NoDup_elements. Qed.

Lemma StronglySorted_le_lt l :
  StronglySorted Str.le l → NoDup l → StronglySorted Str.lt l.
Proof.
  induction 1 as [|x l Hl IH Hx]; intros Hnd; [constructor|].
  apply NoDup_cons in Hnd as [Hnin Hnd]. constructor; [auto|].
  rewrite Forall_forall in *. intros y Hy.
  apply le_neq_lt; [by apply Hx|]. intros ->. done.
Qed.

Lemma sorted_ascending s : StronglySorted Str.lt (sorted s).
Proof.
  apply StronglySorted_le_lt; [|apply NoDup_sorted].
  apply StronglySorted_merge_sort; apply _.
Qed.

(** ** What the loops put into the URL set *)

Lemma for_each_app {A S} (body : A → S → result S) xs ys st :
  for_each body (xs ++ ys) st = for_each body xs st ≫= for_each body ys.
Proof.
  revert st. induction xs as [|x xs IH]; intros st; simpl; [reflexivity|].
  destruct (body x st) as [st'|e]; simpl; [apply IH | reflexivity].
Qed.

Lemma for_each_skip {A S} (body : A → S → result S) xs x ys st :
  (∀ st', body x st' = Ok st') →
  for_each body (xs ++ x :: ys) st = for_each body (xs ++ ys) st.
Proof.
  intros H. rewrite !for_each_app. simpl.
  destruct (for_each body xs st) as [st'|e]; simpl; [|reflexivity].
  rewrite H. reflexivity.
Qed.

Lemma add_joined_Ok base rel urls urls' :
  add_joined base rel urls = Ok urls' →
  ∃ url, urljoin base rel = Ok url ∧ urls' = {[url]} ∪ urls.
Proof.
  unfold add_joined. intros H. apply bind_Ok in H as (url & Hu & [= <-]). eauto.
Qed.

Lemma for_each_add base {A} (f : A → list N) xs : ∀ urls urls',
  for_each (fun x => add_joined base (f x)) xs urls = Ok urls' →
  urls ⊆ urls'
  ∧ ∀ x, x ∈ xs → ∃ url, urljoin base (f x) = Ok url ∧ url ∈ urls'.
Proof.
  induction xs as [|x xs IH]; intros urls urls' H; cbn [for_each] in H.
  - inversion H; subst. split; [done|]. intros x Hx. by apply elem_of_nil in Hx.
  - apply bind_Ok in H as (urls1 & H1 & H).
    apply add_joined_Ok in H1 as (url & Hu & ->).
    destruct (IH _ _ H) as (Hsub & Hin). split; [set_solver|].
    intros y Hy. apply elem_of_cons in Hy as [-> | Hy]; [|auto].
    exists url. split; [done | set_solver].
Qed.

Lemma package_step_Ok base package module urls urls' :
  package_step base (package, module) urls = Ok urls' →
  urls ⊆ urls'
  ∧ ∀ page, page ∈ [u "/package-summary.html"; u "/package-tree.html";
                    u "/package-use.html"] →
      ∃ url, urljoin base (module ++ u "/" ++ package_path package ++ page)
             = Ok url ∧ url ∈ urls'.
Proof.
  unfold package_step. intros H.
  apply bind_Ok in H as (u1 & H1 & H). apply bind_Ok in H as (u2 & H2 & H).
  apply add_joined_Ok in H1 as (x1 & Hx1 & ->).
  apply add_joined_Ok in H2 as (x2 & Hx2 & ->).
  apply add_joined_Ok in H as (x3 & Hx3 & ->).
  rewrite <- !app_assoc in Hx1, Hx2, Hx3.
  split; [set_solver|]. intros page Hp.
  repeat (apply elem_of_cons in Hp as [-> | Hp]);
    [exists x1 | exists x2 | exists x3 | by apply elem_of_nil in Hp];
    (split; [assumption | set_solver]).
Qed.

Lemma package_urls_Ok base mapping urls urls' :
  package_urls base mapping urls = Ok urls' →
  urls ⊆ urls'
  ∧ ∀ package module page, mapping !! package = Some module →
      page ∈ [u "/package-summary.html"; u "/package-tree.html";
              u "/package-use.html"] →
      ∃ url, urljoin base (module ++ u "/" ++ package_path package ++ page)
             = Ok url ∧ url ∈ urls'.
Proof.
  unfold package_urls.
  assert (∀ l urls urls',
    for_each (package_step base) l urls = Ok urls' →
    urls ⊆ urls' ∧ ∀ package module page, (package, module) ∈ l →
      page ∈ [u "/package-summary.html"; u "/package-tree.html";
              u "/package-use.html"] →
      ∃ url, urljoin base (module ++ u "/" ++ package_path package ++ page)
             = Ok url ∧ url ∈ urls') as Hgen.
  { clear. induction l as [|[p m] l IH]; intros urls urls' H;
      cbn [for_each] in H.
    - inversion H; subst. split; [done|]. intros ? ? ? Hx.
      by apply elem_of_nil in Hx.
    - apply bind_Ok in H as (urls1 & H1 & H).
      apply package_step_Ok in H1 as (Hs1 & Hin1).
      destruct (IH _ _ H) as (Hs & Hin). split; [set_solver|].
      intros package module page Hx Hp.
      apply elem_of_cons in Hx as [[= -> ->] | Hx]; [|eauto].
      destruct (Hin1 page Hp) as (url & ? & ?). exists url.
      split; [done | set_solver]. }
  intros H. destruct (Hgen _ _ _ H) as (Hs & Hin). split; [done|].
  intros package module page Hm. apply Hin. by apply elem_of_map_to_list.
Qed.

Lemma module_urls_Ok base mapping urls urls' :
  module_urls base mapping urls = Ok urls' →
  urls ⊆ urls'
  ∧ ∀ package module, mapping !! package = Some module →
      ∃ url, urljoin base (module ++ u "/module-summary.html") = Ok url
             ∧ url ∈ urls'.
Proof.
  unfold module_urls. intros H.
  apply for_each_add in H as (Hs & Hin). split; [done|].
  intros package module Hm. apply Hin.
  apply elem_of_sorted, elem_of_list_to_set, list_elem_of_fmap.
  exists (package, module). split; [done|]. by apply elem_of_map_to_list.
Qed.

Lemma index_urls_Ok base html urls urls' :
  index_urls base html urls = Ok urls' →
  urls ⊆ urls'
  ∧ ∃ url, urljoin base (u "index-files/index-1.html") = Ok url ∧ url ∈ urls'.
Proof.
  unfold index_urls. intros H.
  apply for_each_add in H as (Hs & Hin). split; [done|].
  apply (Hin (u "index-1.html")). apply elem_of_sorted. set_solver.
Qed.

Lemma type_step_mono base mapping e urls n urls' n' :
  type_step base mapping e (urls, n) = Ok (urls', n') → urls ⊆ urls'.
Proof.
  unfold type_step. destruct e as [| | | | | |d]; try done.
  destruct (classify mapping d); try (intros [= <- <-]; done).
  intros H. apply bind_Ok in H as (u1 & H1 & H).
  apply bind_Ok in H as (u2 & H2 & [= <- <-]).
  apply add_joined_Ok in H1 as (x1 & _ & ->).
  apply add_joined_Ok in H2 as (x2 & _ & ->). set_solver.
Qed.

Lemma type_urls_mono base mapping tindex urls urls' n :
  type_urls base mapping tindex urls = Ok (urls', n) → urls ⊆ urls'.
Proof.
  unfold type_urls. generalize O. revert urls.
  induction tindex as [|e tindex IH]; intros urls k H; cbn [for_each] in H.
  - by inversion H.
  - apply bind_Ok in H as ([u1 n1] & H1 & H).
    apply type_step_mono in H1. apply IH in H. set_solver.
Qed.

Lemma encode_all_Forall2 raw out :
  encode_all raw = Ok out → Forall2 (fun x e => encode_url x = Ok e) raw out.
Proof.
  revert out. induction raw as [|x raw IH]; intros out H; cbn [encode_all] in H.
  - inversion H. constructor.
  - apply bind_Ok in H as (e & He & H). apply bind_Ok in H as (es & Hes & [= <-]).
    constructor; auto.
Qed.

Lemma encode_all_elem raw out x :
  encode_all raw = Ok out → x ∈ raw → ∃ e, encode_url x = Ok e ∧ e ∈ out.
Proof.
  intros H Hx. apply encode_all_Forall2 in H.
  induction H as [|y e raw out Hy H IH]; [by apply elem_of_nil in Hx|].
  apply elem_of_cons in Hx as [-> | Hx].
  - exists e. split; [done | apply elem_of_cons; auto].
  - destruct (IH Hx) as (e' & ? & ?). exists e'.
    split; [done | apply elem_of_cons; auto].
Qed.

Lemma sorted_in_output out url urls :
  encode_all (sorted urls) = Ok out → url ∈ urls →
  ∃ e, encode_url url = Ok e ∧ e ∈ out.
Proof.
  intros H Hu. eapply encode_all_elem; [exact H|]. by apply elem_of_sorted.
Qed.

(** ** The loop over the type index *)

Lemma classify_fields mapping d :
  classify mapping d =
    match str_field d (u "p"), str_field d (u "l") with
    | Some p, Some l =>
        match mapping !! p with
        | Some (m :: ms) => Typed (m :: ms) p l
        | _ => MissingModule
        end
    | _, _ => Skipped
    end.
Proof.
  unfold classify, str_field, get.
  destruct (d !! u "p") as [[| | | |[|? ?]| |]|];
    destruct (d !! u "l") as [[| | | |[|? ?]| |]|]; reflexivity.
Qed.

Lemma type_step_skipped base mapping d st :
  str_field d (u "p") = None ∨ str_field d (u "l") = None →
  type_step base mapping (PDict d) st = Ok st.
Proof.
  intros H. destruct st as [urls n]. unfold type_step.
  rewrite classify_fields.
  destruct H as [-> | ->]; [reflexivity|].
  destruct (str_field d (u "p")); reflexivity.
Qed.

Lemma type_step_missing base mapping d p l urls n :
  str_field d (u "p") = Some p → str_field d (u "l") = Some l →
  mapping !! p = None →
  type_step base mapping (PDict d) (urls, n) = Ok (urls, S n).
Proof.
  intros Hp Hl Hm. unfold type_step. rewrite classify_fields, Hp, Hl, Hm.
  reflexivity.
Qed.

Lemma type_step_typed base mapping d p l m ms urls n :
  str_field d (u "p") = Some p → str_field d (u "l") = Some l →
  mapping !! p = Some (m :: ms) →
  type_step base mapping (PDict d) (urls, n) =
    (let type_file := l ++ u ".html" in
     let type_dir := (m :: ms) ++ u "/" ++ package_path p in
     urls ← add_joined base (type_dir ++ u "/" ++ type_file) urls;
     urls ← add_joined base (type_dir ++ u "/class-use/" ++ type_file) urls;
     Ok (urls, n)).
Proof.
  intros Hp Hl Hm. unfold type_step. rewrite classify_fields, Hp, Hl, Hm.
  reflexivity.
Qed.

Lemma package_absent_dict mapping d :
  package_absent mapping (PDict d) =
    match str_field d (u "p") with
    | Some p => bool_decide (mapping !! p = None)
    | None => false
    end.
Proof. reflexivity. Qed.

Lemma absent_with_type_name_dict mapping d :
  absent_with_type_name mapping (PDict d) =
    match str_field d (u "l") with
    | Some _ => package_absent mapping (PDict d)
    | None => false
    end.
Proof. reflexivity. Qed.

(** The loop over the type index: the records with an absent package
    leave the URL set alone, and those of them with a type name are the
    ones counted. *)
Lemma type_loop base mapping : no_empty_module mapping →
  ∀ tindex urls n urls' n',
  for_each (type_step base mapping) tindex (urls, n) = Ok (urls', n') →
  n' = (n + length (List.filter (absent_with_type_name mapping) tindex))%nat
  ∧ ∀ k, for_each (type_step base mapping)
           (List.filter (fun e => negb (package_absent mapping e)) tindex)
           (urls, k) = Ok (urls', k).
Proof.
  intros Hne. induction tindex as [|e tindex IH]; intros urls n urls' n' H.
  - simpl in *. inversion H; subst. split; [lia | reflexivity].
  - cbn [for_each] in H. apply bind_Ok in H as ([urls1 n1] & Hstep & Hrest).
    destruct e as [| | | | | |d]; try discriminate.
    cbn [List.filter].
    rewrite absent_with_type_name_dict, package_absent_dict.
    destruct (str_field d (u "p")) as [p|] eqn:Ep;
      [destruct (str_field d (u "l")) as [l|] eqn:El |].
    + destruct (mapping !! p) as [[|m ms]|] eqn:Em.
      * exfalso. exact (Hne p Em).
      * rewrite bool_decide_eq_false_2 by congruence. cbn [negb].
        rewrite (type_step_typed base mapping d p l m ms) in Hstep
          by assumption.
        cbv zeta in Hstep.
        apply bind_Ok in Hstep as (u1 & Hu1 & Hstep).
        apply bind_Ok in Hstep as (u2 & Hu2 & Hstep).
        inversion Hstep; subst.
        destruct (IH _ _ _ _ Hrest) as (Hn & Hf). split; [exact Hn|].
        intros k. cbn [for_each].
        rewrite (type_step_typed base mapping d p l m ms) by assumption.
        cbv zeta. rewrite Hu1. cbn [mbind result_bind]. rewrite Hu2.
        cbn [mbind result_bind]. apply Hf.
      * rewrite bool_decide_eq_true_2 by reflexivity. cbn [negb length].
        rewrite (type_step_missing base mapping d p l) in Hstep by assumption.
        inversion Hstep; subst.
        destruct (IH _ _ _ _ Hrest) as (Hn & Hf). split; [lia | exact Hf].
    + rewrite type_step_skipped in Hstep by auto.
      inversion Hstep; subst.
      destruct (IH _ _ _ _ Hrest) as (Hn & Hf). split; [exact Hn|].
      destruct (bool_decide (mapping !! p = None)); cbn [negb]; [exact Hf|].
      intros k. cbn [for_each]. rewrite type_step_skipped by auto.
      simpl. apply Hf.
    + rewrite type_step_skipped in Hstep by auto.
      inversion Hstep; subst.
      destruct (IH _ _ _ _ Hrest) as (Hn & Hf). split.
      * destruct (str_field d (u "l")); exact Hn.
      * cbn [negb]. intros k. cbn [for_each].
        rewrite type_step_skipped by auto. simpl. apply Hf.
Qed.

(** ** [generate_seed_urls] *)

Lemma derive_Ok base pidx tindex html out n :
  derive_seed_urls base pidx tindex html = Ok (out, n) →
  ∃ entries u1 u2 u3 u4 urls,
    records pidx = Ok entries
    ∧ root_urls base ∅ = Ok u1
    ∧ index_urls base html u1 = Ok u2
    ∧ module_urls base (build_package_to_module entries) u2 = Ok u3
    ∧ package_urls base (build_package_to_module entries) u3 = Ok u4
    ∧ type_urls base (build_package_to_module entries) tindex u4 = Ok (urls, n)
    ∧ encode_all (sorted urls) = Ok out.
Proof.
  unfold derive_seed_urls, seed_url_set. intros H.
  apply bind_Ok in H as (entries & He & H).
  apply bind_Ok in H as ([urls n'] & Hs & H).
  apply bind_Ok in H as (enc & Henc & [= <- <-]).
  apply bind_Ok in Hs as (u1 & H1 & Hs). apply bind_Ok in Hs as (u2 & H2 & Hs).
  apply bind_Ok in Hs as (u3 & H3 & Hs). apply bind_Ok in Hs as (u4 & H4 & Hs).
  exists entries, u1, u2, u3, u4, urls. auto 10.
Qed.

Lemma generate_Ok base_url package_js type_js html out n :
  generate_seed_urls base_url package_js type_js html = Ok (out, n) →
  ∃ pidx tindex,
    parse_assigned_json_array package_js (u "packageSearchIndex") = Ok (PList pidx)
    ∧ parse_assigned_json_array type_js (u "typeSearchIndex") = Ok (PList tindex)
    ∧ derive_seed_urls (normalize_base base_url) pidx tindex html = Ok (out, n).
Proof.
  unfold generate_seed_urls. intros H.
  apply bind_Ok in H as (pidx & Hp & H). apply bind_Ok in H as (tindex & Ht & H).
  apply bind_Ok in Hp as (pv & Hp & Hpl). apply bind_Ok in Ht as (tv & Ht & Htl).
  destruct pv; try discriminate. destruct tv; try discriminate.
  inversion Hpl; inversion Htl; subst. eauto.
Qed.

Lemma example_run_eq :
  generate_seed_urls (u "https://example.com/docs/api") package_js_example
                     type_js_example (u "<html></html>")
  = Ok (example_out, example_missing).
Proof. vm_compute. reflexivity. Qed.











(** C9: a record of the type index whose package or type name is absent,
    empty or no string leaves the URL set and the counter as they are,
    and the whole derivation gives the same result with and without it;
    a record with both fields whose package the mapping does not have
    adds one to the counter. *)
Theorem invalid_type_records_ignored (base : list N)
    (mapping : gmap (list N) (list N)) :
  (∀ d st,
      invalid_field d (u "p") ∨ invalid_field d (u "l") →
      type_step base mapping (PDict d) st = Ok st)
  ∧ (∀ d package_index before after index_1_html,
      invalid_field d (u "p") ∨ invalid_field d (u "l") →
      derive_seed_urls base package_index (before ++ PDict d :: after)
                       index_1_html
      = derive_seed_urls base package_index (before ++ after) index_1_html)
  ∧ (∀ d package type_name urls missing_modules,
      d !! u "p" = Some (PStr package) → package ≠ [] →
      d !! u "l" = Some (PStr type_name) → type_name ≠ [] →
      mapping !! package = None →
      type_step base mapping (PDict d) (urls, missing_modules)
      = Ok (urls, S missing_modules)).
Proof.
  split; [|split].
  - intros d st H. apply type_step_skipped.
    destruct H as [H|H]; apply invalid_field_str_field in H; auto.
  - intros d pidx before after html H.
    unfold derive_seed_urls, seed_url_set, type_urls.
    destruct (records pidx) as [entries|e]; [|reflexivity].
    cbn [mbind result_bind].
    destruct (root_urls base ∅) as [u1|e]; [|reflexivity].
    cbn [mbind result_bind].
    destruct (index_urls base html u1) as [u2|e]; [|reflexivity].
    cbn [mbind result_bind].
    destruct (module_urls base _ u2) as [u3|e]; [|reflexivity].
    cbn [mbind result_bind].
    destruct (package_urls base _ u3) as [u4|e]; [|reflexivity].
    cbn [mbind result_bind].
    rewrite for_each_skip; [reflexivity|].
    intros st. apply type_step_skipped.
    destruct H as [H|H]; apply invalid_field_str_field in H; auto.
  - intros d package type_name urls k Hp Hpn Hl Hln Hm.
    apply (type_step_missing base mapping d package type_name); [| |exact Hm].
    + unfold str_field. rewrite Hp. destruct package; done.
    + unfold str_field. rewrite Hl. destruct type_name; done.
Qed.

(** C9 on the same two records: the one with the empty type name leaves
    the counter at 7, the other one moves it to 8. *)
Lemma invalid_type_records_ignored_witness :
  type_step base_example (build_package_to_module entries_example)
            no_such_untyped (∅, 7%nat) = Ok (∅, 7%nat)
  ∧ type_step base_example (build_package_to_module entries_example)
              no_such_typed (∅, 7%nat) = Ok (∅, 8%nat).
Proof.
  pose proof (invalid_type_records_ignored base_example
                (build_package_to_module entries_example)) as (H1 & _ & H3).
  split.
  - apply H1. right. vm_compute. exact I.
  - apply (H3 _ (u "no.such") (u "Widget")); try (vm_compute; reflexivity);
      discriminate.
Defined.

(** * Further properties of the code *)

(** ** Splitting and joining at a separator *)

Lemma split_free c w : free_of c w = true → split c w = [w].
Proof.
  induction w as [|x w IH]; simpl; [done|]. intros H.
  apply andb_prop in H as [Hx Hw]. apply negb_true_iff in Hx.
  rewrite Hx, (IH Hw). reflexivity.
Qed.

Lemma split_app_sep c w s :
  free_of c w = true → split c (w ++ c :: s) = w :: split c s.
Proof.
  induction w as [|x w IH]; simpl; intros H.
  - by rewrite N.eqb_refl.
  - apply andb_prop in H as [Hx Hw]. apply negb_true_iff in Hx.
    rewrite Hx, (IH Hw). reflexivity.
Qed.

Lemma split_join c segs :
  segs ≠ [] → Forall (fun w => free_of c w = true) segs →
  split c (join c segs) = segs.
Proof.
  induction segs as [|w segs IH]; [done|]. intros _ H.
  apply Forall_cons in H as [Hw Hs].
  destruct segs as [|w' segs]; [by apply split_free|].
  change (join c (w :: w' :: segs)) with (w ++ c :: join c (w' :: segs)).
  rewrite split_app_sep by done. f_equal. by apply IH.
Qed.

Lemma split_dir_path dirs :
  Forall (fun w => free_of 47 w = true) dirs →
  split 47 (dir_path dirs) = [] :: dirs ++ [[]].
Proof.
  intros H. unfold dir_path.
  change (47 :: ?l) with ([] ++ 47 :: l). rewrite split_app_sep by done.
  f_equal. induction H as [|w dirs Hw H IH]; [reflexivity|].
  cbn [List.map List.concat]. rewrite <- app_assoc. cbn [app].
  rewrite split_app_sep by done. by rewrite IH.
Qed.

Lemma join_dir_path dirs segs :
  segs ≠ [] → join 47 ([] :: dirs ++ segs) = dir_path dirs ++ join 47 segs.
Proof.
  intros Hs. unfold dir_path.
  assert (∀ l, l ≠ [] → join 47 ([] :: l) = 47 :: join 47 l) as Hj.
  { intros [|x l] Hl; [done | reflexivity]. }
  rewrite Hj by (destruct dirs, segs; done). cbn [app]. f_equal.
  induction dirs as [|d dirs IH]; [reflexivity|].
  cbn [List.map List.concat app]. rewrite <- !app_assoc. cbn [app].
  rewrite <- IH. destruct (dirs ++ segs) eqn:E; [|reflexivity].
  destruct dirs, segs; done.
Qed.

Lemma eqb_eq a : ∀ b, Str.eqb a b = true ↔ a = b.
Proof.
  induction a as [|x a IH]; intros [|y b]; simpl; try done.
  rewrite andb_true_iff, N.eqb_eq, IH. split; [intros [-> ->]; done|].
  intros [= -> ->]. done.
Qed.

Lemma eqb_refl a : Str.eqb a a = true.
Proof. by apply eqb_eq. Qed.

Lemma plain_segment_inv w :
  plain_segment w = true →
  w ≠ [] ∧ forallb unreserved w = true ∧ w ≠ u "." ∧ w ≠ u "..".
Proof.
  unfold plain_segment. intros H.
  apply andb_prop in H as [H H4]. apply andb_prop in H as [H H3].
  apply andb_prop in H as [H1 H2].
  apply negb_true_iff in H1, H3, H4.
  repeat split; [| done | |]; intros E; apply eqb_eq in E; congruence.
Qed.

Lemma unreserved_path_char c : unreserved c = true → path_char c = true.
Proof. unfold path_char. intros ->. reflexivity. Qed.

Lemma unreserved_not c x :
  unreserved c = true → x = 47 ∨ x = 58 ∨ x = 59 ∨ x = 35 ∨ x = 63 →
  negb (c =? x) = true.
Proof.
  intros H Hx. apply negb_true_iff, N.eqb_neq.
  char_test; subst; intuition (subst; try lia; try done).
Qed.

Lemma plain_segment_free w x :
  plain_segment w = true → x = 47 ∨ x = 58 ∨ x = 59 ∨ x = 35 ∨ x = 63 →
  free_of x w = true.
Proof.
  intros H Hx. apply plain_segment_inv in H as (_ & H & _).
  revert H. apply forallb_impl. intros c Hc. by apply unreserved_not.
Qed.

Lemma last_app_cons {A} (l : list A) x l' d :
  List.last (l ++ x :: l') d = List.last (x :: l') d.
Proof.
  induction l as [|y l IH]; [reflexivity|].
  cbn [app]. rewrite <- IH. destruct (l ++ x :: l') eqn:E; [|reflexivity].
  by destruct l.
Qed.

(** The inner empty segments are dropped: here the one that ends the
    base path. *)
Lemma drop_empty_inner_dir dirs segs :
  Forall (fun w => w ≠ []) dirs → Forall (fun w => w ≠ []) segs → segs ≠ [] →
  drop_empty_inner (([] :: dirs ++ [[]]) ++ segs) = [] :: dirs ++ segs.
Proof.
  intros Hd Hs Hne. unfold drop_empty_inner.
  cbn [app]. rewrite <- app_assoc. cbn [app].
  destruct (dirs ++ [] :: segs) as [|x l] eqn:E; [by destruct dirs|].
  rewrite <- E. clear x l E. f_equal.
  assert (List.last (dirs ++ [] :: segs) [] = List.last segs []) as ->.
  { rewrite last_app_cons. destruct segs; [done|]. reflexivity. }
  assert (removelast (dirs ++ [] :: segs) = dirs ++ [] :: removelast segs) as ->.
  { rewrite removelast_app by done. destruct segs; [done|]. reflexivity. }
  rewrite List.filter_app. cbn [List.filter Str.eqb negb].
  assert (∀ l, Forall (fun w => w ≠ []) l →
            List.filter (fun w => negb (Str.eqb w [])) l = l) as Hf.
  { induction 1 as [|w l Hw Hl IH]; [done|]. cbn [List.filter].
    destruct w; [done|]. cbn [Str.eqb negb]. by rewrite IH. }
  rewrite (Hf dirs Hd).
  assert (Forall (fun w => w ≠ []) (removelast segs)) as Hr.
  { rewrite Forall_forall in *. intros w Hw. apply Hs.
    rewrite (app_removelast_last [] Hne). apply elem_of_app. by left. }
  rewrite (Hf _ Hr). rewrite <- app_assoc. f_equal.
  symmetry. by apply app_removelast_last.
Qed.

Lemma resolve_plain segs :
  Forall (fun w => w ≠ u "." ∧ w ≠ u "..") segs → resolve segs = segs.
Proof.
  unfold resolve. intros H.
  assert (∀ acc, foldl (fun resolved seg =>
           if Str.eqb seg (u "..") then removelast resolved
           else if Str.eqb seg (u ".") then resolved
           else resolved ++ [seg]) acc segs = acc ++ segs) as Hg.
  { induction H as [|w l [H1 H2] Hl IH]; intros acc; cbn [foldl].
    - by rewrite app_nil_r.
    - destruct (Str.eqb w (u "..")) eqn:E2; [by apply eqb_eq in E2|].
      destruct (Str.eqb w (u ".")) eqn:E1; [by apply eqb_eq in E1|].
      rewrite IH, <- app_assoc. reflexivity. }
  apply (Hg []).
Qed.

Lemma lstrip_none f s :
  forallb (fun c => negb (f c)) s = true → lstrip f s = s.
Proof.
  destruct s as [|c s]; [done|]. simpl. intros H.
  apply andb_prop in H as [Hc _]. apply negb_true_iff in Hc. by rewrite Hc.
Qed.

Lemma rstrip_none f s :
  forallb (fun c => negb (f c)) s = true → rstrip f s = s.
Proof.
  intros H. unfold rstrip. rewrite lstrip_none; [apply rev_involutive|].
  rewrite forallb_forall in *. intros x Hx. apply H. by apply in_rev.
Qed.

Lemma scheme_low_not_c0 c :
  scheme_low c = true → negb (c0_control_or_space c) = true.
Proof. unfold scheme_low. intros H. char_test; subst; try lia; done. Qed.

Lemma path_char_not_c0 c :
  path_char c = true → negb (c0_control_or_space c) = true.
Proof. unfold path_char. intros H. char_test; subst; try lia; done. Qed.

Lemma lower_scheme_low sch :
  lower_scheme sch = true → forallb scheme_low sch = true.
Proof.
  unfold lower_scheme. destruct sch; [done|]. intros H.
  by apply andb_prop in H as [_ H].
Qed.

(** The text after the scheme does not begin with two slashes. *)
Lemma no_netloc_part (c : N) (tl : list N) :
  (c =? 47) = false →
  match c :: tl with
  | 47 :: 47 :: rest => span (fun c => negb (mem c (u "/?#"))) rest
  | _ => ([], c :: tl)
  end = ([], c :: tl).
Proof.
  intros Hc. destruct c as [|p]; [done|].
  repeat (destruct p as [p|p|]; try done).
Qed.

(** [urlsplit] on a relative path of unreserved characters and slashes
    that begins with no slash. *)
Lemma urlsplit_relative rel sch :
  lower_scheme sch = true → forallb path_char rel = true →
  match rel with c :: _ => (c =? 47) = false | [] => True end →
  urlsplit rel sch = Ok (SplitResult sch [] rel [] []).
Proof.
  intros Hs Hp Hc. unfold urlsplit.
  rewrite (lstrip_none _ rel)
    by (revert Hp; apply forallb_impl, path_char_not_c0).
  rewrite (remove_unsafe_id rel)
    by (revert Hp; apply forallb_impl, path_char_kept).
  pose proof (lower_scheme_low sch Hs) as Hl.
  rewrite (lstrip_none _ sch)
    by (revert Hl; apply forallb_impl, scheme_low_not_c0).
  rewrite (rstrip_none _ sch)
    by (revert Hl; apply forallb_impl, scheme_low_not_c0).
  rewrite (remove_unsafe_id sch) by (by apply lower_scheme_kept).
  assert (partition 58 rel = None) as Hno.
  { apply partition_None. revert Hp. apply forallb_impl. intros c H.
    apply negb_true_iff, N.eqb_neq. unfold path_char in H.
    char_test; subst; try lia; done. }
  assert (split_scheme rel = None) as ->.
  { unfold split_scheme. destruct rel; [done|]. by rewrite Hno. }
  assert (match rel with
          | 47 :: 47 :: rest => span (fun c => negb (mem c (u "/?#"))) rest
          | _ => ([], rel)
          end = ([], rel)) as ->.
  { destruct rel as [|c tl]; [done|]. by apply no_netloc_part. }
  rewrite (partition_None 35 rel)
    by (revert Hp; apply forallb_impl; intros c H; apply path_char_not; auto).
  rewrite (partition_None 63 rel)
    by (revert Hp; apply forallb_impl; intros c H; apply path_char_not; auto).
  reflexivity.
Qed.

Lemma uses_relative_netloc sch :
  member sch uses_relative = true → member sch uses_netloc = true.
Proof.
  unfold member at 1. intros H. apply existsb_exists in H as (x & Hin & E).
  apply eqb_eq in E as ->. simpl in Hin.
  repeat (destruct Hin as [<-|Hin]; [vm_compute; reflexivity|]). done.
Qed.

Lemma urljoin_nonempty base url :
  base ≠ [] → url ≠ [] →
  urljoin base url =
    ('(b, bparams) ← urlparse base [];
     '(r, params) ← urlparse url (scheme b);
     if negb (Str.eqb (scheme r) (scheme b))
        || negb (member (scheme r) uses_relative)
     then Ok url
     else if member (scheme r) uses_netloc
               && negb (Str.eqb (netloc r) [])
     then Ok (urlunparse r params)
     else
       let net := if member (scheme r) uses_netloc then netloc b else netloc r in
       match path r, params with
       | [], [] =>
           let qry := match query r with [] => query b | qr => qr end in
           Ok (urlunparse (SplitResult (scheme r) net (path b) qry (fragment r))
                          bparams)
       | _, _ =>
           let base_parts := split 47 (path b) in
           let base_parts :=
             match List.last base_parts [] with
             | [] => base_parts
             | _ => removelast base_parts
             end in
           let segments :=
             match path r with
             | 47 :: _ => split 47 (path r)
             | _ => drop_empty_inner (base_parts ++ split 47 (path r))
             end in
           let resolved := resolve segments in
           let resolved :=
             if Str.eqb (List.last segments []) (u ".")
                || Str.eqb (List.last segments []) (u "..")
             then resolved ++ [[]] else resolved in
           let joined := match join 47 resolved with [] => [47] | j => j end in
           Ok (urlunparse (SplitResult (scheme r) net joined (query r)
                                       (fragment r)) params)
       end).
Proof. destruct base, url; done. Qed.

Lemma dir_path_chars dirs :
  Forall (fun w => plain_segment w = true) dirs →
  forallb path_char (dir_path dirs) = true.
Proof.
  intros H. unfold dir_path. cbn [forallb]. change (path_char 47) with true.
  cbn [andb]. induction H as [|w dirs Hw H IH]; [done|].
  cbn [List.map List.concat]. rewrite !forallb_app, IH.
  apply plain_segment_inv in Hw as (_ & Hw & _).
  rewrite (forallb_impl _ _ w unreserved_path_char Hw). reflexivity.
Qed.

Lemma join_chars segs :
  Forall (fun w => plain_segment w = true) segs →
  forallb path_char (join 47 segs) = true.
Proof.
  induction 1 as [|w segs Hw H IH]; [done|].
  apply plain_segment_inv in Hw as (_ & Hw & _).
  pose proof (forallb_impl _ _ w unreserved_path_char Hw) as Hp.
  destruct segs as [|w' segs]; [exact Hp|].
  change (join 47 (w :: w' :: segs)) with (w ++ 47 :: join 47 (w' :: segs)).
  rewrite forallb_app, Hp. cbn [forallb andb]. exact IH.
Qed.

Lemma join_head segs :
  Forall (fun w => plain_segment w = true) segs → segs ≠ [] →
  ∃ c tl, join 47 segs = c :: tl ∧ (c =? 47) = false.
Proof.
  intros H Hne. destruct segs as [|w segs]; [done|].
  apply Forall_cons in H as [Hw _].
  apply plain_segment_inv in Hw as (Hw & Hu & _).
  destruct w as [|c w]; [done|]. exists c.
  simpl in Hu. apply andb_prop in Hu as [Hc _].
  pose proof (unreserved_not c 47 Hc ltac:(auto)) as Hn.
  apply negb_true_iff in Hn.
  destruct segs; eexists; (split; [reflexivity | exact Hn]).
Qed.

Lemma urlparse_dir_url sch net dirs :
  lower_scheme sch = true → forallb netloc_char net = true →
  Forall (fun w => plain_segment w = true) dirs →
  urlparse (dir_url sch net dirs) []
  = Ok (SplitResult sch net (dir_path dirs) [] [], []).
Proof.
  intros Hs Hn Hd. unfold urlparse, dir_url.
  pose proof (dir_path_chars dirs Hd) as Hp.
  rewrite (urlsplit_absolute sch net (dir_path dirs) Hs Hn) by reflexivity.
  cbv zeta.
  rewrite (remove_unsafe_id (dir_path dirs))
    by (revert Hp; apply forallb_impl, path_char_kept).
  rewrite (partition_None 35 (dir_path dirs))
    by (revert Hp; apply forallb_impl; intros c Hc; apply path_char_not; auto).
  rewrite (partition_None 63 (dir_path dirs))
    by (revert Hp; apply forallb_impl; intros c Hc; apply path_char_not; auto).
  cbn [mbind result_bind scheme path].
  assert (mem 59 (dir_path dirs) = false) as ->.
  { apply mem_false_forallb. revert Hp. apply forallb_impl. intros c Hc.
    apply negb_true_iff, N.eqb_neq. unfold path_char in Hc.
    char_test; subst; try lia; done. }
  rewrite andb_false_r. reflexivity.
Qed.

Lemma urlparse_relative rel sch :
  lower_scheme sch = true → forallb path_char rel = true →
  match rel with c :: _ => (c =? 47) = false | [] => True end →
  urlparse rel sch = Ok (SplitResult sch [] rel [] [], []).
Proof.
  intros Hs Hp Hc. unfold urlparse.
  rewrite (urlsplit_relative rel sch Hs Hp Hc).
  cbn [mbind result_bind scheme path].
  assert (mem 59 rel = false) as ->.
  { apply mem_false_forallb. revert Hp. apply forallb_impl. intros c H.
    apply negb_true_iff, N.eqb_neq. unfold path_char in H.
    char_test; subst; try lia; done. }
  rewrite andb_false_r. reflexivity.
Qed.

Lemma Forall_last {A} (P : A → Prop) l d :
  Forall P l → l ≠ [] → P (List.last l d).
Proof.
  induction 1 as [|x l Hx Hl IH]; [done|]. intros _.
  destruct l as [|y l]; [exact Hx|]. apply IH. done.
Qed.

Lemma not_rooted {A} (c : N) (tl : list N) (a b : A) :
  (c =? 47) = false →
  match c :: tl with 47 :: _ => a | _ => b end = b.
Proof.
  intros Hc. destruct c as [|p]; [done|].
  repeat (destruct p as [p|p|]; try done).
Qed.

(** Joining a relative path of plain segments to the URL of a directory
    appends it. *)
Lemma urljoin_plain sch net dirs segs :
  lower_scheme sch = true → member sch uses_relative = true →
  net ≠ [] → forallb netloc_char net = true →
  Forall (fun w => plain_segment w = true) dirs →
  Forall (fun w => plain_segment w = true) segs → segs ≠ [] →
  urljoin (dir_url sch net dirs) (join 47 segs)
  = Ok (dir_url sch net dirs ++ join 47 segs).
Proof.
  intros Hs Hrel Hne Hn Hd Hg Hsegs.
  destruct (join_head segs Hg Hsegs) as (c & tl & Ej & Hc).
  rewrite urljoin_nonempty;
    [| unfold dir_url; destruct sch; done | rewrite Ej; done].
  rewrite (urlparse_dir_url sch net dirs Hs Hn Hd).
  cbn [mbind result_bind scheme].
  rewrite (urlparse_relative (join 47 segs) sch Hs (join_chars segs Hg))
    by (rewrite Ej; exact Hc).
  cbn [mbind result_bind scheme netloc path query fragment].
  rewrite eqb_refl, Hrel, (uses_relative_netloc sch Hrel).
  cbn [negb orb andb Str.eqb]. cbv zeta.
  rewrite Ej at 1. cbv iota.
  assert (Forall (fun w => free_of 47 w = true) dirs) as Hfd.
  { eapply Forall_impl; [exact Hd|]. intros w Hw.
    apply plain_segment_free; auto. }
  assert (Forall (fun w => free_of 47 w = true) segs) as Hfs.
  { eapply Forall_impl; [exact Hg|]. intros w Hw.
    apply plain_segment_free; auto. }
  match goal with |- context [List.last ?S []] =>
    assert (HS : S = [] :: dirs ++ segs) end.
  { rewrite (split_dir_path dirs Hfd), (split_join 47 segs Hsegs Hfs).
    rewrite Ej, (not_rooted c tl _ _ Hc).
    assert (List.last ([] :: dirs ++ [[]]) [] = []) as ->.
    { change ([] :: dirs ++ [[]]) with (([] :: dirs) ++ [[]]).
      by rewrite last_app_cons. }
    apply drop_empty_inner_dir; [| | exact Hsegs].
    - eapply Forall_impl; [exact Hd|]. intros w Hw.
      by apply plain_segment_inv in Hw as (? & _).
    - eapply Forall_impl; [exact Hg|]. intros w Hw.
      by apply plain_segment_inv in Hw as (? & _). }
  rewrite !HS.
  assert (Hlast : plain_segment (List.last ([] :: dirs ++ segs) []) = true).
  { destruct segs as [|s0 segs'] eqn:Es; [done|].
    change ([] :: dirs ++ s0 :: segs') with (([] :: dirs) ++ s0 :: segs').
    rewrite last_app_cons. by apply (Forall_last _ _ _ Hg). }
  apply plain_segment_inv in Hlast as (_ & _ & Hl1 & Hl2).
  destruct (Str.eqb (List.last ([] :: dirs ++ segs) []) (u ".")) eqn:E1;
    [by apply eqb_eq in E1|].
  destruct (Str.eqb (List.last ([] :: dirs ++ segs) []) (u "..")) eqn:E2;
    [by apply eqb_eq in E2|].
  cbn [orb].
  rewrite resolve_plain.
  2:{ constructor; [split; discriminate|]. apply Forall_app. split.
      - eapply Forall_impl; [exact Hd|]. intros w Hw.
        by apply plain_segment_inv in Hw as (_ & _ & ? & ?).
      - eapply Forall_impl; [exact Hg|]. intros w Hw.
        by apply plain_segment_inv in Hw as (_ & _ & ? & ?). }
  rewrite (join_dir_path dirs segs Hsegs).
  unfold dir_path at 1. cbn [app]. unfold urlunparse, urlunsplit.
  cbn [scheme netloc path query fragment].
  destruct net as [|n0 net]; [done|]. destruct sch as [|s0 sch]; [done|].
  unfold dir_url, dir_path. change (u "//") with [47; 47].
  change (u "://") with [58; 47; 47]. f_equal.
  rewrite <- ?app_assoc. cbn [app]. rewrite <- ?app_assoc. reflexivity.
Qed.

(** ** The URL set, exactly *)

Lemma for_each_add_exact base {A} (f : A → list N) xs : ∀ urls urls',
  for_each (fun x => add_joined base (f x)) xs urls = Ok urls' →
  ∀ url, url ∈ urls' ↔
    url ∈ urls ∨ ∃ rel, rel ∈ List.map f xs ∧ urljoin base rel = Ok url.
Proof.
  induction xs as [|x xs IH]; intros urls urls' H url; cbn [for_each] in H.
  - inversion H; subst. cbn [List.map]. split; [auto|].
    intros [?|(rel & Hr & _)]; [done | by apply elem_of_nil in Hr].
  - apply bind_Ok in H as (urls1 & H1 & H).
    apply add_joined_Ok in H1 as (url1 & Hu & ->).
    rewrite (IH _ _ H url). cbn [List.map]. split.
    + intros [Hin | (rel & Hr & Hj)].
      * apply elem_of_union in Hin as [Hin|Hin]; [|auto].
        apply elem_of_singleton in Hin as ->. right. exists (f x).
        split; [apply elem_of_cons; auto | done].
      * right. exists rel. split; [apply elem_of_cons; auto | done].
    + intros [Hin | (rel & Hr & Hj)].
      * left. apply elem_of_union. auto.
      * apply elem_of_cons in Hr as [-> | Hr].
        -- left. apply elem_of_union. left. apply elem_of_singleton. congruence.
        -- right. eauto.
Qed.

Lemma for_each_rels_exact (base : list N) {A} (step : A → gset (list N) → result (gset (list N)))
    (rels : A → list (list N)) :
  (∀ x urls urls', step x urls = Ok urls' →
     ∀ url, url ∈ urls' ↔
       url ∈ urls ∨ ∃ rel, rel ∈ rels x ∧ urljoin base rel = Ok url) →
  ∀ xs urls urls', for_each step xs urls = Ok urls' →
  ∀ url, url ∈ urls' ↔
    url ∈ urls ∨ ∃ rel, rel ∈ List.flat_map rels xs ∧ urljoin base rel = Ok url.
Proof.
  intros Hstep. induction xs as [|x xs IH]; intros urls urls' H url;
    cbn [for_each] in H.
  - inversion H; subst. cbn [List.flat_map]. split; [auto|].
    intros [?|(rel & Hr & _)]; [done | by apply elem_of_nil in Hr].
  - apply bind_Ok in H as (urls1 & H1 & H).
    rewrite (IH _ _ H url), (Hstep _ _ _ H1 url). cbn [List.flat_map].
    split.
    + intros [[Hin | (rel & Hr & Hj)] | (rel & Hr & Hj)]; [auto | |];
        right; exists rel; (split; [apply elem_of_app; auto | done]).
    + intros [Hin | (rel & Hr & Hj)]; [auto|].
      apply elem_of_app in Hr as [Hr|Hr]; [left; right | right]; eauto.
Qed.

Lemma package_step_exact base item urls urls' :
  package_step base item urls = Ok urls' →
  ∀ url, url ∈ urls' ↔
    url ∈ urls ∨ ∃ rel, rel ∈ package_rels item ∧ urljoin base rel = Ok url.
Proof.
  destruct item as [package module]. unfold package_step, package_rels.
  intros H url.
  apply bind_Ok in H as (u1 & H1 & H). apply bind_Ok in H as (u2 & H2 & H).
  apply add_joined_Ok in H1 as (x1 & Hx1 & ->).
  apply add_joined_Ok in H2 as (x2 & Hx2 & ->).
  apply add_joined_Ok in H as (x3 & Hx3 & ->).
  rewrite !elem_of_union, !elem_of_singleton. split.
  - intros [-> | [-> | [-> | Hin]]]; [| | | auto]; right; eexists;
      (split; [|eassumption]); repeat constructor.
  - intros [Hin | (rel & Hr & Hj)]; [auto|].
    repeat (apply elem_of_cons in Hr as [-> | Hr]);
      [| | | by apply elem_of_nil in Hr]; rewrite Hj in *; naive_solver.
Qed.

Lemma type_rels_classify mapping d :
  no_empty_module mapping →
  type_rels mapping (PDict d) =
    match classify mapping d with
    | Typed module package type_name =>
        let type_file := type_name ++ u ".html" in
        let type_dir := module ++ u "/" ++ package_path package in
        [type_dir ++ u "/" ++ type_file; type_dir ++ u "/class-use/" ++ type_file]
    | _ => []
    end.
Proof.
  intros Hne. unfold type_rels. rewrite classify_fields.
  destruct (str_field d (u "p")) as [p|]; [|reflexivity].
  destruct (str_field d (u "l")) as [l|]; [|reflexivity].
  destruct (mapping !! p) as [[|m ms]|] eqn:Em; [by apply Hne in Em | |]; reflexivity.
Qed.

Lemma type_step_exact base mapping e urls n urls' n' :
  no_empty_module mapping →
  type_step base mapping e (urls, n) = Ok (urls', n') →
  ∀ url, url ∈ urls' ↔
    url ∈ urls ∨ ∃ rel, rel ∈ type_rels mapping e ∧ urljoin base rel = Ok url.
Proof.
  intros Hne H url. destruct e as [| | | | | |d]; try done.
  rewrite (type_rels_classify mapping d Hne). unfold type_step in H.
  destruct (classify mapping d) as [| |m p t].
  - inversion H; subst. split; [auto|].
    intros [?|(rel & Hr & _)]; [done | by apply elem_of_nil in Hr].
  - inversion H; subst. split; [auto|].
    intros [?|(rel & Hr & _)]; [done | by apply elem_of_nil in Hr].
  - cbv zeta in *.
    apply bind_Ok in H as (u1 & H1 & H). apply bind_Ok in H as (u2 & H2 & H).
    inversion H; subst.
    apply add_joined_Ok in H1 as (x1 & Hx1 & ->).
    apply add_joined_Ok in H2 as (x2 & Hx2 & ->).
    rewrite !elem_of_union, !elem_of_singleton. split.
    + intros [-> | [-> | Hin]]; [| | auto]; right; eexists;
        (split; [|eassumption]); repeat constructor.
    + intros [Hin | (rel & Hr & Hj)]; [auto|].
      repeat (apply elem_of_cons in Hr as [-> | Hr]);
        [| | by apply elem_of_nil in Hr]; rewrite Hj in *; naive_solver.
Qed.

Lemma type_urls_exact base mapping tindex : no_empty_module mapping →
  ∀ urls n urls' n',
  for_each (type_step base mapping) tindex (urls, n) = Ok (urls', n') →
  ∀ url, url ∈ urls' ↔
    url ∈ urls ∨ ∃ rel, rel ∈ List.flat_map (type_rels mapping) tindex
                       ∧ urljoin base rel = Ok url.
Proof.
  intros Hne. induction tindex as [|e tindex IH]; intros urls n urls' n' H url;
    cbn [for_each] in H.
  - inversion H; subst. cbn [List.flat_map]. split; [auto|].
    intros [?|(rel & Hr & _)]; [done | by apply elem_of_nil in Hr].
  - apply bind_Ok in H as ([urls1 n1] & H1 & H).
    rewrite (IH _ _ _ _ H url), (type_step_exact _ _ _ _ _ _ _ Hne H1 url).
    cbn [List.flat_map]. split.
    + intros [[Hin | (rel & Hr & Hj)] | (rel & Hr & Hj)]; [auto | |];
        right; exists rel; (split; [apply elem_of_app; auto | done]).
    + intros [Hin | (rel & Hr & Hj)]; [auto|].
      apply elem_of_app in Hr as [Hr|Hr]; [left; right | right]; eauto.
Qed.

Lemma seed_url_set_exact base mapping tindex html urls n :
  no_empty_module mapping →
  seed_url_set base mapping tindex html = Ok (urls, n) →
  ∀ url, url ∈ urls ↔
    ∃ rel, rel ∈ seed_rels mapping tindex html ∧ urljoin base rel = Ok url.
Proof.
  intros Hne H url. unfold seed_url_set in H.
  apply bind_Ok in H as (u1 & H1 & H). apply bind_Ok in H as (u2 & H2 & H).
  apply bind_Ok in H as (u3 & H3 & H). apply bind_Ok in H as (u4 & H4 & H).
  unfold type_urls in H.
  rewrite (type_urls_exact _ _ _ Hne _ _ _ _ H url).
  unfold package_urls in H4.
  rewrite (for_each_rels_exact base _ _ (package_step_exact base) _ _ _ H4 url).
  unfold module_urls in H3. rewrite (for_each_add_exact _ _ _ _ _ H3 url).
  unfold index_urls in H2. rewrite (for_each_add_exact _ _ _ _ _ H2 url).
  unfold root_urls in H1.
  rewrite (for_each_add_exact base (fun x => x) _ _ _ H1 url).
  rewrite List.map_id. unfold seed_rels. split.
  - intros [[[[[Hin | (rel & Hr & Hj)] | (rel & Hr & Hj)] | (rel & Hr & Hj)]
             | (rel & Hr & Hj)] | (rel & Hr & Hj)];
      [by apply elem_of_empty in Hin | | | | |]; exists rel;
      (split; [|done]); rewrite !elem_of_app; auto 10.
  - intros (rel & Hr & Hj). rewrite !elem_of_app in Hr.
    destruct Hr as [Hr | [Hr | [Hr | [Hr | Hr]]]]; eauto 10.
Qed.

Lemma encode_all_line raw out line :
  encode_all raw = Ok out →
  line ∈ out ↔ ∃ url, url ∈ raw ∧ encode_url url = Ok line.
Proof.
  intros H. apply encode_all_Forall2 in H.
  induction H as [|x e raw out Hx H IH].
  - split; [intros Hl; by apply elem_of_nil in Hl|].
    intros (url & Hu & _). by apply elem_of_nil in Hu.
  - rewrite elem_of_cons, IH. split.
    + intros [-> | (url & Hu & He)]; [exists x | exists url];
        (split; [apply elem_of_cons; auto | done]).
    + intros (url & Hu & He). apply elem_of_cons in Hu as [-> | Hu].
      * left. congruence.
      * right. eauto.
Qed.

(** The output holds the encodings of the joined relative paths of the
    run, and nothing else. *)
Lemma derive_lines_exact base package_index entries type_index
    index_1_html out n :
  records package_index = Ok entries →
  derive_seed_urls base package_index type_index index_1_html = Ok (out, n) →
  ∀ line, line ∈ out ↔
    ∃ rel url,
      rel ∈ seed_rels (build_package_to_module entries) type_index index_1_html
      ∧ urljoin base rel = Ok url ∧ encode_url url = Ok line.
Proof.
  intros Hrec H line. unfold derive_seed_urls in H. rewrite Hrec in H.
  cbn [mbind result_bind] in H.
  apply bind_Ok in H as ([urls n'] & Hs & H).
  apply bind_Ok in H as (enc & Henc & [= <- <-]).
  rewrite (encode_all_line _ _ line Henc). split.
  - intros (url & Hu & He). apply elem_of_sorted in Hu.
    apply (seed_url_set_exact _ _ _ _ _ _ (build_no_empty_module entries) Hs)
      in Hu as (rel & Hr & Hj). eauto.
  - intros (rel & url & Hr & Hj & He). exists url. split; [|done].
    apply elem_of_sorted.
    apply (seed_url_set_exact _ _ _ _ _ _ (build_no_empty_module entries) Hs).
    eauto.
Qed.



(** ** The order of the type index *)

Lemma type_step_effect base mapping e urls n :
  type_step base mapping e (urls, n) =
    ('(s, k) ← type_effect base mapping e; Ok (s ∪ urls, (k + n)%nat)).
Proof.
  unfold type_effect, type_step. destruct e as [| | | | | |d]; try reflexivity.
  destruct (classify mapping d) as [| |m p t]; cbn [mbind result_bind].
  - by rewrite (left_id_L ∅ (∪)).
  - by rewrite (left_id_L ∅ (∪)).
  - cbv zeta. unfold add_joined.
    repeat match goal with
    | |- context [urljoin base ?r] =>
        let j := fresh "j" in generalize (urljoin base r); intros j
    end.
    destruct j as [x1|], j0 as [x2|]; cbn [mbind result_bind]; try done.
    f_equal. f_equal. set_solver.
Qed.

Lemma type_loop_swap base mapping x y st st2 :
  (st1 ← type_step base mapping y st; type_step base mapping x st1) = Ok st2 →
  (st1 ← type_step base mapping x st; type_step base mapping y st1) = Ok st2.
Proof.
  destruct st as [urls n]. intros H.
  apply bind_Ok in H as ([u1 n1] & Hy & Hx).
  rewrite type_step_effect in Hy, Hx.
  destruct (type_effect base mapping y) as [[sy ky]|] eqn:Ey; [|done].
  destruct (type_effect base mapping x) as [[sx kx]|] eqn:Ex; [|done].
  cbn [mbind result_bind] in Hy, Hx.
  injection Hy as <- <-. injection Hx as <-.
  rewrite type_step_effect, Ex. cbn [mbind result_bind].
  rewrite type_step_effect, Ey. cbn [mbind result_bind].
  f_equal. f_equal; [set_solver | lia].
Qed.

Lemma type_loop_perm base mapping l l' :
  l ≡ₚ l' → ∀ st st',
  for_each (type_step base mapping) l st = Ok st' →
  for_each (type_step base mapping) l' st = Ok st'.
Proof.
  induction 1 as [|x l l' Hp IH|x y l|l l' l'' Hp IH Hp' IH'];
    intros st st' H; cbn [for_each] in *.
  - exact H.
  - apply bind_Ok in H as (st1 & H1 & H). rewrite H1. cbn [mbind result_bind].
    by apply IH.
  - apply bind_Ok in H as (st1 & H1 & H). apply bind_Ok in H as (st2 & H2 & H).
    assert ((s ← type_step base mapping x st; type_step base mapping y s)
            = Ok st2) as Hs.
    { apply type_loop_swap. rewrite H1. exact H2. }
    apply bind_Ok in Hs as (st1' & H1' & H2'). rewrite H1'.
    cbn [mbind result_bind]. rewrite H2'. exact H.
  - eauto.
Qed.



(** ** [normalize_base] *)

Lemma endswith_snoc s c : endswith (s ++ [c]) [c] = true.
Proof.
  unfold endswith. rewrite rev_app_distr. cbn [rev app startswith].
  rewrite N.eqb_refl. by destruct (rev s).
Qed.

Lemma endswith_snoc_ne s c d : (c =? d) = false → endswith (s ++ [c]) [d] = false.
Proof.
  intros H. unfold endswith. rewrite rev_app_distr. cbn [rev app startswith].
  by rewrite H.
Qed.

Lemma normalize_base_ends b : endswith (normalize_base b) (u "/") = true.
Proof.
  unfold normalize_base. destruct (endswith b (u "/")) eqn:E; [exact E|].
  apply endswith_snoc.
Qed.

Lemma normalize_base_idem b : normalize_base (normalize_base b) = normalize_base b.
Proof.
  unfold normalize_base at 1. by rewrite normalize_base_ends.
Qed.

Lemma dir_path_snoc dirs d : dir_path (dirs ++ [d]) = dir_path dirs ++ d ++ [47].
Proof.
  unfold dir_path. rewrite List.map_app, List.concat_app. cbn [List.map List.concat].
  rewrite app_nil_r. reflexivity.
Qed.

Lemma dir_path_ends dirs : ∃ s, dir_path dirs = s ++ [47].
Proof.
  destruct dirs as [|d dirs] using rev_ind; [by exists []|].
  rewrite dir_path_snoc. exists (dir_path dirs ++ d). by rewrite <- app_assoc.
Qed.

Lemma dir_path_join dirs :
  dirs ≠ [] → dir_path dirs = 47 :: join 47 dirs ++ [47].
Proof.
  intros Hne. unfold dir_path. f_equal.
  induction dirs as [|d dirs IH]; [done|]. cbn [List.map List.concat].
  destruct dirs as [|d' dirs]; [by rewrite app_nil_r|].
  rewrite IH by done.
  change (join 47 (d :: d' :: dirs)) with (d ++ 47 :: join 47 (d' :: dirs)).
  rewrite <- !app_assoc. reflexivity.
Qed.

Lemma join_cons c w ws : ws ≠ [] → join c (w :: ws) = w ++ c :: join c ws.
Proof. by destruct ws. Qed.

Lemma join_app c a b :
  a ≠ [] → b ≠ [] → join c (a ++ b) = join c a ++ c :: join c b.
Proof.
  intros Ha Hb. induction a as [|x a IH]; [done|].
  destruct a as [|y a].
  - cbn [app]. by rewrite join_cons.
  - change ((x :: y :: a) ++ b) with (x :: ((y :: a) ++ b)).
    rewrite join_cons by done. rewrite IH by done.
    rewrite (join_cons c x (y :: a)) by done.
    rewrite <- !app_assoc. reflexivity.
Qed.

Lemma join_last c segs x l :
  segs ≠ [] → List.last segs [] = l ++ [x] →
  ∃ s, join c segs = s ++ [x].
Proof.
  intros Hne El. rewrite (app_removelast_last [] Hne), El.
  destruct (removelast segs) as [|r rs].
  - by exists l.
  - rewrite join_app by done. cbn [join].
    exists (join c (r :: rs) ++ c :: l). by rewrite <- !app_assoc.
Qed.

(** X3: the trailing slash of the base URL is optional: [normalize_base]
    yields a URL that ends with a slash, leaves such a URL alone, and a
    run from the normalized URL is the run from the URL as given.  A
    directory URL written without its last slash becomes the directory
    URL. *)
Theorem trailing_slash_optional (base_url : list N) :
  endswith (normalize_base base_url) (u "/") = true
  ∧ (endswith base_url (u "/") = true → normalize_base base_url = base_url)
  ∧ normalize_base (normalize_base base_url) = normalize_base base_url
  ∧ (∀ package_js type_js index_1_html,
       generate_seed_urls (normalize_base base_url) package_js type_js
                          index_1_html
       = generate_seed_urls base_url package_js type_js index_1_html)
  ∧ (∀ sch net dirs,
       Forall (fun w => plain_segment w = true) dirs → dirs ≠ [] →
       base_url = sch ++ u "://" ++ net ++ 47 :: join 47 dirs →
       normalize_base base_url = dir_url sch net dirs)
  ∧ (∀ sch net dirs, base_url = dir_url sch net dirs →
       normalize_base base_url = base_url).
Proof.
  split; [apply normalize_base_ends|]. split.
  { intros H. unfold normalize_base. by rewrite H. }
  split; [apply normalize_base_idem|]. split.
  { intros. unfold generate_seed_urls. by rewrite normalize_base_idem. }
  split.
  - intros sch net dirs Hd Hne ->. unfold normalize_base, dir_url.
    rewrite (dir_path_join dirs Hne).
    assert (endswith (sch ++ u "://" ++ net ++ 47 :: join 47 dirs) (u "/")
            = false) as ->.
    { assert (∃ s c, join 47 dirs = s ++ [c] ∧ (c =? 47) = false)
        as (s & c & Ej & Hc).
      { pose proof (Forall_last _ dirs [] Hd Hne) as Hl.
        apply plain_segment_inv in Hl as (Hl & Hu & _).
        remember (List.last dirs []) as w eqn:El. symmetry in El.
        assert (Hw : w ≠ []) by (by destruct w).
        destruct (exists_last Hw) as (l & x & ->).
        rewrite forallb_app in Hu.
        apply andb_prop in Hu as [_ Hu]. simpl in Hu.
        apply andb_prop in Hu as [Hx _].
        pose proof (unreserved_not x 47 Hx ltac:(auto)) as Hn.
        apply negb_true_iff in Hn.
        destruct (join_last 47 dirs x l Hne El) as (s & Es).
        by exists s, x. }
      rewrite Ej.
      replace (sch ++ u "://" ++ net ++ 47 :: s ++ [c])
        with ((sch ++ u "://" ++ net ++ 47 :: s) ++ [c])
        by (by rewrite <- !app_assoc).
      by apply endswith_snoc_ne. }
    rewrite <- !app_assoc. reflexivity.
  - intros sch net dirs ->. unfold normalize_base.
    assert (endswith (dir_url sch net dirs) (u "/") = true) as ->; [|done].
    unfold dir_url. destruct (dir_path_ends dirs) as (s & ->).
    rewrite !app_assoc. apply endswith_snoc.
Qed.

(** ** [package_path] *)

Lemma package_path_app a b : package_path (a ++ b) = package_path a ++ package_path b.
Proof. unfold package_path, replace1. apply flat_map_app. Qed.

Lemma package_path_free w : free_of 46 w = true → package_path w = w.
Proof.
  induction w as [|x w IH]; [done|]. cbn [free_of forallb]. intros H.
  apply andb_prop in H as [Hx Hw]. apply negb_true_iff in Hx.
  unfold package_path, replace1 in *. cbn [List.flat_map]. rewrite Hx.
  fold (free_of 46 w) in Hw. rewrite (IH Hw). reflexivity.
Qed.

Lemma package_path_join idents :
  Forall (fun w => free_of 46 w = true) idents →
  package_path (join 46 idents) = join 47 idents.
Proof.
  induction 1 as [|w ws Hw _ IH]; [reflexivity|].
  destruct ws as [|w' ws]; [by apply package_path_free|].
  rewrite !join_cons by done. rewrite package_path_app.
  change (46 :: ?l) with ([46] ++ l). rewrite package_path_app.
  rewrite IH, (package_path_free w Hw). reflexivity.
Qed.

Lemma package_path_split p :
  free_of 47 p = true → split 47 (package_path p) = split 46 p.
Proof.
  unfold package_path, replace1.
  induction p as [|x p IH]; [done|]. cbn [free_of forallb]. intros H.
  apply andb_prop in H as [Hx Hp]. apply negb_true_iff in Hx.
  fold (free_of 47 p) in Hp. specialize (IH Hp).
  cbn [List.flat_map]. destruct (x =? 46) eqn:E.
  - cbn [app]. simpl split. rewrite E, IH. reflexivity.
  - cbn [app]. simpl split. rewrite Hx, E, IH. reflexivity.
Qed.



(** X5: two different package names without a slash get different paths. *)
Theorem package_path_injective (a b : list N) :
  free_of 47 a = true → free_of 47 b = true →
  a ≠ b → package_path a ≠ package_path b.
Proof.
  intros Ha Hb Hab E. apply Hab. clear Hab.
  unfold package_path, replace1 in E. revert b Ha Hb E.
  induction a as [|x a IH]; intros [|y b]; cbn [free_of forallb List.flat_map].
  - done.
  - intros _ _. destruct (y =? 46); done.
  - intros _ _. destruct (x =? 46); done.
  - intros Ha Hb. apply andb_prop in Ha as [Hx Ha]. apply andb_prop in Hb as [Hy Hb].
    apply negb_true_iff, N.eqb_neq in Hx. apply negb_true_iff, N.eqb_neq in Hy.
    fold (free_of 47 a) in Ha. fold (free_of 47 b) in Hb.
    destruct (x =? 46) eqn:Ex, (y =? 46) eqn:Ey; cbn [app]; intros E;
      injection E as E; try congruence.
    + apply N.eqb_eq in Ex, Ey. subst. f_equal. by apply IH.
    + subst. f_equal. by apply IH.
Qed.

Lemma package_path_injective_witness :
  u "java.lang" ≠ u "java.util"
  ∧ package_path (u "java.lang") ≠ package_path (u "java.util").
Proof.
  split; [discriminate|].
  apply (package_path_injective (u "java.lang") (u "java.util"));
    [vm_compute; reflexivity | vm_compute; reflexivity | discriminate].
Defined.

(** ** Plain URLs pass [encode_url] unchanged *)

Lemma encode_url_plain sch net tail :
  lower_scheme sch = true → net ≠ [] → forallb netloc_char net = true →
  match tail with [] => True | c :: _ => c = 47 end →
  forallb path_char tail = true →
  encode_url (sch ++ u "://" ++ net ++ tail) = Ok (sch ++ u "://" ++ net ++ tail).
Proof.
  intros Hs Hne Hn Ht Hp. unfold encode_url.
  rewrite (urlsplit_absolute sch net tail Hs Hn)
    by (destruct tail as [|c t]; [done | by subst c]).
  cbv zeta.
  rewrite (remove_unsafe_id tail)
    by (revert Hp; apply forallb_impl, path_char_kept).
  rewrite (partition_None 35 tail)
    by (revert Hp; apply forallb_impl; intros c Hc;
        apply path_char_not; auto).
  rewrite (partition_None 63 tail)
    by (revert Hp; apply forallb_impl; intros c Hc;
        apply path_char_not; auto).
  cbn [mbind result_bind scheme netloc path query fragment].
  rewrite (quote_path tail Hp). cbn [mbind result_bind].
  change (quote_plus [] (u "=&")) with (Ok (@nil N)).
  cbn [mbind result_bind]. f_equal.
  unfold urlunsplit. cbn [scheme netloc path query fragment].
  destruct net as [|n0 net]; [done|]. destruct sch as [|s0 sch]; [done|].
  change (u "//") with [47; 47]. change (u "://") with [58; 47; 47].
  destruct tail as [|c t]; [|subst c]; cbn [app]; reflexivity.
Qed.

Lemma encode_url_dir sch net dirs segs :
  lower_scheme sch = true → net ≠ [] → forallb netloc_char net = true →
  Forall (fun w => plain_segment w = true) dirs →
  Forall (fun w => plain_segment w = true) segs →
  encode_url (dir_url sch net dirs ++ join 47 segs)
  = Ok (dir_url sch net dirs ++ join 47 segs).
Proof.
  intros Hs Hne Hn Hd Hg. unfold dir_url. rewrite <- !app_assoc.
  apply encode_url_plain; try done.
  rewrite forallb_app, (dir_path_chars dirs Hd), (join_chars segs Hg). done.
Qed.

(** A relative path of plain segments that a run joins to a plain
    directory URL is written to the output as the base followed by the
    path. *)
Lemma plain_rel_listed sch net dirs package_index entries type_index
    index_1_html out n segs :
  lower_scheme sch = true → member sch uses_relative = true →
  net ≠ [] → forallb netloc_char net = true →
  Forall (fun w => plain_segment w = true) dirs →
  records package_index = Ok entries →
  derive_seed_urls (dir_url sch net dirs) package_index type_index index_1_html
  = Ok (out, n) →
  Forall (fun w => plain_segment w = true) segs → segs ≠ [] →
  join 47 segs
    ∈ seed_rels (build_package_to_module entries) type_index index_1_html →
  dir_url sch net dirs ++ join 47 segs ∈ out.
Proof.
  intros Hs Hr Hne Hn Hd Hrec H Hg Hgne Hin.
  apply (derive_lines_exact _ _ _ _ _ _ _ Hrec H).
  exists (join 47 segs), (dir_url sch net dirs ++ join 47 segs).
  split; [done|]. split; [by apply urljoin_plain | by apply encode_url_dir].
Qed.

(** ** [JavadocIndexUrls] *)

Lemma plain_name_segment w :
  w ≠ [] → forallb unreserved w = true → w ≠ u "." → w ≠ u ".." →
  plain_segment w = true.
Proof.
  intros H1 H2 H3 H4. unfold plain_segment. rewrite H2.
  assert (∀ a b, a ≠ b → Str.eqb a b = false) as Hne.
  { intros a b Hab. destruct (Str.eqb a b) eqn:E; [|done].
    by apply eqb_eq in E. }
  rewrite !Hne by done. reflexivity.
Qed.

(** X6: the three index files are fetched from the base directory: for a
    plain directory URL, each of the three URLs is the base followed by
    the name of the file. *)
Theorem index_urls_under_base (sch net : list N) (dirs : list (list N)) :
  lower_scheme sch = true → member sch uses_relative = true →
  net ≠ [] → forallb netloc_char net = true →
  Forall (fun w => plain_segment w = true) dirs →
  JavadocIndexUrls.package_index (JavadocIndexUrls.Build (dir_url sch net dirs))
  = Ok (dir_url sch net dirs ++ u "package-search-index.js")
  ∧ JavadocIndexUrls.type_index (JavadocIndexUrls.Build (dir_url sch net dirs))
    = Ok (dir_url sch net dirs ++ u "type-search-index.js")
  ∧ JavadocIndexUrls.index_file_1 (JavadocIndexUrls.Build (dir_url sch net dirs))
    = Ok (dir_url sch net dirs ++ u "index-files/index-1.html").
Proof.
  intros Hs Hr Hne Hn Hd.
  unfold JavadocIndexUrls.package_index, JavadocIndexUrls.type_index,
    JavadocIndexUrls.index_file_1. cbn [JavadocIndexUrls.base_url].
  split; [|split].
  - apply (urljoin_plain sch net dirs [u "package-search-index.js"]);
      try done. by repeat constructor.
  - apply (urljoin_plain sch net dirs [u "type-search-index.js"]);
      try done. by repeat constructor.
  - apply (urljoin_plain sch net dirs [u "index-files"; u "index-1.html"]);
      try done. by repeat constructor.
Qed.

Lemma index_urls_under_base_witness :
  JavadocIndexUrls.package_index
    (JavadocIndexUrls.Build (u "https://example.com/docs/api/"))
  = Ok (u "https://example.com/docs/api/package-search-index.js")
  ∧ JavadocIndexUrls.type_index
      (JavadocIndexUrls.Build (u "https://example.com/docs/api/"))
    = Ok (u "https://example.com/docs/api/type-search-index.js")
  ∧ JavadocIndexUrls.index_file_1
      (JavadocIndexUrls.Build (u "https://example.com/docs/api/"))
    = Ok (u "https://example.com/docs/api/index-files/index-1.html").
Proof.
  apply (index_urls_under_base (u "https") (u "example.com")
           [u "docs"; u "api"]).
  - vm_compute. reflexivity.
  - vm_compute. reflexivity.
  - discriminate.
  - vm_compute. reflexivity.
  - repeat constructor.
Defined.

(** ** [url_join] *)

(** X7: [url_join] drops the parts that are [None], strips the slashes around
    the others and joins them with single slashes; when what is left are
    plain segments, the result for a plain directory URL is the base
    followed by the joined path. *)
Theorem url_join_plain (sch net : list N) (dirs : list (list N))
    (parts : list (option (list N))) :
  lower_scheme sch = true → member sch uses_relative = true →
  net ≠ [] → forallb netloc_char net = true →
  Forall (fun w => plain_segment w = true) dirs →
  omap id parts ≠ [] →
  Forall (fun part => plain_segment (strip_chars (u "/") part) = true)
         (omap id parts) →
  url_join (dir_url sch net dirs) parts
  = Ok (dir_url sch net dirs
        ++ join 47 (List.map (strip_chars (u "/")) (omap id parts))).
Proof.
  intros Hs Hr Hne Hn Hd Hp HP. unfold url_join. cbv zeta.
  assert (∀ p : list N, p ++ (if endswith p (u ".html") then [] else []) = p)
    as ->.
  { intros p. destruct (endswith p (u ".html")); apply app_nil_r. }
  apply urljoin_plain; try done.
  - induction HP as [|p ps Hp1 _ IH]; constructor; [done|].
    destruct ps; [constructor | by apply IH].
  - destruct (omap id parts); done.
Qed.

Lemma url_join_plain_witness :
  url_join (u "https://example.com/docs/api/")
           [Some (u "/java.base/"); None; Some (u "java"); Some (u "lang/");
            Some (u "String.html")]
  = Ok (u "https://example.com/docs/api/java.base/java/lang/String.html").
Proof.
  apply (url_join_plain (u "https") (u "example.com") [u "docs"; u "api"]
           [Some (u "/java.base/"); None; Some (u "java"); Some (u "lang/");
            Some (u "String.html")]).
  - vm_compute. reflexivity.
  - vm_compute. reflexivity.
  - discriminate.
  - vm_compute. reflexivity.
  - repeat constructor.
  - discriminate.
  - repeat constructor.
Defined.

(** ** The pages of a type, as text *)

Lemma plain_ident_inv w :
  plain_ident w = true → plain_segment w = true ∧ free_of 46 w = true.
Proof. unfold plain_ident, free_of. intros H. by apply andb_prop in H. Qed.

Lemma html_segment type_name :
  type_name ≠ [] → forallb unreserved type_name = true →
  plain_segment (type_name ++ u ".html") = true.
Proof.
  intros Hne Hu. apply plain_name_segment.
  - by destruct type_name.
  - rewrite forallb_app, Hu. reflexivity.
  - destruct type_name as [|? [|? ?]]; done.
  - destruct type_name as [|? [|? [|? ?]]]; done.
Qed.



(** ** No line break in an encoded URL *)

Lemma all_kept_app a b : all_kept (a ++ b) ↔ all_kept a ∧ all_kept b.
Proof. unfold all_kept. rewrite forallb_app. apply andb_true_iff. Qed.

Lemma all_kept_cons c s : all_kept (c :: s) ↔ kept c = true ∧ all_kept s.
Proof. unfold all_kept. cbn [forallb]. apply andb_true_iff. Qed.

Lemma remove_unsafe_kept s : all_kept (remove_unsafe s).
Proof.
  unfold all_kept, remove_unsafe. apply forallb_forall. intros c Hc.
  apply filter_In in Hc as [_ Hc]. exact Hc.
Qed.

Lemma partition_kept c s a b :
  partition c s = Some (a, b) → all_kept s → all_kept a ∧ all_kept b.
Proof.
  revert a b. induction s as [|x s IH]; intros a b; [done|]. cbn [partition].
  intros H Hs. apply all_kept_cons in Hs as [Hx Hs].
  destruct (x =? c).
  - injection H as <- <-. done.
  - destruct (partition c s) as [[a' b']|]; [|done]. injection H as <- <-.
    destruct (IH a' b' eq_refl Hs) as [Ha Hb].
    split; [by apply all_kept_cons | done].
Qed.

Lemma span_kept f s a b :
  span f s = (a, b) → all_kept s → all_kept a ∧ all_kept b.
Proof.
  revert a b. induction s as [|x s IH]; intros a b; cbn [span].
  - intros [= <- <-]. done.
  - intros H Hs. destruct (f x).
    + destruct (span f s) as [a' b']. injection H as <- <-.
      apply all_kept_cons in Hs as [Hx Hs].
      destruct (IH a' b' eq_refl Hs) as [Ha Hb].
      split; [by apply all_kept_cons | done].
    + injection H as <- <-. done.
Qed.

Lemma lower_kept s : all_kept s → all_kept (lower s).
Proof.
  unfold all_kept, lower. induction s as [|x s IH]; [done|].
  cbn [List.map forallb]. intros H. apply andb_prop in H as [Hx Hs].
  rewrite (IH Hs), andb_true_r.
  destruct (isupper x) eqn:E; [|done]. clear -E. char_test.
Qed.

Lemma split_scheme_kept url sc rest :
  split_scheme url = Some (sc, rest) → all_kept url →
  all_kept sc ∧ all_kept rest.
Proof.
  unfold split_scheme. intros H Hu. destruct url as [|c url]; [done|].
  destruct (partition 58 (c :: url)) as [[[|c0 pre] rest']|] eqn:E; try done.
  destruct (_ && _); [|done]. injection H as <- <-.
  destruct (partition_kept _ _ _ _ E Hu) as [Ha Hb].
  split; [by apply (lower_kept (c0 :: pre)) | done].
Qed.

Lemma hexdigit_kept d : kept (hexdigit d) = true.
Proof. unfold hexdigit. destruct (d <? 10) eqn:E; char_test. Qed.

Lemma quote_byte_kept safe b :
  all_kept safe → all_kept (quote_byte safe b).
Proof.
  intros Hs. unfold quote_byte.
  destruct (always_safe b || (b <? 128) && mem b safe) eqn:E.
  - apply all_kept_cons. split; [|done].
    apply orb_prop in E as [E|E].
    + clear -E. char_test.
    + apply andb_prop in E as [_ E]. unfold mem in E.
      apply existsb_exists in E as (x & Hx & E). apply N.eqb_eq in E. subst x.
      unfold all_kept in Hs. rewrite forallb_forall in Hs. by apply Hs.
  - repeat (apply all_kept_cons; split; [apply hexdigit_kept || done|]).
    done.
Qed.

Lemma quote_kept s safe e :
  all_kept safe → quote s safe = Ok e → all_kept e.
Proof.
  intros Hs H. unfold quote in H. apply bind_Ok in H as (bs & _ & [= <-]).
  induction bs as [|b bs IH]; [done|]. cbn [List.flat_map].
  apply all_kept_app. split; [by apply quote_byte_kept | done].
Qed.

Lemma replace1_kept c r s : all_kept r → all_kept s → all_kept (replace1 c r s).
Proof.
  intros Hr. unfold replace1. induction s as [|x s IH]; [done|].
  intros H. apply all_kept_cons in H as [Hx Hs]. cbn [List.flat_map].
  apply all_kept_app. split; [|by apply IH].
  destruct (x =? c); [done|]. by apply all_kept_cons.
Qed.

Lemma quote_plus_kept s safe e :
  all_kept safe → quote_plus s safe = Ok e → all_kept e.
Proof.
  intros Hs. unfold quote_plus. destruct (mem 32 s).
  - intros H. apply bind_Ok in H as (r & Hr & [= <-]).
    apply replace1_kept; [done|]. eapply quote_kept; [|exact Hr].
    apply all_kept_app. done.
  - by apply quote_kept.
Qed.

Lemma urlunsplit_kept r :
  all_kept (scheme r) → all_kept (netloc r) → all_kept (path r) →
  all_kept (query r) → all_kept (fragment r) → all_kept (urlunsplit r).
Proof.
  destruct r as [sc net p qr fr]. cbn [scheme netloc path query fragment].
  intros Hsc Hnet Hp Hq Hf. unfold urlunsplit.
  cbn [scheme netloc path query fragment].
  assert (Hp' : all_kept (match p with [] => [] | 47 :: _ => p | _ => 47 :: p end)).
  { destruct p as [|c p]; [done|].
    destruct (decide (c = 47)) as [->|Hc]; [done|].
    assert ((match c :: p with [] => [] | 47 :: _ => c :: p | _ => 47 :: c :: p end)
            = 47 :: c :: p) as ->.
    { destruct c as [|c]; [done|].
      repeat (destruct c as [c|c|]; try done). }
    by apply all_kept_cons. }
  set (p' := match p with [] => [] | 47 :: _ => p | _ => 47 :: p end) in *.
  assert (H1 : all_kept (match net with
                         | _ :: _ => u "//" ++ net ++ p'
                         | [] => if negb (Str.eqb sc []) && member sc uses_netloc
                                    && negb (startswith p (u "//"))
                                 then u "//" ++ p' else p
                         end)).
  { destruct net.
    - destruct (_ && _); [|done]. by apply all_kept_app.
    - apply all_kept_app. split; [done|]. by apply all_kept_app. }
  set (u1 := match net with _ :: _ => _ | [] => _ end) in *.
  clearbody u1.
  destruct sc as [|s0 sc], qr as [|q0 qr], fr as [|f0 fr];
    repeat first [ assumption | reflexivity
                 | apply all_kept_app; split | apply all_kept_cons; split ].
Qed.

Lemma netloc_part_cases {A} (url : list N) (f : list N → A) (d : A) :
  (∃ rest, url = 47 :: 47 :: rest)
  ∨ match url with 47 :: 47 :: rest => f rest | _ => d end = d.
Proof.
  destruct url as [|c [|c' rest]].
  - by right.
  - right. destruct c as [|c]; [done|].
    repeat (destruct c as [c|c|]; try done).
  - destruct (decide (c = 47)) as [->|Hc].
    + destruct (decide (c' = 47)) as [->|Hc']; [left; eauto|].
      right. destruct c' as [|c']; [done|].
      repeat (destruct c' as [c'|c'|]; try done).
    + right. destruct c as [|c]; [done|].
      repeat (destruct c as [c|c|]; try done).
Qed.

Lemma urlsplit_kept url r :
  urlsplit url [] = Ok r →
  all_kept (scheme r) ∧ all_kept (netloc r) ∧ all_kept (path r)
  ∧ all_kept (query r) ∧ all_kept (fragment r).
Proof.
  unfold urlsplit. cbv zeta.
  pose proof (remove_unsafe_kept (lstrip c0_control_or_space url)) as H0.
  set (url0 := remove_unsafe (lstrip c0_control_or_space url)) in *.
  change (remove_unsafe (rstrip c0_control_or_space
            (lstrip c0_control_or_space []))) with (@nil N).
  assert (∃ sc u1, match split_scheme url0 with
                   | Some (sc, rest) => (sc, rest)
                   | None => ([], url0)
                   end = (sc, u1) ∧ all_kept sc ∧ all_kept u1)
    as (sc & u1 & -> & Hsc & H1).
  { destruct (split_scheme url0) as [[sc rest]|] eqn:E.
    - exists sc, rest. split; [done|]. by eapply split_scheme_kept.
    - exists [], url0. done. }
  assert (∃ net u2, match u1 with
                    | 47 :: 47 :: rest =>
                        span (fun c => negb (mem c (u "/?#"))) rest
                    | _ => ([], u1)
                    end = (net, u2) ∧ all_kept net ∧ all_kept u2)
    as (net & u2 & -> & Hnet & H2).
  { destruct (netloc_part_cases u1
                (span (fun c => negb (mem c (u "/?#")))) ([], u1))
      as [[rest ->]| ->].
    - destruct (span (fun c => negb (mem c (u "/?#"))) rest) as [a b] eqn:E.
      exists a, b. split; [done|]. eapply span_kept; [exact E|].
      apply all_kept_cons in H1 as [_ H1]. by apply all_kept_cons in H1 as [_ H1].
    - exists [], u1. done. }
  assert (∃ u3 frag, match partition 35 u2 with
                     | Some (a, b) => (a, b)
                     | None => (u2, [])
                     end = (u3, frag) ∧ all_kept u3 ∧ all_kept frag)
    as (u3 & frag & -> & H3 & Hfrag).
  { destruct (partition 35 u2) as [[a b]|] eqn:E.
    - exists a, b. split; [done|]. by eapply partition_kept.
    - exists u2, []. done. }
  assert (∃ u4 qry, match partition 63 u3 with
                    | Some (a, b) => (a, b)
                    | None => (u3, [])
                    end = (u4, qry) ∧ all_kept u4 ∧ all_kept qry)
    as (u4 & qry & -> & H4 & Hqry).
  { destruct (partition 63 u3) as [[a b]|] eqn:E.
    - exists a, b. split; [done|]. by eapply partition_kept.
    - exists u3, []. done. }
  intros H. apply bind_Ok in H as (_ & _ & [= <-]).
  cbn [scheme netloc path query fragment]. done.
Qed.

Lemma encode_url_kept url e : encode_url url = Ok e → all_kept e.
Proof.
  unfold encode_url. intros H.
  apply bind_Ok in H as (parsed & Hp & H).
  apply bind_Ok in H as (ep & Hep & H).
  apply bind_Ok in H as (eq & Heq & [= <-]).
  apply urlsplit_kept in Hp as (Hsc & Hnet & _ & _ & Hfrag).
  apply urlunsplit_kept; cbn [scheme netloc path query fragment]; try done.
  - eapply quote_kept; [|exact Hep]. done.
  - eapply quote_plus_kept; [|exact Heq]. done.
Qed.

Lemma kept_free w : all_kept w → free_of NL w = true.
Proof.
  unfold all_kept, free_of. apply forallb_impl. intros c Hc.
  unfold kept in Hc. apply negb_true_iff in Hc.
  apply orb_false_elim in Hc as [_ Hc]. unfold NL. by rewrite Hc.
Qed.

Lemma split_output out :
  Forall (fun w => free_of NL w = true) out →
  split NL (output_text out) = out ++ [[]].
Proof.
  unfold output_text. induction 1 as [|w out Hw _ IH]; [reflexivity|].
  cbn [List.flat_map]. rewrite <- app_assoc. cbn [app].
  rewrite split_app_sep by done. by rewrite IH.
Qed.





(** ** A run on plain names *)

Lemma split_nonempty c s : split c s ≠ [].
Proof.
  destruct s as [|x s]; [done|]. cbn [split].
  destruct (x =? c); [done|]. destruct (split c s); done.
Qed.

Lemma join_split c s : join c (split c s) = s.
Proof.
  induction s as [|x s IH]; [reflexivity|]. cbn [split].
  destruct (x =? c) eqn:E.
  - apply N.eqb_eq in E as ->. rewrite join_cons by apply split_nonempty.
    by rewrite IH.
  - pose proof (split_nonempty c s) as Hne.
    destruct (split c s) as [|w ws]; [done|].
    destruct ws as [|w' ws].
    + cbn [join] in *. by rewrite IH.
    + rewrite join_cons in * by done. cbn [app]. by rewrite IH.
Qed.

Lemma plain_rel_join rel :
  plain_rel rel = true →
  ∃ segs, segs ≠ [] ∧ Forall (fun w => plain_segment w = true) segs
    ∧ rel = join 47 segs.
Proof.
  intros H. exists (split 47 rel). split; [apply split_nonempty|].
  split; [|by rewrite join_split].
  apply Forall_forall. intros w Hw. unfold plain_rel in H.
  rewrite forallb_forall in H. apply H. by apply list_elem_of_In.
Qed.

Section plain_base.

Context (sch net : list N) (dirs : list (list N)).
Context (Hsch : lower_scheme sch = true).
Context (Hrel : member sch uses_relative = true).
Context (Hne : net ≠ []).
Context (Hnet : forallb netloc_char net = true).
Context (Hdirs : Forall (fun w => plain_segment w = true) dirs).

Lemma urljoin_plain_rel rel :
  plain_rel rel = true →
  urljoin (dir_url sch net dirs) rel = Ok (dir_url sch net dirs ++ rel).
Proof.
  intros H. apply plain_rel_join in H as (segs & Hs & Hp & ->).
  by apply urljoin_plain.
Qed.

Lemma encode_url_plain_rel rel :
  plain_rel rel = true →
  encode_url (dir_url sch net dirs ++ rel) = Ok (dir_url sch net dirs ++ rel).
Proof.
  intros H. apply plain_rel_join in H as (segs & Hs & Hp & ->).
  by apply encode_url_dir.
Qed.

Lemma add_joined_plain rel urls :
  plain_rel rel = true →
  add_joined (dir_url sch net dirs) rel urls
  = Ok ({[ dir_url sch net dirs ++ rel ]} ∪ urls).
Proof.
  intros H. unfold add_joined. by rewrite (urljoin_plain_rel rel H).
Qed.

Lemma for_each_add_plain {A} (f : A → list N) xs : ∀ urls,
  Forall (fun rel => plain_rel rel = true) (List.map f xs) →
  ∃ urls', for_each (fun x => add_joined (dir_url sch net dirs) (f x)) xs urls
           = Ok urls'.
Proof.
  induction xs as [|x xs IH]; intros urls H; [by eexists|].
  cbn [List.map] in H. apply Forall_cons in H as [Hx H].
  cbn [for_each]. rewrite (add_joined_plain _ _ Hx). cbn [mbind result_bind].
  by apply IH.
Qed.

Lemma package_loop_plain items : ∀ urls,
  Forall (fun rel => plain_rel rel = true) (List.flat_map package_rels items) →
  ∃ urls', for_each (package_step (dir_url sch net dirs)) items urls = Ok urls'.
Proof.
  induction items as [|[package module] items IH]; intros urls H; [by eexists|].
  cbn [List.flat_map] in H. apply Forall_app in H as [Hx H].
  unfold package_rels in Hx.
  apply Forall_cons in Hx as [H1 Hx]. apply Forall_cons in Hx as [H2 Hx].
  apply Forall_cons in Hx as [H3 _].
  cbn [for_each]. unfold package_step.
  rewrite (add_joined_plain _ _ H1). cbn [mbind result_bind].
  rewrite (add_joined_plain _ _ H2). cbn [mbind result_bind].
  rewrite (add_joined_plain _ _ H3). cbn [mbind result_bind].
  by apply IH.
Qed.

Lemma type_loop_plain mapping tindex : no_empty_module mapping →
  Forall (fun e => is_dict e = true) tindex →
  Forall (fun rel => plain_rel rel = true)
         (List.flat_map (type_rels mapping) tindex) →
  ∀ st, ∃ st',
    for_each (type_step (dir_url sch net dirs) mapping) tindex st = Ok st'.
Proof.
  intros Hm Hd. induction Hd as [|e tindex He Hd IH]; intros H st; [by eexists|].
  cbn [List.flat_map] in H. apply Forall_app in H as [Hx H].
  destruct e as [| | | | | |d]; try done. destruct st as [urls n].
  rewrite (type_rels_classify mapping d Hm) in Hx.
  cbn [for_each]. unfold type_step.
  destruct (classify mapping d) as [| |module package type_name];
    cbn [mbind result_bind]; [by apply IH | by apply IH |].
  cbv zeta in Hx. apply Forall_cons in Hx as [H1 Hx].
  apply Forall_cons in Hx as [H2 _]. cbv zeta.
  rewrite (add_joined_plain _ _ H1). cbn [mbind result_bind].
  rewrite (add_joined_plain _ _ H2). cbn [mbind result_bind].
  by apply IH.
Qed.

Lemma seed_url_set_plain mapping tindex html :
  no_empty_module mapping → Forall (fun e => is_dict e = true) tindex →
  Forall (fun rel => plain_rel rel = true) (seed_rels mapping tindex html) →
  ∃ urls n,
    seed_url_set (dir_url sch net dirs) mapping tindex html = Ok (urls, n).
Proof.
  intros Hm Hd H. unfold seed_rels in H.
  apply Forall_app in H as [H1 H]. apply Forall_app in H as [H2 H].
  apply Forall_app in H as [H3 H]. apply Forall_app in H as [H4 H5].
  unfold seed_url_set, root_urls, index_urls, module_urls, package_urls,
    type_urls.
  destruct (for_each_add_plain (fun page => page) root_pages ∅) as [u1 E1].
  { by rewrite map_id. }
  change (for_each (add_joined (dir_url sch net dirs)) root_pages ∅)
    with (for_each (fun page => add_joined (dir_url sch net dirs) page)
                   root_pages ∅).
  rewrite E1. cbn [mbind result_bind]. cbv zeta.
  destruct (for_each_add_plain (fun idx => u "index-files/" ++ idx)
              (sorted ({[ u "index-1.html" ]} ∪ parse_index_files html)) u1 H2)
    as [u2 E2].
  rewrite E2. cbn [mbind result_bind].
  destruct (for_each_add_plain (fun module => module ++ u "/module-summary.html")
              (sorted (list_to_set (snd <$> map_to_list mapping))) u2 H3)
    as [u3 E3].
  rewrite E3. cbn [mbind result_bind].
  destruct (package_loop_plain (map_to_list mapping) u3 H4) as [u4 E4].
  rewrite E4. cbn [mbind result_bind].
  destruct (type_loop_plain mapping tindex Hm Hd H5 (u4, O)) as [[urls n] E5].
  rewrite E5. eauto.
Qed.

Lemma encode_all_id l :
  Forall (fun url => encode_url url = Ok url) l → encode_all l = Ok l.
Proof.
  induction 1 as [|x l Hx _ IH]; [reflexivity|].
  cbn [encode_all]. rewrite Hx, IH. reflexivity.
Qed.

Lemma derive_plain package_index entries type_index index_1_html :
  records package_index = Ok entries →
  forallb is_dict type_index = true →
  forallb plain_rel
    (seed_rels (build_package_to_module entries) type_index index_1_html)
  = true →
  derive_seed_urls (dir_url sch net dirs) package_index type_index index_1_html
  = Ok (sorted (list_to_set
                  ((fun rel => dir_url sch net dirs ++ rel)
                     <$> seed_rels (build_package_to_module entries)
                           type_index index_1_html)),
        length (List.filter
                  (absent_with_type_name (build_package_to_module entries))
                  type_index)).
Proof.
  intros Hrec Hd Hp.
  assert (Hd' : Forall (fun e => is_dict e = true) type_index).
  { apply Forall_forall. intros e Hin. rewrite forallb_forall in Hd.
    apply Hd. by apply list_elem_of_In. }
  assert (Hp' : Forall (fun rel => plain_rel rel = true)
            (seed_rels (build_package_to_module entries) type_index
                       index_1_html)).
  { apply Forall_forall. intros rel Hin. rewrite forallb_forall in Hp.
    apply Hp. by apply list_elem_of_In. }
  destruct (seed_url_set_plain _ _ index_1_html
              (build_no_empty_module entries) Hd' Hp') as (urls & n & Hs).
  assert (Hurls : urls = list_to_set
            ((fun rel => dir_url sch net dirs ++ rel)
               <$> seed_rels (build_package_to_module entries) type_index
                     index_1_html)).
  { apply set_eq. intros url.
    rewrite (seed_url_set_exact _ _ _ _ _ _ (build_no_empty_module entries) Hs).
    rewrite elem_of_list_to_set, list_elem_of_fmap. split.
    - intros (rel & Hin & Hj). exists rel. split; [|done].
      rewrite Forall_forall in Hp'.
      rewrite (urljoin_plain_rel rel (Hp' rel Hin)) in Hj. congruence.
    - intros (rel & -> & Hin). exists rel. split; [done|].
      rewrite Forall_forall in Hp'. by apply urljoin_plain_rel, Hp'. }
  assert (Hn : n = length (List.filter
            (absent_with_type_name (build_package_to_module entries))
            type_index)).
  { unfold seed_url_set in Hs.
    apply bind_Ok in Hs as (u1 & _ & Hs). apply bind_Ok in Hs as (u2 & _ & Hs).
    apply bind_Ok in Hs as (u3 & _ & Hs). apply bind_Ok in Hs as (u4 & _ & Hs).
    unfold type_urls in Hs.
    by apply (type_loop _ _ (build_no_empty_module entries)) in Hs as [-> _]. }
  unfold derive_seed_urls. rewrite Hrec. cbn [mbind result_bind].
  rewrite Hs. cbn [mbind result_bind].
  rewrite encode_all_id; [cbn [mbind result_bind]; by rewrite Hurls, Hn|].
  apply Forall_forall. intros url Hin. apply elem_of_sorted in Hin.
  rewrite Hurls in Hin.
  apply elem_of_list_to_set, list_elem_of_fmap in Hin as (rel & -> & Hin).
  rewrite Forall_forall in Hp'. by apply encode_url_plain_rel, Hp'.
Qed.

End plain_base.

(** X11: from a plain directory URL, with a package index and a type index of
    records and with relative paths that are all made of plain segments,
    the derivation returns: its lines are the base followed by each
    relative path, without duplicates and in strictly ascending order,
    and the counter is the number of typed records whose package the
    mapping does not have. *)
Theorem plain_run_output (sch net : list N) (dirs : list (list N))
    (package_index : list value) (entries : list (gmap (list N) value))
    (type_index : list value) (index_1_html : list N) :
  lower_scheme sch = true → member sch uses_relative = true →
  net ≠ [] → forallb netloc_char net = true →
  Forall (fun w => plain_segment w = true) dirs →
  records package_index = Ok entries →
  forallb is_dict type_index = true →
  forallb plain_rel
    (seed_rels (build_package_to_module entries) type_index index_1_html)
  = true →
  ∃ out,
    derive_seed_urls (dir_url sch net dirs) package_index type_index
                     index_1_html
    = Ok (out,
          length (List.filter
                    (absent_with_type_name (build_package_to_module entries))
                    type_index))
    ∧ StronglySorted Str.lt out
    ∧ ∀ line, line ∈ out ↔
        ∃ rel, rel ∈ seed_rels (build_package_to_module entries) type_index
                       index_1_html
          ∧ line = dir_url sch net dirs ++ rel.
Proof.
  intros Hs Hr Hne Hn Hd Hrec Hdict Hp. eexists. split.
  - by apply derive_plain.
  - split; [apply sorted_ascending|]. intros line.
    rewrite elem_of_sorted, elem_of_list_to_set, list_elem_of_fmap.
    split; intros (rel & ? & ?); eauto.
Qed.

Lemma plain_run_output_witness :
  ∃ out,
    derive_seed_urls (dir_url (u "https") (u "example.com") [u "docs"; u "api"])
      package_index_example [PDict string_fields; no_such_typed] (u "")
    = Ok (out,
          length (List.filter
                    (absent_with_type_name
                       (build_package_to_module entries_example))
                    [PDict string_fields; no_such_typed]))
    ∧ StronglySorted Str.lt out
    ∧ ∀ line, line ∈ out ↔
        ∃ rel, rel ∈ seed_rels (build_package_to_module entries_example)
                       [PDict string_fields; no_such_typed] (u "")
          ∧ line = dir_url (u "https") (u "example.com") [u "docs"; u "api"]
                   ++ rel.
Proof.
  apply (plain_run_output (u "https") (u "example.com") [u "docs"; u "api"]
           package_index_example entries_example
           [PDict string_fields; no_such_typed] (u "")).
  - vm_compute. reflexivity.
  - vm_compute. reflexivity.
  - discriminate.
  - vm_compute. reflexivity.
  - repeat constructor.
  - vm_compute. reflexivity.
  - reflexivity.
  - vm_compute. reflexivity.
Defined.

(** ** What [parse_index_files] returns *)

Lemma findall_from_occurs p s : ∀ skip g,
  g ∈ findall_from p s skip →
  ∃ pre s' c r, s = pre ++ s' ∧ run p s' no_caps = Some (c, r) ∧ g = group1 c.
Proof.
  induction s as [|x s IH]; intros skip g H; simpl in H.
  - by apply elem_of_nil in H.
  - assert (∀ k, g ∈ findall_from p s k →
              ∃ pre s' c r, x :: s = pre ++ s'
                ∧ run p s' no_caps = Some (c, r) ∧ g = group1 c) as Hrec.
    { intros k Hk. apply IH in Hk as (pre & s' & c & r & -> & Hr & Hg).
      exists (x :: pre), s', c, r. done. }
    destruct skip as [|k]; [|eauto].
    destruct (rmatch p (x :: s)) as [[g' r]|] eqn:E; [|eauto].
    apply elem_of_cons in H as [-> | H]; [|eauto].
    unfold rmatch in E.
    destruct (run p (x :: s) no_caps) as [[c r']|] eqn:Er; [|done].
    inversion E; subst. exists [], (x :: s), c, r. done.
Qed.

Lemma Matches_index_href_text t c c' r :
  Matches index_href_pattern t c c' r →
  ∃ ds x, ds ≠ [] ∧ forallb isdigit ds = true
    ∧ group1 c' = u "index-" ++ ds ++ BACKSLASH :: x :: u "html"
    ∧ t = u "href=" ++ q (group1 c') ++ r.
Proof.
  unfold index_href_pattern. intros H.
  apply Matches_lit in H as (s1 & -> & H).
  change ([Lit DQ; GOpen] ++ lit (u "index-") ++ ?p)
    with (Lit DQ :: GOpen :: (lit (u "index-") ++ p)) in H.
  apply Matches_lit_inv in H as (s2 & -> & H).
  apply Matches_open_inv in H.
  apply Matches_lit in H as (s3 & -> & H).
  cbn [app] in H.
  apply Matches_cls_inv in H as (d & s4 & -> & Hd & H).
  apply Matches_star_inv in H as (ds & s5 & -> & Hds & H).
  apply Matches_lit_inv in H as (s6 & -> & H).
  apply Matches_cls_inv in H as (x & s7 & -> & Hx & H).
  apply Matches_lit in H as (s8 & -> & H).
  apply Matches_close_inv in H.
  destruct (Matches_lit_inv _ _ _ _ _ _ H) as (s9 & -> & H9).
  assert (s9 = r) as -> by (by inversion H9).
  apply Matches_caps in H; [| simpl; intuition discriminate ..].
  subst c'. exists (d :: ds), x. split; [done|].
  split; [simpl; by rewrite Hd, Hds|].
  assert (Hg : group1 (Caps (u "index-" ++ d :: ds ++ BACKSLASH :: x
                               :: u "html" ++ DQ :: r)
                            (DQ :: r))
               = u "index-" ++ (d :: ds) ++ BACKSLASH :: x :: u "html").
  { unfold group1. cbn [g_open g_close].
    set (g := u "index-" ++ (d :: ds) ++ BACKSLASH :: x :: u "html").
    replace (u "index-" ++ d :: ds ++ BACKSLASH :: x :: u "html" ++ DQ :: r)
      with (g ++ DQ :: r).
    - rewrite length_app, Nat.add_sub. apply take_app_length.
    - unfold g. rewrite <- !app_assoc. cbn [app]. reflexivity. }
  cbn [g_open]. split; [exact Hg|]. rewrite Hg. unfold q.
  do 3 (rewrite <- ?app_assoc; simpl). reflexivity.
Qed.

(** X12: every name [parse_index_files] returns is [index-], digits, a
    backslash and [.html], and the page has it between double quotes
    after [href=]. *)
Theorem parse_index_files_sound (index_1_html m : list N) :
  m ∈ parse_index_files index_1_html →
  (∃ ds, ds ≠ [] ∧ forallb isdigit ds = true
     ∧ m = u "index-" ++ ds ++ BACKSLASH :: u ".html")
  ∧ ∃ before after, index_1_html = before ++ u "href=" ++ q m ++ after.
Proof.
  intros H. split; [by apply (parse_index_files_backslash index_1_html)|].
  unfold parse_index_files in H.
  apply elem_of_filter in H as [_ H].
  apply elem_of_list_to_set in H.
  apply findall_from_occurs in H as (pre & s' & c & r & -> & Hrun & ->).
  apply run_sound, Matches_index_href_text in Hrun as (ds & x & _ & _ & _ & ->).
  eauto.
Qed.

Lemma parse_index_files_sound_witness :
  (∃ ds, ds ≠ [] ∧ forallb isdigit ds = true
     ∧ u "index-2\.html" = u "index-" ++ ds ++ BACKSLASH :: u ".html")
  ∧ ∃ before after,
      u "<a href=" ++ q (u "index-2\.html") ++ u ">B</a>"
      = before ++ u "href=" ++ q (u "index-2\.html") ++ after.
Proof.
  apply (parse_index_files_sound
           (u "<a href=" ++ q (u "index-2\.html") ++ u ">B</a>")
           (u "index-2\.html")).
  assert (parse_index_files
            (u "<a href=" ++ q (u "index-2\.html") ++ u ">B</a>")
          = {[ u "index-2\.html" ]}) as -> by (vm_compute; reflexivity).
  apply elem_of_singleton. reflexivity.
Defined.

(** ** White space around an index text *)

Lemma lstrip_app_all f w s : forallb f w = true → lstrip f (w ++ s) = lstrip f s.
Proof.
  induction w as [|x w IH]; [done|]. cbn [forallb app lstrip]. intros H.
  apply andb_prop in H as [Hx Hw]. rewrite Hx. by apply IH.
Qed.

Lemma rstrip_app_all f s w : forallb f w = true → rstrip f (s ++ w) = rstrip f s.
Proof.
  intros H. unfold rstrip. rewrite rev_app_distr, lstrip_app_all; [done|].
  rewrite forallb_forall in *. intros x Hx. apply H. by apply in_rev.
Qed.

Lemma strip_outer_space w1 t w2 :
  all_space w1 → all_space w2 → strip (w1 ++ t ++ w2) = strip t.
Proof.
  unfold all_space, strip. intros H1 H2. rewrite (lstrip_app_all _ w1) by done.
  induction t as [|x t IH].
  - cbn [app]. rewrite <- (app_nil_r w2), lstrip_app_all by done. reflexivity.
  - cbn [app lstrip]. destruct (isspace x); [exact IH|].
    change (x :: t ++ w2) with ((x :: t) ++ w2). by apply rstrip_app_all.
Qed.

(** X13: white space before and after the text of an index changes nothing:
    the same list is decoded, and the same error raised with the same
    message. *)
Theorem outer_space_ignored (w1 js_text w2 var_name : list N) :
  all_space w1 → all_space w2 →
  parse_assigned_json_array (w1 ++ js_text ++ w2) var_name
  = parse_assigned_json_array js_text var_name.
Proof.
  intros H1 H2. unfold parse_assigned_json_array, unexpected_format, snippet.
  by rewrite (strip_outer_space w1 js_text w2 H1 H2).
Qed.

Lemma outer_space_ignored_witness :
  parse_assigned_json_array
    (u "  " ++ package_js_example ++ [NL; NL]) (u "packageSearchIndex")
  = parse_assigned_json_array package_js_example (u "packageSearchIndex").
Proof.
  apply (outer_space_ignored (u "  ") package_js_example [NL; NL]
           (u "packageSearchIndex")).
  - vm_compute. reflexivity.
  - vm_compute. reflexivity.
Defined.

(** ** The mapping of two indexes, one after the other *)

(** X14: the mapping built from one index followed by another is the mapping
    of the second, completed by the mapping of the first for the packages
    the second does not name; building from an index written twice gives
    the mapping of the index. *)
Theorem build_package_to_module_app
    (first second : list (gmap (list N) value)) :
  build_package_to_module (first ++ second)
  = build_package_to_module second ∪ build_package_to_module first
  ∧ build_package_to_module (first ++ first) = build_package_to_module first.
Proof.
  assert (∀ a b, build_package_to_module (a ++ b)
                 = build_package_to_module b ∪ build_package_to_module a) as H.
  { intros a b. induction b as [|entry b IH] using rev_ind.
    - rewrite app_nil_r. change (build_package_to_module []) with
        (∅ : gmap (list N) (list N)). by rewrite (left_id_L ∅ (∪)).
    - rewrite app_assoc, !build_snoc, IH. unfold build_step.
      destruct (package_entry entry) as [[package module]|]; [|done].
      by rewrite insert_union_l. }
  split; [apply H|]. rewrite H. apply (idemp_L (∪)).
Qed.

(** ** The path of an encoded URL *)

Lemma quote_byte_percent c :
  (c <? 128) = true → quote_byte (u "/-._~") c = percent_encoded c.
Proof.
  intros Hc. unfold quote_byte, percent_encoded, path_char, unreserved,
    always_safe. rewrite Hc. cbn [andb].
  change (u "_.-~") with [95; 46; 45; 126].
  change (u "-._~") with [45; 46; 95; 126].
  change (u "/-._~") with [47; 45; 46; 95; 126].
  unfold mem. cbn [existsb].
  destruct (isalnum c), (c =? 95), (c =? 46), (c =? 45), (c =? 126),
    (c =? 47); reflexivity.
Qed.

Lemma ascii_path_char_inv c :
  ascii_path_char c = true →
  (c <? 128) = true ∧ kept c = true ∧ (c =? 35) = false ∧ (c =? 63) = false.
Proof.
  unfold ascii_path_char. intros H.
  apply andb_prop in H as [H H4]. apply andb_prop in H as [H H3].
  apply andb_prop in H as [H1 H2].
  apply negb_true_iff in H3, H4. done.
Qed.

Lemma quote_ascii_path s :
  forallb ascii_path_char s = true →
  quote s (u "/-._~") = Ok (List.flat_map percent_encoded s).
Proof.
  intros H. unfold quote. rewrite encode_utf8_ascii.
  2:{ revert H. apply forallb_impl. intros c Hc.
      by apply ascii_path_char_inv in Hc as [? _]. }
  cbn [mbind result_bind]. f_equal.
  induction s as [|c s IH]; [done|]. cbn [List.flat_map].
  cbn [forallb] in H. apply andb_prop in H as [Hc Hs].
  apply ascii_path_char_inv in Hc as [Hc _].
  rewrite (quote_byte_percent c Hc), (IH Hs). reflexivity.
Qed.

(** X15: on a URL written as a lower-case scheme, [://], a plain network
    location and an ASCII path without question mark, hash, tab, carriage
    return or line feed, [encode_url] leaves scheme and network location
    as they are and rewrites the path character by character: letters,
    digits, [-._~] and the slash stay, every other character becomes a
    percent sign and two hexadecimal digits.  A percent sign is one of
    the others: a URL that is already encoded is encoded again. *)
Theorem encode_url_ascii_path (sch net tail : list N) :
  lower_scheme sch = true → net ≠ [] → forallb netloc_char net = true →
  forallb ascii_path_char tail = true →
  encode_url (sch ++ u "://" ++ net ++ 47 :: tail)
  = Ok (sch ++ u "://" ++ net ++ 47 :: List.flat_map percent_encoded tail).
Proof.
  intros Hs Hne Hn Hp. unfold encode_url.
  rewrite (urlsplit_absolute sch net (47 :: tail) Hs Hn) by done.
  cbv zeta.
  assert (Hp' : forallb ascii_path_char (47 :: tail) = true).
  { cbn [forallb]. by rewrite Hp. }
  rewrite (remove_unsafe_id (47 :: tail)).
  2:{ revert Hp'. apply forallb_impl. intros c Hc.
      by apply ascii_path_char_inv in Hc as (_ & ? & _). }
  rewrite (partition_None 35 (47 :: tail)).
  2:{ revert Hp'. apply forallb_impl. intros c Hc.
      apply ascii_path_char_inv in Hc as (_ & _ & H & _). by rewrite H. }
  rewrite (partition_None 63 (47 :: tail)).
  2:{ revert Hp'. apply forallb_impl. intros c Hc.
      apply ascii_path_char_inv in Hc as (_ & _ & _ & H). by rewrite H. }
  cbn [mbind result_bind scheme netloc path query fragment].
  rewrite (quote_ascii_path (47 :: tail) Hp'). cbn [mbind result_bind].
  change (quote_plus [] (u "=&")) with (Ok (@nil N)).
  cbn [mbind result_bind]. f_equal.
  unfold urlunsplit. cbn [scheme netloc path query fragment].
  destruct net as [|n0 net]; [done|]. destruct sch as [|s0 sch]; [done|].
  change (u "//") with [47; 47]. change (u "://") with [58; 47; 47].
  cbn [List.flat_map]. change (percent_encoded 47) with [47].
  cbn [app]. reflexivity.
Qed.

Lemma encode_url_ascii_path_witness :
  encode_url (u "https" ++ u "://" ++ u "example.com" ++ 47 :: u "a b/50%25")
  = Ok (u "https://example.com/a%20b/50%2525").
Proof.
  apply (encode_url_ascii_path (u "https") (u "example.com") (u "a b/50%25")).
  - vm_compute. reflexivity.
  - discriminate.
  - vm_compute. reflexivity.
  - vm_compute. reflexivity.
Defined.

(** ** Elements of an index that are no records *)

Lemma records_dicts xs :
  forallb is_dict xs = false → records xs = Raise AttributeError.
Proof.
  induction xs as [|x xs IH]; [done|]. cbn [forallb records]. intros H.
  destruct x; try reflexivity. cbn [is_dict andb] in H.
  by rewrite (IH H).
Qed.


(** X16: an element of the package index that is no dictionary aborts the
    derivation with [AttributeError], whatever the base URL, the type
    index and the page. *)
Theorem package_index_of_records (base : list N)
    (package_index type_index : list value) (index_1_html : list N) :
  forallb is_dict package_index = false →
  derive_seed_urls base package_index type_index index_1_html
  = Raise AttributeError.
Proof.
  intros H. unfold derive_seed_urls. by rewrite (records_dicts _ H).
Qed.

Lemma package_index_of_records_witness :
  derive_seed_urls base_example
    (package_index_example ++ [PStr (u "java.lang")]) [] (u "")
  = Raise AttributeError.
Proof.
  apply (package_index_of_records base_example
           (package_index_example ++ [PStr (u "java.lang")]) [] (u "")).
  vm_compute. reflexivity.
Defined.

(** ** The query of an encoded URL *)

Lemma hexdigit_not_space d : (hexdigit d =? 32) = false.
Proof.
  unfold hexdigit. destruct (d <? 10); apply N.eqb_neq; lia.
Qed.

Lemma quote_byte_query safe c :
  (c <? 128) = true →
  (∀ x, mem x safe = (x =? 61) || (x =? 38) || (x =? 32)) →
  replace1 32 [43] (quote_byte safe c) = query_encoded c.
Proof.
  intros Hc Hsafe. unfold quote_byte, query_encoded, unreserved, always_safe.
  rewrite Hc, Hsafe. cbn [andb].
  change (u "_.-~") with [95; 46; 45; 126].
  change (u "-._~") with [45; 46; 95; 126].
  change (u "=&") with [61; 38].
  unfold mem. cbn [existsb]. unfold replace1.
  destruct (c =? 32) eqn:E32.
  - apply N.eqb_eq in E32 as ->. reflexivity.
  - destruct (isalnum c), (c =? 95), (c =? 46), (c =? 45), (c =? 126),
      (c =? 61), (c =? 38); cbn [orb List.flat_map app];
      rewrite ?E32, ?hexdigit_not_space; reflexivity.
Qed.

Lemma quote_byte_query_plain c :
  (c <? 128) = true → (c =? 32) = false →
  quote_byte (u "=&") c = query_encoded c.
Proof.
  intros Hc E32. unfold quote_byte, query_encoded, unreserved, always_safe.
  rewrite Hc, E32. cbn [andb].
  change (u "_.-~") with [95; 46; 45; 126].
  change (u "-._~") with [45; 46; 95; 126].
  change (u "=&") with [61; 38].
  unfold mem. cbn [existsb].
  destruct (isalnum c), (c =? 95), (c =? 46), (c =? 45), (c =? 126),
    (c =? 61), (c =? 38); reflexivity.
Qed.

Lemma replace1_flat_map {A} c r (f : A → list N) l :
  replace1 c r (List.flat_map f l) = List.flat_map (fun x => replace1 c r (f x)) l.
Proof.
  unfold replace1. induction l as [|x l IH]; [done|]. cbn [List.flat_map].
  by rewrite flat_map_app, IH.
Qed.

Lemma mem_false_all c s :
  mem c s = false → forallb (fun x => negb (x =? c)) s = true.
Proof.
  unfold mem. induction s as [|x s IH]; [done|]. cbn [existsb forallb].
  intros H. apply orb_false_elim in H as [Hx Hs].
  rewrite N.eqb_sym, Hx. by apply IH.
Qed.

Lemma quote_plus_ascii s :
  forallb (fun c => c <? 128) s = true →
  quote_plus s (u "=&") = Ok (List.flat_map query_encoded s).
Proof.
  intros H. unfold quote_plus. destruct (mem 32 s) eqn:E.
  - unfold quote. rewrite (encode_utf8_ascii s H).
    cbn [mbind result_bind]. f_equal. rewrite replace1_flat_map.
    clear E. induction s as [|c s IH]; [done|]. cbn [List.flat_map forallb] in *.
    apply andb_prop in H as [Hc Hs]. rewrite (IH Hs). f_equal.
    apply quote_byte_query; [done|]. intros x.
    change (u "=&" ++ [32]) with [61; 38; 32]. unfold mem. cbn [existsb].
    by rewrite orb_false_r, orb_assoc.
  - unfold quote. rewrite (encode_utf8_ascii s H).
    cbn [mbind result_bind]. f_equal.
    apply mem_false_all in E.
    induction s as [|c s IH]; [done|]. cbn [List.flat_map forallb] in *.
    apply andb_prop in H as [Hc Hs]. apply andb_prop in E as [Ec Es].
    apply negb_true_iff in Ec.
    rewrite (IH Hs Es), (quote_byte_query_plain c Hc Ec). reflexivity.
Qed.

Lemma ascii_query_char_inv c :
  ascii_query_char c = true →
  (c <? 128) = true ∧ kept c = true ∧ (c =? 35) = false.
Proof.
  unfold ascii_query_char. intros H.
  apply andb_prop in H as [H H3]. apply andb_prop in H as [H1 H2].
  apply negb_true_iff in H3. done.
Qed.

Lemma partition_first c a b :
  forallb (fun x => negb (x =? c)) a = true →
  partition c (a ++ c :: b) = Some (a, b).
Proof.
  induction a as [|x a IH]; cbn [app partition forallb].
  - by rewrite N.eqb_refl.
  - intros H. apply andb_prop in H as [Hx Ha]. apply negb_true_iff in Hx.
    rewrite Hx, (IH Ha). reflexivity.
Qed.

(** X17: on a URL written as a lower-case scheme, [://], a plain network
    location, a path of unreserved characters and slashes, a question
    mark and an ASCII query without hash, tab, carriage return or line
    feed, [encode_url] keeps everything up to the query and rewrites the
    query character by character: a space becomes a plus sign; letters,
    digits, [-._~], the equals sign and the ampersand stay; every other
    character, the plus sign and the percent sign among them, becomes a
    percent sign and two hexadecimal digits.  When the query is empty the
    question mark is dropped. *)
Theorem encode_url_ascii_query (sch net path_text query_text : list N) :
  lower_scheme sch = true → net ≠ [] → forallb netloc_char net = true →
  forallb path_char path_text = true →
  forallb ascii_query_char query_text = true →
  encode_url (sch ++ u "://" ++ net ++ 47 :: path_text ++ 63 :: query_text)
  = Ok (sch ++ u "://" ++ net ++ 47 :: path_text
        ++ match query_text with
           | [] => []
           | _ => 63 :: List.flat_map query_encoded query_text
           end).
Proof.
  intros Hs Hne Hn Hp Hq. unfold encode_url.
  rewrite (urlsplit_absolute sch net (47 :: path_text ++ 63 :: query_text) Hs Hn)
    by done.
  cbv zeta.
  assert (Hp' : forallb path_char (47 :: path_text) = true).
  { cbn [forallb]. by rewrite Hp. }
  rewrite (remove_unsafe_id (47 :: path_text ++ 63 :: query_text)).
  2:{ change (47 :: path_text ++ 63 :: query_text)
        with ((47 :: path_text) ++ 63 :: query_text).
      rewrite forallb_app. apply andb_true_intro. split.
      - revert Hp'. apply forallb_impl, path_char_kept.
      - cbn [forallb]. apply andb_true_intro. split; [done|].
        revert Hq. apply forallb_impl. intros c Hc.
        by apply ascii_query_char_inv in Hc as (_ & ? & _). }
  rewrite (partition_None 35 (47 :: path_text ++ 63 :: query_text)).
  2:{ change (47 :: path_text ++ 63 :: query_text)
        with ((47 :: path_text) ++ 63 :: query_text).
      rewrite forallb_app. apply andb_true_intro. split.
      - revert Hp'. apply forallb_impl. intros c Hc.
        apply path_char_not; auto.
      - cbn [forallb]. apply andb_true_intro. split; [done|].
        revert Hq. apply forallb_impl. intros c Hc.
        apply ascii_query_char_inv in Hc as (_ & _ & H). by rewrite H. }
  change (47 :: path_text ++ 63 :: query_text)
    with ((47 :: path_text) ++ 63 :: query_text).
  rewrite (partition_first 63 (47 :: path_text) query_text).
  2:{ revert Hp'. apply forallb_impl. intros c Hc. apply path_char_not; auto. }
  cbn [mbind result_bind scheme netloc path query fragment].
  rewrite (quote_path (47 :: path_text) Hp'). cbn [mbind result_bind].
  rewrite (quote_plus_ascii query_text).
  2:{ revert Hq. apply forallb_impl. intros c Hc.
      by apply ascii_query_char_inv in Hc as (? & _). }
  cbn [mbind result_bind]. f_equal.
  unfold urlunsplit. cbn [scheme netloc path query fragment].
  destruct net as [|n0 net]; [done|]. destruct sch as [|s0 sch]; [done|].
  change (u "//") with [47; 47]. change (u "://") with [58; 47; 47].
  destruct query_text as [|c0 qs].
  - cbn [List.flat_map app]. rewrite ?app_nil_r. reflexivity.
  - assert (∃ e es, List.flat_map query_encoded (c0 :: qs) = e :: es)
      as (e & es & E).
    { cbn [List.flat_map]. unfold query_encoded at 1.
      destruct (c0 =? 32); [by eexists _, _|].
      destruct (_ || _); by eexists _, _. }
    rewrite E. cbn [app]. rewrite <- !app_assoc. cbn [app].
    rewrite <- ?app_assoc. reflexivity.
Qed.

Lemma encode_url_ascii_query_witness :
  encode_url (u "https" ++ u "://" ++ u "example.com" ++ 47 :: u "search.html"
              ++ 63 :: u "q=a b+c&x=1")
  = Ok (u "https://example.com/search.html?q=a+b%2Bc&x=1").
Proof.
  apply (encode_url_ascii_query (u "https") (u "example.com")
           (u "search.html") (u "q=a b+c&x=1")).
  - vm_compute. reflexivity.
  - discriminate.
  - vm_compute. reflexivity.
  - vm_compute. reflexivity.
  - vm_compute. reflexivity.
Defined.

(** ** Records of the type index written more than once *)

Lemma type_loop_effects base mapping l : ∀ st st',
  for_each (type_step base mapping) l st = Ok st' →
  ∀ e, e ∈ l → ∃ r, type_effect base mapping e = Ok r.
Proof.
  induction l as [|x l IH]; intros st st' H e He.
  - by apply elem_of_nil in He.
  - cbn [for_each] in H. apply bind_Ok in H as ([u1 n1] & Hx & H).
    apply elem_of_cons in He as [-> | He]; [|by eapply IH].
    destruct st as [urls n]. rewrite type_step_effect in Hx.
    destruct (type_effect base mapping x) as [r|]; [by eexists | done].
Qed.

Lemma type_loop_returns base mapping l :
  (∀ e, e ∈ l → ∃ r, type_effect base mapping e = Ok r) →
  ∀ st, ∃ st', for_each (type_step base mapping) l st = Ok st'.
Proof.
  induction l as [|x l IH]; intros H st; [by eexists|].
  cbn [for_each]. destruct st as [urls n]. rewrite type_step_effect.
  destruct (H x) as [[s k] E]; [by left|]. rewrite E. cbn [mbind result_bind].
  apply IH. intros e He. apply H. by right.
Qed.



Import RecoverCache.

(** ** [recover_cache.py]: the object boundaries *)


Lemma header_at_lt data i : header_at data i → (i + 4 ≤ length data)%nat.
Proof.
  unfold header_at, magic. intros H.
  assert (4 ≤ length (drop i data))%nat as Hl.
  { destruct (drop i data) as [|a [|b [|c [|d l]]]]; simpl in *;
      try done; try lia;
      repeat match goal with
             | H : _ && _ = true |- _ => apply andb_prop in H as [? H]
             end; try done. }
  rewrite length_drop in Hl. lia.
Qed.

Lemma find_in_Some sub s : ∀ i j,
  find_in sub s i = Some j →
  (i ≤ j)%nat ∧ startswith (drop (j - i) s) sub = true
  ∧ ∀ m, (i ≤ m < j)%nat → startswith (drop (m - i) s) sub = false.
Proof.
  induction s as [|x s IH]; intros i j; cbn [find_in].
  - destruct (startswith [] sub) eqn:E; [|done]. intros [= <-].
    rewrite Nat.sub_diag. split; [lia|]. split; [done|]. lia.
  - destruct (startswith (x :: s) sub) eqn:E.
    + intros [= <-]. rewrite Nat.sub_diag. split; [lia|]. split; [done|]. lia.
    + intros H. apply IH in H as (Hle & Hj & Hm).
      split; [lia|]. split.
      * replace (j - i)%nat with (S (j - S i)) by lia. exact Hj.
      * intros m Hr. destruct (decide (m = i)) as [->|Hne].
        -- by rewrite Nat.sub_diag.
        -- replace (m - i)%nat with (S (m - S i)) by lia. apply Hm. lia.
Qed.

Lemma find_in_None sub s : ∀ i,
  find_in sub s i = None → ∀ m, startswith (drop m s) sub = false.
Proof.
  induction s as [|x s IH]; intros i; cbn [find_in].
  - destruct (startswith [] sub) eqn:E; [done|]. intros _ m.
    by rewrite drop_nil.
  - destruct (startswith (x :: s) sub) eqn:E; [done|]. intros H [|m]; [done|].
    apply (IH _ H).
Qed.

Lemma find_Some data pos idx :
  find data magic pos = Some idx →
  (pos ≤ idx)%nat ∧ header_at data idx
  ∧ ∀ m, (pos ≤ m < idx)%nat → ¬ header_at data m.
Proof.
  unfold find, header_at. destruct (pos <=? length data)%nat eqn:E; [|done].
  apply Nat.leb_le in E. intros H.
  apply find_in_Some in H as (Hle & Hj & Hm). split; [done|]. split.
  - rewrite drop_drop in Hj. by replace (pos + (idx - pos))%nat with idx in Hj by lia.
  - intros m Hr. specialize (Hm m Hr). rewrite drop_drop in Hm.
    replace (pos + (m - pos))%nat with m in Hm by lia. by rewrite Hm.
Qed.

Lemma find_None data pos :
  (pos ≤ length data)%nat → find data magic pos = None →
  ∀ m, (pos ≤ m)%nat → ¬ header_at data m.
Proof.
  unfold find, header_at. intros Hp.
  destruct (pos <=? length data)%nat eqn:E; [|apply Nat.leb_gt in E; lia].
  intros H m Hm. pose proof (find_in_None _ _ _ H (m - pos)%nat) as Hn.
  rewrite drop_drop in Hn.
  replace (pos + (m - pos))%nat with m in Hn by lia. by rewrite Hn.
Qed.

Lemma StronglySorted_snoc (l : list nat) x :
  StronglySorted Nat.lt l → (∀ y, y ∈ l → (y < x)%nat) →
  StronglySorted Nat.lt (l ++ [x]).
Proof.
  induction 1 as [|a l Hl IH Ha]; intros Hx; cbn [app].
  - repeat constructor.
  - constructor.
    + apply IH. intros y Hy. apply Hx. by right.
    + apply Forall_app. split; [done|]. constructor; [|constructor].
      apply Hx. by left.
Qed.

Lemma find_objects_spec data : ∀ fuel pos objects,
  (length data ≤ pos + fuel)%nat →
  (∀ i, i ∈ objects ↔ (i < pos)%nat ∧ header_at data i) →
  StronglySorted Nat.lt objects →
  (∀ i, i ∈ find_objects fuel data pos objects ↔ header_at data i)
  ∧ StronglySorted Nat.lt (find_objects fuel data pos objects).
Proof.
  induction fuel as [|fuel IH]; intros pos objects Hf Hobj Hs;
    cbn [find_objects].
  - split; [|done]. intros i. rewrite Hobj. split; [by intros [_ ?]|].
    intros H. split; [|done]. apply header_at_lt in H. lia.
  - destruct (pos <? length data)%nat eqn:E.
    + apply Nat.ltb_lt in E.
      destruct (find data magic pos) as [idx|] eqn:Ef.
      * apply find_Some in Ef as (Hle & Hidx & Hno).
        apply IH.
        -- lia.
        -- intros i. rewrite elem_of_app, list_elem_of_singleton, Hobj.
           split.
           ++ intros [[? ?]| ->]; split; (done || lia).
           ++ intros [Hi Hh]. destruct (decide (i = idx)) as [->|Hne]; [by right|].
              left. split; [|done].
              destruct (decide (i < pos)%nat); [done|].
              exfalso. apply (Hno i); [lia | done].
        -- apply StronglySorted_snoc; [done|]. intros y Hy.
           apply Hobj in Hy as [Hy _]. lia.
      * split; [|done]. intros i. rewrite Hobj. split; [by intros [_ ?]|].
        intros H. split; [|done].
        destruct (decide (i < pos)%nat); [done|]. exfalso.
        apply (find_None data pos) with (m := i); [lia | done | lia | done].
    + apply Nat.ltb_ge in E. split; [|done]. intros i. rewrite Hobj.
      split; [by intros [_ ?]|]. intros H. split; [|done].
      apply header_at_lt in H. lia.
Qed.

(** X19: the loop of [analyze_java_serialized_data] that collects the
    object boundaries finds every index at which the header stands and
    no other, in strictly ascending order; and it has come to its end
    after [length data] rounds: more rounds give the same list. *)
Theorem object_boundaries (data : list N) :
  (∀ i, i ∈ find_objects (length data) data 0 [] ↔ header_at data i)
  ∧ StronglySorted Nat.lt (find_objects (length data) data 0 [])
  ∧ ∀ more, find_objects (length data + more) data 0 []
            = find_objects (length data) data 0 [].
Proof.
  destruct (find_objects_spec data (length data) 0 []) as [H1 H2].
  - lia.
  - intros i. rewrite elem_of_nil. split; [done | lia].
  - constructor.
  - split; [done|]. split; [done|].
    assert (∀ fuel pos objects, (length data ≤ pos + fuel)%nat →
              find_objects (S fuel) data pos objects
              = find_objects fuel data pos objects) as Hstep.
    { induction fuel as [|fuel IH]; intros pos objects Hf.
      - cbn [find_objects].
        destruct (pos <? length data)%nat eqn:E; [|done].
        apply Nat.ltb_lt in E. lia.
      - change (find_objects (S (S fuel)) data pos objects)
          with (if (pos <? length data)%nat then
                  match find data magic pos with
                  | None => objects
                  | Some idx =>
                      find_objects (S fuel) data (idx + 1) (objects ++ [idx])
                  end
                else objects).
        change (find_objects (S fuel) data pos objects)
          with (if (pos <? length data)%nat then
                  match find data magic pos with
                  | None => objects
                  | Some idx =>
                      find_objects fuel data (idx + 1) (objects ++ [idx])
                  end
                else objects).
        destruct (pos <? length data)%nat; [|done].
        destruct (find data magic pos) as [idx|] eqn:Ef; [|done].
        apply find_Some in Ef as (Hle & _ & _). apply IH. lia. }
    induction more as [|more IH].
    + by rewrite Nat.add_0_r.
    + rewrite Nat.add_succ_r, Hstep by lia. exact IH.
Qed.

(** ** [recover_cache.py]: the truncation *)

Lemma sorted_nth (l : list nat) :
  StronglySorted Nat.lt l →
  ∀ i j, (i < j < length l)%nat → (nth i l O < nth j l O)%nat.
Proof.
  induction 1 as [|a l Hl IH Ha]; intros i j Hij; cbn [length] in *; [lia|].
  destruct j as [|j]; [lia|]. destruct i as [|i]; cbn [nth].
  - rewrite Forall_forall in Ha. apply Ha, list_elem_of_In, nth_In. lia.
  - apply IH. lia.
Qed.

Lemma elem_nth (l : list nat) x : x ∈ l → ∃ a, (a < length l)%nat ∧ nth a l O = x.
Proof.
  intros H. apply list_elem_of_In in H.
  destruct (In_nth l x O H) as (a & Ha & E). eauto.
Qed.

Lemma last_complete_Some data objects t : ∀ k,
  (k ≤ length objects)%nat →
  (∀ i, (k ≤ i < length objects)%nat →
        (nth i objects O + 100 <? length data)%nat = false) →
  last_complete data objects k = Some t →
  ∃ i, (S i < length objects)%nat
    ∧ (nth i objects O + 100 <? length data)%nat = true
    ∧ (nth (S i) objects O + 100 <? length data)%nat = false
    ∧ t = take (nth (S i) objects O) data.
Proof.
  induction k as [|i IH]; intros Hk Hno; cbn [last_complete]; [done|].
  cbv zeta. destruct (nth i objects O + 100 <? length data)%nat eqn:E.
  - destruct (i <? length objects - 1)%nat eqn:Ei; [|done].
    apply Nat.ltb_lt in Ei. intros [= <-]. exists i.
    split; [lia|]. split; [done|]. split; [apply Hno; lia|].
    by rewrite Nat.add_1_r.
  - apply IH; [lia|]. intros j Hj.
    destruct (decide (j = i)) as [->|]; [done | apply Hno; lia].
Qed.

Lemma last_complete_None data objects : ∀ k,
  (k ≤ length objects)%nat →
  last_complete data objects k = None →
  (∀ i, (i < k)%nat → (nth i objects O + 100 <? length data)%nat = false)
  ∨ (k = length objects ∧ (0 < k)%nat
     ∧ (nth (k - 1) objects O + 100 <? length data)%nat = true).
Proof.
  induction k as [|i IH]; intros Hk; cbn [last_complete]; [left; lia|].
  cbv zeta. destruct (nth i objects O + 100 <? length data)%nat eqn:E.
  - destruct (i <? length objects - 1)%nat eqn:Ei; [done|].
    apply Nat.ltb_ge in Ei. intros _. right.
    split; [lia|]. split; [lia|]. by rewrite Nat.sub_succ, Nat.sub_0_r.
  - intros H. destruct (IH ltac:(lia) H) as [Hl|(Hr & _)]; [|lia].
    left. intros j Hj. destruct (decide (j = i)) as [->|]; [done|].
    apply Hl. lia.
Qed.

(** What [analyze_java_serialized_data] writes: the data up to the first
    header that has no more than 100 bytes from its start to the end,
    provided some header has more. *)
Lemma analyze_Some data t :
  analyze_java_serialized_data data = Some t →
  ∃ k, t = take k data ∧ header_at data k ∧ (length data ≤ k + 100)%nat
    ∧ (∃ j, header_at data j ∧ (j + 100 < length data)%nat)
    ∧ ∀ m, header_at data m → (m < k)%nat → (m + 100 < length data)%nat.
Proof.
  unfold analyze_java_serialized_data. cbv zeta.
  destruct (object_boundaries data) as (Hmem & Hsorted & _).
  set (objects := find_objects (length data) data 0 []) in *.
  destruct objects as [|o objs] eqn:Eo; [done|]. rewrite <- Eo in *.
  intros H. apply last_complete_Some in H as (i & Hi & Hyes & Hno & ->);
    [|lia|lia].
  apply Nat.ltb_lt in Hyes. apply Nat.ltb_ge in Hno.
  exists (nth (S i) objects O). split; [done|].
  split; [apply Hmem, list_elem_of_In, nth_In; lia|]. split; [lia|]. split.
  - exists (nth i objects O). split; [|done].
    apply Hmem, list_elem_of_In, nth_In. lia.
  - intros m Hm Hlt. apply Hmem, elem_nth in Hm as (a & Ha & <-).
    destruct (decide (a ≤ i)%nat) as [Hle|Hgt].
    + destruct (decide (a = i)) as [->|]; [done|].
      pose proof (sorted_nth objects Hsorted a i ltac:(lia)). lia.
    + destruct (decide (a = S i)) as [->|]; [lia|].
      pose proof (sorted_nth objects Hsorted (S i) a ltac:(lia)). lia.
Qed.

Lemma analyze_None data :
  analyze_java_serialized_data data = None →
  (∀ j, header_at data j → (length data ≤ j + 100)%nat)
  ∨ (∀ j, header_at data j → (j + 100 < length data)%nat).
Proof.
  unfold analyze_java_serialized_data. cbv zeta.
  destruct (object_boundaries data) as (Hmem & Hsorted & _).
  set (objects := find_objects (length data) data 0 []) in *.
  destruct objects as [|o objs] eqn:Eo.
  { intros _. left. intros j Hj. by apply Hmem, elem_of_nil in Hj. }
  rewrite <- Eo in *. intros H.
  apply last_complete_None in H as [Hl|(_ & Hpos & Hr)]; [| |lia].
  - left. intros j Hj. apply Hmem, elem_nth in Hj as (a & Ha & <-).
    specialize (Hl a Ha). apply Nat.ltb_ge in Hl. lia.
  - right. intros j Hj. apply Hmem, elem_nth in Hj as (a & Ha & <-).
    apply Nat.ltb_lt in Hr.
    destruct (decide (a = length objects - 1)%nat) as [->|]; [done|].
    pose proof (sorted_nth objects Hsorted a (length objects - 1) ltac:(lia)).
    lia.
Qed.

(** X20: [analyze_java_serialized_data] writes a truncated file exactly
    when some header has more than 100 bytes from its start to the end
    of the data and some header has not; what it writes is the data up
    to the first header that has not. *)
Theorem truncation_point (data t : list N) :
  analyze_java_serialized_data data = Some t
  ↔ ∃ k, t = take k data ∧ header_at data k ∧ (length data ≤ k + 100)%nat
      ∧ (∃ j, header_at data j ∧ (j + 100 < length data)%nat)
      ∧ ∀ m, header_at data m → (m < k)%nat → (m + 100 < length data)%nat.
Proof.
  split; [apply analyze_Some|].
  intros (k & -> & Hk & Hlate & (j & Hj & Hearly) & Hmin).
  destruct (analyze_java_serialized_data data) as [t'|] eqn:E.
  - apply analyze_Some in E as (k' & -> & Hk' & Hlate' & _ & Hmin').
    destruct (decide (k' = k)) as [->|Hne]; [done|]. exfalso.
    destruct (decide (k' < k)%nat).
    + specialize (Hmin k' Hk' ltac:(lia)). lia.
    + specialize (Hmin' k Hk ltac:(lia)). lia.
  - exfalso. apply analyze_None in E as [Hall|Hall].
    + specialize (Hall j Hj). lia.
    + specialize (Hall k Hk). lia.
Qed.

(** X21: the truncated file is the data without its end: what is left out
    begins with the header, is at least the four bytes of the header and
    at most 100 bytes long. *)
Theorem truncation_drops_little (data t : list N) :
  analyze_java_serialized_data data = Some t →
  ∃ rest, data = t ++ rest ∧ startswith rest magic = true
    ∧ (4 ≤ length rest ≤ 100)%nat.
Proof.
  intros H. apply analyze_Some in H as (k & -> & Hk & Hlate & _ & _).
  exists (drop k data). split; [by rewrite take_drop|]. split; [exact Hk|].
  apply header_at_lt in Hk as Hlen. rewrite length_drop. lia.
Qed.

Lemma truncation_drops_little_witness :
  ∃ rest, cut_stream = take 104 cut_stream ++ rest
    ∧ startswith rest magic = true ∧ (4 ≤ length rest ≤ 100)%nat.
Proof.
  apply (truncation_drops_little cut_stream (take 104 cut_stream)).
  vm_compute. reflexivity.
Defined.
